(** * Mini-Rosetta (rotheca): translation pipeline and cache subsystem

    A shallow embedding of the C++ sources

    - [xxhash.h]                  the XXH64 hasher, one-shot and streaming;
    - [mini-rosetta-translator.h] the block decoder and the rule applicator
                                  (the same two functions are repeated in
                                  [rotheca.h]);
    - [cache-signatures.h]        the signature store and its fuzzy matcher;
    - [cache.h]                   the two-tier translation cache;
    - [cache-persistence.h]       the background persistence engine.

    Conventions.  A byte is a [Z] in [0, 256).  A [uint64_t] is a [Z] kept in
    [0, 2^64) by an explicit [mod]; likewise [uint32_t].  A [const byte*]
    together with its length is a [list Z]; the one place where the source
    passes a pointer and a separate bound ([decode_x86_instruction]) keeps the
    two apart.  Lengths and offsets of type [size_t] that index those buffers
    are plain [Z]: every call site passes a bound of at most 1024, so they
    never wrap.  The wall clock is an explicit argument [now]. *)

From Stdlib Require Import ZArith List Lia Bool SpecFloat HexString.
From stdpp Require Import gmap strings pretty.
Import ListNotations.
Local Open Scope Z_scope.

(** ** Machine integers *)

Module Word.

Definition u8 (x : Z) : Z := x mod 2 ^ 8.
Definition u32 (x : Z) : Z := x mod 2 ^ 32.
Definition u64 (x : Z) : Z := x mod 2 ^ 64.

(** [static_cast<int8_t>] of a byte, widened to [int32_t]. *)
Definition int8_of_byte (b : Z) : Z := if u8 b <? 128 then u8 b else u8 b - 256.

(** [*reinterpret_cast<const int32_t*>] of four bytes, little-endian. *)
Definition int32_of_u32 (x : Z) : Z := if u32 x <? 2 ^ 31 then u32 x else u32 x - 2 ^ 32.

(** Little-endian value of a byte string (what [memcpy] into an integer of
    that many bytes yields on the little-endian hosts the cache file format
    is fixed for). *)
Fixpoint le_value (bs : list Z) : Z :=
  match bs with
  | [] => 0
  | b :: bs' => b + 256 * le_value bs'
  end.

(** The [n] little-endian bytes of [x]. *)
Fixpoint le_bytes (n : nat) (x : Z) : list Z :=
  match n with
  | O => []
  | S n' => x mod 256 :: le_bytes n' (x / 256)
  end.

(** [p[i]] for a buffer held as a list; a read past the modelled buffer
    yields 0 (the source guards every read by its bound). *)
Definition byte_at (code : list Z) (i : Z) : Z := nth (Z.to_nat i) code 0.

(** [memcpy(dst + off, src, |src|)] on a buffer held as a list. *)
Definition memcpy_at (dst : list Z) (off : nat) (src : list Z) : list Z :=
  firstn off dst ++ src ++ skipn (off + length src) dst.

(** [std::find_if] from the front: the elements before the first one that
    satisfies [p], that element, and the elements after it. *)
Fixpoint split_first {A : Type} (p : A -> bool) (l : list A)
    : option (list A * A * list A) :=
  match l with
  | [] => None
  | x :: l' =>
      if p x then Some ([], x, l')
      else match split_first p l' with
           | Some (pre, y, post) => Some (x :: pre, y, post)
           | None => None
           end
  end.

(** [std::find_if] over [rbegin() .. rend()]: the same split around the
    last element that satisfies [p]. *)
Definition split_last {A : Type} (p : A -> bool) (l : list A)
    : option (list A * A * list A) :=
  match split_first p (rev l) with
  | Some (pre, y, post) => Some (rev post, y, rev pre)
  | None => None
  end.

End Word.

(** ** Block decoder and rule applicator ([mini-rosetta-translator.h]) *)

Module Translator.
Import Word.

Record X86InstructionDef := mkX86Def {
  def_opcode : Z;
  def_mnemonic : string;
  def_size : Z;
  has_modrm : bool;
  has_sib : bool;
  has_displacement : bool;
  has_immediate : bool
}.

Record TranslationRule := mkRule {
  x86_opcode : Z;
  arm_opcodes : list Z;
  description : string
}.

Record X86DecodedInst := mkInst {
  inst_opcode : Z;
  inst_modrm : Z;
  inst_sib : Z;
  inst_displacement : Z;
  inst_immediate : Z;
  inst_length : Z
}.

(** [X86DecodedInst inst = {0};] *)
Definition inst_zero : X86DecodedInst := mkInst 0 0 0 0 0 0.

Definition set_modrm (i : X86DecodedInst) (v : Z) : X86DecodedInst :=
  mkInst (inst_opcode i) v (inst_sib i) (inst_displacement i) (inst_immediate i) (inst_length i).
Definition set_sib (i : X86DecodedInst) (v : Z) : X86DecodedInst :=
  mkInst (inst_opcode i) (inst_modrm i) v (inst_displacement i) (inst_immediate i) (inst_length i).
Definition set_displacement (i : X86DecodedInst) (v : Z) : X86DecodedInst :=
  mkInst (inst_opcode i) (inst_modrm i) (inst_sib i) v (inst_immediate i) (inst_length i).
Definition set_immediate (i : X86DecodedInst) (v : Z) : X86DecodedInst :=
  mkInst (inst_opcode i) (inst_modrm i) (inst_sib i) (inst_displacement i) v (inst_length i).
Definition add_length (i : X86DecodedInst) (n : Z) : X86DecodedInst :=
  mkInst (inst_opcode i) (inst_modrm i) (inst_sib i) (inst_displacement i) (inst_immediate i)
         (inst_length i + n).

(** Four bytes at [code + i], read as a little-endian [int32_t]. *)
Definition read_int32 (code : list Z) (i : Z) : Z :=
  int32_of_u32 (le_value [byte_at code i; byte_at code (i + 1);
                          byte_at code (i + 2); byte_at code (i + 3)]).

Section Decode.

Variable x86_defs : gmap Z X86InstructionDef.

(** The [if (def.has_displacement)] block, entered with [mod] already
    computed from the ModR/M byte. *)
Definition decode_displacement (def : X86InstructionDef) (code : list Z)
    (offset max_length mod_ : Z) (inst : X86DecodedInst) : X86DecodedInst :=
  if has_displacement def then
    if (mod_ =? 1) && (offset + inst_length inst <? max_length) then
      add_length
        (set_displacement inst (int8_of_byte (byte_at code (offset + inst_length inst)))) 1
    else if (mod_ =? 2) && (offset + inst_length inst + 3 <? max_length) then
      add_length (set_displacement inst (read_int32 code (offset + inst_length inst))) 4
    else inst
  else inst.

(** The [if (def.has_modrm && ...)] block. *)
Definition decode_modrm (def : X86InstructionDef) (code : list Z)
    (offset max_length : Z) (inst : X86DecodedInst) : X86DecodedInst :=
  if has_modrm def && (offset + inst_length inst <? max_length) then
    let inst := add_length (set_modrm inst (byte_at code (offset + inst_length inst))) 1 in
    let mod_ := Z.land (Z.shiftr (inst_modrm inst) 6) 3 in
    let rm := Z.land (inst_modrm inst) 7 in
    let inst :=
      if has_sib def && negb (mod_ =? 3) && (rm =? 4)
         && (offset + inst_length inst <? max_length)
      then add_length (set_sib inst (byte_at code (offset + inst_length inst))) 1
      else inst in
    decode_displacement def code offset max_length mod_ inst
  else inst.

(** The [if (def.has_immediate && ...)] block. *)
Definition decode_immediate (def : X86InstructionDef) (code : list Z)
    (offset max_length : Z) (inst : X86DecodedInst) : X86DecodedInst :=
  if has_immediate def && (offset + inst_length inst + 3 <? max_length) then
    add_length (set_immediate inst (read_int32 code (offset + inst_length inst))) 4
  else inst.

Definition decode_x86_instruction (code : list Z) (offset max_length : Z)
    : X86DecodedInst :=
  if max_length <=? offset then inst_zero
  else
    let inst := mkInst (byte_at code offset) 0 0 0 0 1 in
    match x86_defs !! inst_opcode inst with
    | Some def =>
        decode_immediate def code offset max_length
          (decode_modrm def code offset max_length inst)
    | None => inst
    end.

(** [inst.opcode == 0xC3 || inst.opcode == 0xE9 || inst.opcode == 0xE8] *)
Definition is_terminator (op : Z) : bool :=
  (op =? 0xC3) || (op =? 0xE9) || (op =? 0xE8).

(** The [while (offset < max_length)] loop of [analyze_x86_block]; one unit
    of fuel per iteration. *)
Fixpoint analyze_loop (fuel : nat) (code : list Z) (max_length offset : Z) : Z :=
  match fuel with
  | O => offset
  | S fuel' =>
      if offset <? max_length then
        let inst := decode_x86_instruction code offset max_length in
        if inst_length inst =? 0 then offset
        else
          let offset := offset + inst_length inst in
          if is_terminator (inst_opcode inst) then offset
          else analyze_loop fuel' code max_length offset
      else offset
  end.

(** Every iteration advances [offset] by at least one byte, so [max_length]
    iterations are enough (lemma [analyze_loop_fuel] below). *)
Definition analyze_x86_block (code : list Z) (max_length : Z) : Z :=
  analyze_loop (Z.to_nat max_length) code max_length 0.

End Decode.

(** The decoding rule in the words of the specification: the number of
    bytes the instruction at [offset] needs according to its definition,
    read off the buffer without regard to a bound. *)
Definition required_length (x86_defs : gmap Z X86InstructionDef) (code : list Z)
    (offset : Z) : Z :=
  match x86_defs !! byte_at code offset with
  | None => 1
  | Some def =>
      let modrm := byte_at code (offset + 1) in
      let mod_ := Z.land (Z.shiftr modrm 6) 3 in
      let rm := Z.land modrm 7 in
      1
      + (if has_modrm def then
           1
           + (if has_sib def && negb (mod_ =? 3) && (rm =? 4) then 1 else 0)
           + (if has_displacement def then
                if mod_ =? 1 then 1 else if mod_ =? 2 then 4 else 0
              else 0)
         else 0)
      + (if has_immediate def then 4 else 0)
  end.

(** The block boundary in the words of the specification: decoding
    repeatedly from [offset], the block ends at [stop]. *)
Inductive block_ends (x86_defs : gmap Z X86InstructionDef) (code : list Z)
    (max_length : Z) : Z -> Z -> Prop :=
  | ends_on_failure offset :
      inst_length (decode_x86_instruction x86_defs code offset max_length) = 0 ->
      block_ends x86_defs code max_length offset offset
  | ends_on_terminator offset :
      inst_length (decode_x86_instruction x86_defs code offset max_length) <> 0 ->
      is_terminator (inst_opcode (decode_x86_instruction x86_defs code offset max_length))
      = true ->
      block_ends x86_defs code max_length offset
        (offset + inst_length (decode_x86_instruction x86_defs code offset max_length))
  | ends_later offset stop :
      inst_length (decode_x86_instruction x86_defs code offset max_length) <> 0 ->
      is_terminator (inst_opcode (decode_x86_instruction x86_defs code offset max_length))
      = false ->
      block_ends x86_defs code max_length
        (offset + inst_length (decode_x86_instruction x86_defs code offset max_length)) stop ->
      block_ends x86_defs code max_length offset stop.

(** [arm_code.push_back(0xD503201F)] *)
Definition ARM_NOP : Z := 0xD503201F.

(** The rule table is a [std::vector] scanned front to back. *)
Fixpoint translate_x86_instruction (translation_rules : list TranslationRule)
    (x86_inst : X86DecodedInst) : list Z :=
  match translation_rules with
  | [] => [ARM_NOP]
  | rule :: rules' =>
      if x86_opcode rule =? inst_opcode x86_inst then arm_opcodes rule
      else translate_x86_instruction rules' x86_inst
  end.

(** [create_default_definitions("x86")] *)
Definition default_x86_defs : gmap Z X86InstructionDef :=
  <[0x0F := mkX86Def 0x0F "SIMD_PREFIX" 1 false false false false]>
  (<[0xC3 := mkX86Def 0xC3 "RET" 1 false false false false]>
  (<[0xE8 := mkX86Def 0xE8 "CALL" 5 false false false true]>
  (<[0x29 := mkX86Def 0x29 "SUB" 2 true true true false]>
  (<[0x01 := mkX86Def 0x01 "ADD" 2 true true true false]>
  (<[0x89 := mkX86Def 0x89 "MOV" 2 true true true false]>
  (<[0x90 := mkX86Def 0x90 "NOP" 1 false false false false]> ∅)))))).

(** [create_default_definitions("translation")] *)
Definition default_translation_rules : list TranslationRule :=
  [ mkRule 0x90 [0xD503201F] "NOP -> NOP";
    mkRule 0x89 [0xAA0003E0] "MOV reg, reg -> MOV X0, X0";
    mkRule 0x01 [0x8B010000] "ADD reg, reg -> ADD X0, X0, X1";
    mkRule 0x29 [0xCB010000] "SUB reg, reg -> SUB X0, X0, X1";
    mkRule 0xE8 [0xF81F0FE0; 0x94000000] "CALL -> STR X0, [SP, -16]! + BL";
    mkRule 0xC3 [0xF84107E0; 0xD65F03C0] "RET -> LDR X0, [SP], 16 + RET";
    mkRule 0x0F [0x4EA01C00] "SIMD -> MOV NEON" ].

(** [example_program] of the demonstration drivers. *)
Definition example_program : list Z :=
  [0x90; 0x89; 0xC3; 0x01; 0xC3; 0x29; 0xD8; 0x0F; 0x28; 0xC1; 0xC3].

End Translator.

(** ** The hasher ([xxhash.h]) *)

Module XXHash.
Import Word.

Definition PRIME64_1 : Z := 11400714785074694791.
Definition PRIME64_2 : Z := 14029467366897019727.
Definition PRIME64_3 : Z := 1609587929392839161.
Definition PRIME64_4 : Z := 9650029242287828579.
Definition PRIME64_5 : Z := 2870177450012600261.

(** [(x << r) | (x >> (64 - r))] on [uint64_t]. *)
Definition XXH_rotl64 (x r : Z) : Z :=
  Z.lor (u64 (Z.shiftl x r)) (Z.shiftr x (64 - r)).

(** [memcpy(&val, memptr, 8)]: the eight bytes at the head of [p]. *)
Definition XXH_read64 (p : list Z) : Z := le_value (firstn 8 p).

(** [memcpy(&k1, p, 4)] into a [uint32_t]. *)
Definition XXH_read32 (p : list Z) : Z := le_value (firstn 4 p).

Definition XXH64_round (acc input : Z) : Z :=
  let acc := u64 (acc + u64 (input * PRIME64_2)) in
  let acc := XXH_rotl64 acc 31 in
  u64 (acc * PRIME64_1).

Definition XXH64_mergeRound (acc val : Z) : Z :=
  let val := XXH64_round 0 val in
  let acc := Z.lxor acc val in
  u64 (u64 (acc * PRIME64_1) + PRIME64_4).

(** The four lane accumulators [v1 .. v4]. *)
Record lanes := mkLanes { v1 : Z; v2 : Z; v3 : Z; v4 : Z }.

(** One pass of the body of the [do { ... } while (p <= limit)] loop: four
    reads of eight bytes each, one per lane. *)
Definition stripe (v : lanes) (p : list Z) : lanes :=
  mkLanes (XXH64_round (v1 v) (XXH_read64 p))
          (XXH64_round (v2 v) (XXH_read64 (skipn 8 p)))
          (XXH64_round (v3 v) (XXH_read64 (skipn 16 p)))
          (XXH64_round (v4 v) (XXH_read64 (skipn 24 p))).

(** The [do ... while (p <= limit)] loop with [limit = bEnd - 32]: the body
    runs, then the loop continues while at least 32 bytes remain.  Returns
    the lanes and the unread rest of the input. *)
Fixpoint stripes_do_while (fuel : nat) (v : lanes) (p : list Z) : lanes * list Z :=
  match fuel with
  | O => (v, p)
  | S fuel' =>
      let v := stripe v p in
      let p := skipn 32 p in
      if 32 <=? Z.of_nat (length p) then stripes_do_while fuel' v p else (v, p)
  end.

(** [rotl(v1,1) + rotl(v2,7) + rotl(v3,12) + rotl(v4,18)] followed by the
    four merge rounds. *)
Definition merge_lanes (v : lanes) : Z :=
  let h64 := u64 (u64 (u64 (XXH_rotl64 (v1 v) 1 + XXH_rotl64 (v2 v) 7)
                       + XXH_rotl64 (v3 v) 12) + XXH_rotl64 (v4 v) 18) in
  let h64 := XXH64_mergeRound h64 (v1 v) in
  let h64 := XXH64_mergeRound h64 (v2 v) in
  let h64 := XXH64_mergeRound h64 (v3 v) in
  XXH64_mergeRound h64 (v4 v).

(** [while (p + 8 <= bEnd)] *)
Fixpoint tail_words (h64 : Z) (p : list Z) {struct p} : Z * list Z :=
  match p with
  | b0 :: b1 :: b2 :: b3 :: b4 :: b5 :: b6 :: b7 :: rest =>
      let k1 := XXH64_round 0 (le_value [b0; b1; b2; b3; b4; b5; b6; b7]) in
      let h64 := Z.lxor h64 k1 in
      let h64 := u64 (u64 (XXH_rotl64 h64 27 * PRIME64_1) + PRIME64_4) in
      tail_words h64 rest
  | _ => (h64, p)
  end.

(** [if (p + 4 <= bEnd)] *)
Definition tail_half (h64 : Z) (p : list Z) : Z * list Z :=
  if 4 <=? Z.of_nat (length p) then
    let k1 := XXH_read32 p in
    let h64 := Z.lxor h64 (u64 (k1 * PRIME64_1)) in
    let h64 := u64 (u64 (XXH_rotl64 h64 23 * PRIME64_2) + PRIME64_3) in
    (h64, skipn 4 p)
  else (h64, p).

(** [while (p < bEnd)] *)
Fixpoint tail_bytes (h64 : Z) (p : list Z) : Z :=
  match p with
  | [] => h64
  | b :: rest =>
      let h64 := Z.lxor h64 (u64 (b * PRIME64_5)) in
      let h64 := u64 (XXH_rotl64 h64 11 * PRIME64_1) in
      tail_bytes h64 rest
  end.

(** The final avalanche. *)
Definition avalanche (h64 : Z) : Z :=
  let h64 := Z.lxor h64 (Z.shiftr h64 33) in
  let h64 := u64 (h64 * PRIME64_2) in
  let h64 := Z.lxor h64 (Z.shiftr h64 29) in
  let h64 := u64 (h64 * PRIME64_3) in
  Z.lxor h64 (Z.shiftr h64 32).

(** The text from "Processa i rimanenti 0-31 bytes" to the end, which
    [XXH64] and [XXH64_digest] both contain word for word: [p] is what is
    left between the read pointer and [bEnd]. *)
Definition finish (h64 : Z) (p : list Z) : Z :=
  let '(h64, p) := tail_words h64 p in
  let '(h64, p) := tail_half h64 p in
  avalanche (tail_bytes h64 p).

(** [XXH64(input, len, seed)] with [input] the [len] bytes. *)
Definition XXH64 (input : list Z) (seed : Z) : Z :=
  let len := Z.of_nat (length input) in
  let '(h64, p) :=
    if 32 <=? len then
      let v := mkLanes (u64 (u64 (seed + PRIME64_1) + PRIME64_2))
                       (u64 (seed + PRIME64_2))
                       (u64 (seed + 0))
                       (u64 (seed - PRIME64_1)) in
      let '(v, p) := stripes_do_while (length input) v input in
      (merge_lanes v, p)
    else (u64 (seed + PRIME64_5), input) in
  let h64 := u64 (h64 + len) in
  finish h64 p.

Record XXH64_state_t := mkState {
  total_len : Z;
  acc : lanes;
  mem64 : list Z;   (* the 32 bytes of [uint64_t mem64[4]] *)
  memsize : Z
}.

Definition XXH64_reset (seed : Z) : XXH64_state_t :=
  mkState 0
          (mkLanes (u64 (u64 (seed + PRIME64_1) + PRIME64_2))
                   (u64 (seed + PRIME64_2))
                   (u64 (seed + 0))
                   (u64 (seed - PRIME64_1)))
          (repeat 0 32)
          0.

(** The [if (state->memsize)] block; returns the state and the advanced
    read pointer. *)
Definition update_fill (state : XXH64_state_t) (input : list Z)
    : XXH64_state_t * list Z :=
  if memsize state =? 0 then (state, input)
  else
    let len := Z.of_nat (length input) in
    let remaining := 32 - memsize state in
    let to_copy := if len <? remaining then len else remaining in
    let mem := memcpy_at (mem64 state) (Z.to_nat (memsize state))
                         (firstn (Z.to_nat to_copy) input) in
    let msz := memsize state + to_copy in
    let state :=
      if msz =? 32
      then mkState (total_len state) (stripe (acc state) mem) mem 0
      else mkState (total_len state) (acc state) mem msz in
    (state, skipn (Z.to_nat to_copy) input).

(** The [if (p + 32 <= bEnd)] block. *)
Definition update_stripes (state : XXH64_state_t) (p : list Z)
    : XXH64_state_t * list Z :=
  if 32 <=? Z.of_nat (length p) then
    let '(v, p) := stripes_do_while (length p) (acc state) p in
    (mkState (total_len state) v (mem64 state) (memsize state), p)
  else (state, p).

(** The [if (p < bEnd)] block. *)
Definition update_store (state : XXH64_state_t) (p : list Z) : XXH64_state_t :=
  if 0 <? Z.of_nat (length p) then
    mkState (total_len state) (acc state)
            (memcpy_at (mem64 state) (Z.to_nat (memsize state)) p)
            (memsize state + Z.of_nat (length p))
  else state.

(** [XXH64_update]; [None] is a null [input].  The function returns [true]
    on every path, so only the state is kept. *)
Definition XXH64_update (state : XXH64_state_t) (input : option (list Z))
    : XXH64_state_t :=
  match input with
  | None => state
  | Some input =>
      let state := mkState (u64 (total_len state + Z.of_nat (length input)))
                           (acc state) (mem64 state) (memsize state) in
      let '(state, p) := update_fill state input in
      let '(state, p) := update_stripes state p in
      update_store state p
  end.

Definition XXH64_digest (state : XXH64_state_t) : Z :=
  let h64 :=
    if 32 <=? total_len state then merge_lanes (acc state)
    else u64 (v3 (acc state) + PRIME64_5) in
  let h64 := u64 (h64 + total_len state) in
  finish h64 (firstn (Z.to_nat (memsize state)) (mem64 state)).

(** [init -> update(b1) -> ... -> update(bn)] *)
Definition XXH64_stream (seed : Z) (chunks : list (list Z)) : XXH64_state_t :=
  fold_left (fun st b => XXH64_update st (Some b)) chunks (XXH64_reset seed).

(** The lanes after [n] stripes of [p], one after the other. *)
Fixpoint absorb (n : nat) (v : lanes) (p : list Z) : lanes :=
  match n with
  | O => v
  | S n' => absorb n' (stripe v p) (skipn 32 p)
  end.

(** The lanes [XXH64_reset] starts from. *)
Definition seed_lanes (seed : Z) : lanes := acc (XXH64_reset seed).

(** What a streaming state stands for once the bytes [fed] have gone in:
    the lanes have absorbed every complete stripe of [fed], the buffer holds
    the bytes after the last complete stripe, and the length is counted. *)
Record represents (seed : Z) (fed : list Z) (state : XXH64_state_t) : Prop := {
  rep_total : total_len state = u64 (Z.of_nat (length fed));
  rep_acc : acc state = absorb (length fed / 32) (seed_lanes seed) fed;
  rep_memsize : memsize state = Z.of_nat (length fed mod 32);
  rep_mem : firstn (length fed mod 32) (mem64 state) = skipn (32 * (length fed / 32)) fed;
  rep_buffer : length (mem64 state) = 32%nat
}.

End XXHash.

(** ** The signature store ([cache-signatures.h]) *)

Module Signatures.
Import Word.

(** [float] is IEEE binary32: 24 bits of precision, exponents below 128. *)
Definition prec : Z := 24.
Definition emax : Z := 128.

(** [static_cast<float>(n)] for a [size_t] (round to nearest even). *)
Definition float_of_size (n : Z) : spec_float := binary_normalize prec emax n 0 false.

(** [a / b] on [float]. *)
Definition float_div (a b : spec_float) : spec_float := SFdiv prec emax a b.

(** [a >= b] on [float]. *)
Definition float_ge (a b : spec_float) : bool := SFleb b a.

(** [0.0f] *)
Definition float_zero : spec_float := S754_zero false.

Inductive BlockType := GENERIC | FUNCTION | LOOP | BRANCH | SIMD | HOTSPOT.

Record BlockSignature := mkSig {
  sig_hash : Z;
  sig_type : BlockType;
  sig_address : Z;
  sig_size : Z;
  sig_mask : list Z;
  similarity_threshold : spec_float
}.

(** [BlockSignature()]: value-initialised. *)
Definition empty_signature : BlockSignature := mkSig 0 GENERIC 0 0 [] float_zero.

(** [calculate_hash] *)
Definition calculate_hash (code : list Z) : Z := XXHash.XXH64 code 0.

(** The [for] loop of [compare_blocks_with_mask], entered with the three
    vectors of one size; carries [matches] and [total]. *)
Fixpoint mask_scan (block1 block2 mask : list Z) (matches total : Z) : Z * Z :=
  match block1, block2, mask with
  | b1 :: r1, b2 :: r2, m :: rm =>
      if m =? 1 then
        mask_scan r1 r2 rm (if b1 =? b2 then matches + 1 else matches) (total + 1)
      else mask_scan r1 r2 rm matches total
  | _, _, _ => (matches, total)
  end.

Definition compare_blocks_with_mask (block1 block2 mask : list Z) : spec_float :=
  if negb (length block1 =? length block2)%nat || negb (length block1 =? length mask)%nat
  then float_zero
  else
    let '(matches, total) := mask_scan block1 block2 mask 0 0 in
    if 0 <? total then float_div (float_of_size matches) (float_of_size total)
    else float_zero.

(** The similarity in the words of the specification: over the indices
    where the mask is 1, the number of matching bytes divided by the number
    of significant bytes, and 0 when no byte is significant. *)
Definition significant_count (mask : list Z) : Z :=
  Z.of_nat (length (List.filter (fun m => m =? 1) mask)).

Definition matching_count (block1 block2 mask : list Z) : Z :=
  Z.of_nat (length (List.filter (fun t => (snd t =? 1) && (fst (fst t) =? snd (fst t)))
                                (combine (combine block1 block2) mask))).

Definition masked_similarity (block1 block2 mask : list Z) : spec_float :=
  if 0 <? significant_count mask
  then float_div (float_of_size (matching_count block1 block2 mask))
                 (float_of_size (significant_count mask))
  else float_zero.

(** [signature_db] is a [std::unordered_map]; its iteration order is not
    specified, so the table is kept as the list of its pairs in iteration
    order, with at most one pair per key. *)
Definition signature_table := list (Z * BlockSignature).

Fixpoint db_find (db : signature_table) (key : Z) : option BlockSignature :=
  match db with
  | [] => None
  | (k, s) :: db' => if k =? key then Some s else db_find db' key
  end.

(** [signature_db[signature.hash] = signature]: assigns in place when the
    key is present, adds a pair otherwise (where the new pair lands in the
    iteration order is up to the library; the model puts it first). *)
Fixpoint db_assign (db : signature_table) (key : Z) (s : BlockSignature) : option signature_table :=
  match db with
  | [] => None
  | (k, s0) :: db' =>
      if k =? key then Some ((k, s) :: db')
      else match db_assign db' key s with
           | Some db'' => Some ((k, s0) :: db'')
           | None => None
           end
  end.

Definition add_signature (db : signature_table) (signature : BlockSignature) : signature_table :=
  match db_assign db (sig_hash signature) signature with
  | Some db' => db'
  | None => (sig_hash signature, signature) :: db
  end.

Definition create_signature (code : list Z) (type : BlockType) (address : Z)
    (mask : list Z) (threshold : spec_float) : BlockSignature :=
  mkSig (calculate_hash code) type address (Z.of_nat (length code)) mask threshold.

Section Find.

(** The process address space: [find_match] rebuilds a signature's
    reference bytes by reading [sig.size] bytes at the raw address
    [sig.address]. *)
Variable memory : Z -> Z.

Definition reference_bytes (sig : BlockSignature) : list Z :=
  map (fun i => memory (sig_address sig + Z.of_nat i)) (seq 0 (Z.to_nat (sig_size sig))).

(** The fuzzy [for] loop over [signature_db]. *)
Fixpoint fuzzy_scan (db : signature_table) (code : list Z) : option BlockSignature :=
  match db with
  | [] => None
  | (_, sig) :: db' =>
      if negb (sig_size sig =? Z.of_nat (length code)) then fuzzy_scan db' code
      else
        let similarity := compare_blocks_with_mask code (reference_bytes sig) (sig_mask sig) in
        if float_ge similarity (similarity_threshold sig) then Some sig
        else fuzzy_scan db' code
  end.

(** [find_match]: the result pair and the memo table after the call. *)
Definition find_match (db : signature_table) (match_cache : gmap Z Z) (code : list Z)
    : (bool * BlockSignature) * gmap Z Z :=
  let hash := calculate_hash code in
  let memo :=
    match match_cache !! hash with
    | Some stored => db_find db stored
    | None => None
    end in
  match memo with
  | Some sig => ((true, sig), match_cache)
  | None =>
      match db_find db hash with
      | Some sig => ((true, sig), match_cache)
      | None =>
          match fuzzy_scan db code with
          | Some sig => ((true, sig), <[hash := sig_hash sig]> match_cache)
          | None => ((false, empty_signature), match_cache)
          end
      end
  end.

(** The test the fuzzy loop applies to one stored signature, in the words
    of the specification: same byte length, and masked similarity at least
    the signature's threshold. *)
Definition fuzzy_passes (code : list Z) (sig : BlockSignature) : bool :=
  (sig_size sig =? Z.of_nat (length code))
  && float_ge (compare_blocks_with_mask code (reference_bytes sig) (sig_mask sig))
              (similarity_threshold sig).

End Find.

End Signatures.

(** ** The two-tier translation cache ([cache.h]) *)

Module Cache.
Import Word.

Definition CACHE_MAGIC : Z := 0x415243524F535345.
Definition CACHE_VERSION : Z := 1.
Definition MAX_L1_CACHE_ENTRIES : Z := 1024.

(** *** Files and streams

    The disk maps a path to the bytes of the file there.  Opening a file for
    writing always succeeds (the constructor creates the cache directory);
    opening one for reading fails when there is none. *)

Record ifstream := mkIn { content : list Z; gpos : nat; failbit : bool }.

Definition open_in (disk : gmap string (list Z)) (path : string) : option ifstream :=
  match disk !! path with
  | Some bytes => Some (mkIn bytes 0 false)
  | None => None
  end.

(** [file.read(dst, n)]: a stream that has failed before reads nothing; a
    read that runs into the end of the file delivers what is there and sets
    the fail bit.  The part of the destination not written is taken to be
    zero (the vectors the source reads into are value-initialised). *)
Definition read (n : nat) (s : ifstream) : list Z * ifstream :=
  if failbit s then (repeat 0 n, s)
  else
    let got := firstn n (skipn (gpos s) (content s)) in
    if (length got <? n)%nat
    then (got ++ repeat 0 (n - length got), mkIn (content s) (length (content s)) true)
    else (got, mkIn (content s) (gpos s + n) false).

(** [file.seekg(p)]: no effect on a failed stream. *)
Definition seekg (p : nat) (s : ifstream) : ifstream :=
  if failbit s then s else mkIn (content s) p false.

(** [seekp(pos); write(bytes)] on a file opened without truncation. *)
Definition write_at (file : list Z) (pos : nat) (bytes : list Z) : list Z :=
  firstn pos (file ++ repeat 0 (pos - length file)) ++ bytes
  ++ skipn (pos + length bytes) file.

(** *** On-disk records

    [CacheFileHeader] and [CacheFileEntry] are written and read back as
    their 64-byte object representation, so a record is held as those 64
    bytes and a field is the little-endian value at its offset.  With the
    natural alignment of the fields:

      header  magic 0(8) version 8(4) entry_count 12(4) x86_hash 16(8)
              creation_time 24(8) last_access 32(8) hit_count 40(4)
              reserved 44(16), 4 bytes of tail padding;
      entry   x86_addr 0(8) x86_size 8(4), 4 bytes of padding, x86_hash 16(8)
              arm_offset 24(8) arm_size 32(4) execution_count 36(4)
              last_execution 40(8) flags 48(4) reserved 52(12).

    Padding bytes of a freshly built record are taken to be zero. *)

Definition get_field (obj : list Z) (off n : nat) : Z :=
  le_value (firstn n (skipn off obj)).

Definition set_field (obj : list Z) (off n : nat) (v : Z) : list Z :=
  memcpy_at obj off (le_bytes n v).

Definition hdr_magic (h : list Z) : Z := get_field h 0 8.
Definition hdr_version (h : list Z) : Z := get_field h 8 4.
Definition hdr_entry_count (h : list Z) : Z := get_field h 12 4.
Definition hdr_x86_hash (h : list Z) : Z := get_field h 16 8.
Definition hdr_creation_time (h : list Z) : Z := get_field h 24 8.
Definition hdr_last_access (h : list Z) : Z := get_field h 32 8.
Definition hdr_hit_count (h : list Z) : Z := get_field h 40 4.

Definition make_header (magic version entry_count x86_hash creation_time
    last_access hit_count : Z) : list Z :=
  le_bytes 8 magic ++ le_bytes 4 version ++ le_bytes 4 entry_count
  ++ le_bytes 8 x86_hash ++ le_bytes 8 creation_time ++ le_bytes 8 last_access
  ++ le_bytes 4 hit_count ++ repeat 0 16 ++ repeat 0 4.

Definition fe_x86_addr (e : list Z) : Z := get_field e 0 8.
Definition fe_x86_size (e : list Z) : Z := get_field e 8 4.
Definition fe_x86_hash (e : list Z) : Z := get_field e 16 8.
Definition fe_arm_offset (e : list Z) : Z := get_field e 24 8.
Definition fe_arm_size (e : list Z) : Z := get_field e 32 4.
Definition fe_execution_count (e : list Z) : Z := get_field e 36 4.
Definition fe_last_execution (e : list Z) : Z := get_field e 40 8.
Definition fe_flags (e : list Z) : Z := get_field e 48 4.

Definition make_file_entry (x86_addr x86_size x86_hash arm_offset arm_size
    execution_count last_execution flags : Z) : list Z :=
  le_bytes 8 x86_addr ++ le_bytes 4 x86_size ++ repeat 0 4
  ++ le_bytes 8 x86_hash ++ le_bytes 8 arm_offset ++ le_bytes 4 arm_size
  ++ le_bytes 4 execution_count ++ le_bytes 8 last_execution
  ++ le_bytes 4 flags ++ repeat 0 12.

(** The [count] records of 64 bytes each held in [raw]. *)
Definition file_entries (count : nat) (raw : list Z) : list (list Z) :=
  map (fun i => firstn 64 (skipn (64 * i) raw)) (seq 0 count).

(** *** Tier 1 *)

Record EnhancedTranslationEntry := mkEntry {
  x86_addr : Z;
  arm_addr : Z;
  x86_size : Z;
  arm_size : Z;
  x86_hash : Z;
  last_access : Z;
  access_count : Z;
  is_hot : bool;
  flags : Z
}.

Inductive CacheLevel := L1_MEMORY | L2_PERSISTENT | NOT_FOUND.

Record TranslationCache := mkCache {
  cache_directory : string;
  l1_cache : list EnhancedTranslationEntry;   (* most recently used first *)
  binary_cache_map : gmap string string;
  l1_hits : Z;
  l2_hits : Z;
  misses : Z
}.

Definition with_l1 (c : TranslationCache) (l1 : list EnhancedTranslationEntry) : TranslationCache :=
  mkCache (cache_directory c) l1 (binary_cache_map c) (l1_hits c) (l2_hits c) (misses c).

(** [e.x86_addr == x86_addr && e.x86_hash == block_hash] *)
Definition same_block (addr hash : Z) (e : EnhancedTranslationEntry) : bool :=
  (x86_addr e =? addr) && (x86_hash e =? hash).

(** [it->last_access = now; it->access_count++; it->is_hot = (it->access_count > 10)] *)
Definition touch (now : Z) (e : EnhancedTranslationEntry) : EnhancedTranslationEntry :=
  let count := u32 (access_count e + 1) in
  mkEntry (x86_addr e) (arm_addr e) (x86_size e) (arm_size e) (x86_hash e)
          now count (10 <? count) (flags e).

(** The eviction step of [save_to_l1_cache], run when the vector is full. *)
Definition evict (l1 : list EnhancedTranslationEntry) : list EnhancedTranslationEntry :=
  match split_last (fun e => negb (is_hot e)) l1 with
  | Some (pre, _, post) => pre ++ post      (* erase((cold_it + 1).base()) *)
  | None => removelast l1                   (* pop_back() *)
  end.

Definition save_to_l1_cache (now : Z) (l1 : list EnhancedTranslationEntry)
    (entry : EnhancedTranslationEntry) : list EnhancedTranslationEntry :=
  match split_first (same_block (x86_addr entry) (x86_hash entry)) l1 with
  | Some (pre, it, post) =>
      let it := mkEntry (x86_addr it) (arm_addr entry) (x86_size it) (arm_size entry)
                        (x86_hash it) (last_access it) (access_count it) (is_hot it)
                        (flags it) in
      (* std::rotate(begin, it, it + 1) *)
      touch now it :: pre ++ post
  | None =>
      let new_entry := mkEntry (x86_addr entry) (arm_addr entry) (x86_size entry)
                               (arm_size entry) (x86_hash entry) now 1 (is_hot entry)
                               (flags entry) in
      let l1 := if MAX_L1_CACHE_ENTRIES <=? Z.of_nat (length l1) then evict l1 else l1 in
      new_entry :: l1
  end.

(** [lookup_l1_cache]: the copy handed back (taken before the entry is
    touched) and the cache after the call. *)
Definition lookup_l1_cache (now : Z) (c : TranslationCache) (addr block_hash : Z)
    : option EnhancedTranslationEntry * TranslationCache :=
  match split_first (same_block addr block_hash) (l1_cache c) with
  | Some (pre, it, post) =>
      (Some it,
       mkCache (cache_directory c) (touch now it :: pre ++ post) (binary_cache_map c)
               (l1_hits c + 1) (l2_hits c) (misses c))
  | None => (None, c)
  end.

(** *** Tier 2 *)

(** The [for] loop of [save_l2_cache] that writes the entry table; carries
    [current_arm_offset]. *)
Fixpoint write_entries (now : Z) (entries : list EnhancedTranslationEntry)
    (current_arm_offset : Z) : list Z :=
  match entries with
  | [] => []
  | entry :: rest =>
      make_file_entry (x86_addr entry) (u32 (x86_size entry)) (x86_hash entry)
                      current_arm_offset (u32 (arm_size entry)) (access_count entry)
                      now (flags entry)
      ++ write_entries now rest (u64 (current_arm_offset + arm_size entry))
  end.

(** [save_l2_cache]: the stream is opened with truncation and written front
    to back, so the file becomes header, entry table, ARM code. *)
Definition save_l2_cache (now : Z) (disk : gmap string (list Z)) (cache_file : string)
    (entries : list EnhancedTranslationEntry) (arm_code : list Z) (x86_hash : Z)
    : bool * gmap string (list Z) :=
  let header := make_header CACHE_MAGIC CACHE_VERSION (u32 (Z.of_nat (length entries)))
                            x86_hash now now 0 in
  (true, <[cache_file := header ++ write_entries now entries 0 ++ arm_code]> disk).

(** The in-memory entry built from an on-disk record (both [load_l2_cache]
    and [lookup_l2_cache] build it this way; the time point is kept as the
    count it is made from). *)
Definition entry_of_file_entry (it : list Z) : EnhancedTranslationEntry :=
  mkEntry (fe_x86_addr it) 0 (fe_x86_size it) (fe_arm_size it) (fe_x86_hash it)
          (fe_last_execution it) (fe_execution_count it) (10 <? fe_execution_count it)
          (fe_flags it).

(** The header as [file.read(&header, sizeof(header))] delivers it from a
    file just opened. *)
Definition header_of (bytes : list Z) : list Z := fst (read 64 (mkIn bytes 0 false)).

(** [header.magic != CACHE_MAGIC || header.version != CACHE_VERSION] *)
Definition header_invalid (header : list Z) : bool :=
  negb (hdr_magic header =? CACHE_MAGIC) || negb (hdr_version header =? CACHE_VERSION).

(** [lookup_l2_cache]: on a hit, the entry and the ARM code read from the
    file; in every case the cache (for [l2_hits]) and the disk afterwards. *)
Definition lookup_l2_cache (now : Z) (c : TranslationCache) (disk : gmap string (list Z))
    (cache_file : string) (addr block_hash : Z)
    : option (EnhancedTranslationEntry * list Z) * TranslationCache * gmap string (list Z) :=
  match open_in disk cache_file with
  | None => (None, c, disk)
  | Some file =>
      let '(header, file) := read 64 file in
      if header_invalid header then (None, c, disk)
      else
        let count := Z.to_nat (hdr_entry_count header) in
        let '(raw, file) := read (count * 64) file in
        let entries := file_entries count raw in
        match split_first (fun e => (fe_x86_addr e =? addr) && (fe_x86_hash e =? block_hash))
                          entries with
        | None => (None, c, disk)
        | Some (pre, it, _) =>
            let data_start := 64 + hdr_entry_count header * 64 in
            let arm_offset := u64 (data_start + fe_arm_offset it) in
            let file := seekg (Z.to_nat arm_offset) file in
            let '(arm_code, file) := read (Z.to_nat (fe_arm_size it)) file in
            let result := entry_of_file_entry it in
            let c := mkCache (cache_directory c) (l1_cache c) (binary_cache_map c)
                             (l1_hits c) (l2_hits c + 1) (misses c) in
            let it := set_field it 36 4 (u32 (fe_execution_count it + 1)) in
            let it := set_field it 40 8 now in
            let header := set_field header 40 4 (u32 (hdr_hit_count header + 1)) in
            let header := set_field header 32 8 (fe_last_execution it) in
            (* update_file: opened in | out, so only if the file exists *)
            let disk :=
              match disk !! cache_file with
              | Some bytes =>
                  <[cache_file := write_at (write_at bytes 0 header)
                                           (64 + length pre * 64) it]> disk
              | None => disk
              end in
            (Some (result, arm_code), c, disk)
        end
  end.

(** [total_arm_size = max(total_arm_size, arm_offset + arm_size)] over the
    table. *)
Definition total_arm_size (entries : list (list Z)) : Z :=
  fold_left (fun total e => Z.max total (u64 (fe_arm_offset e + fe_arm_size e))) entries 0.

(** [load_l2_cache].  The source rewrites the header through the stream it
    has read from; the model applies that write to the file. *)
Definition load_l2_cache (now : Z) (disk : gmap string (list Z)) (cache_file : string)
    (expected_hash : Z)
    : option (list EnhancedTranslationEntry * list Z) * gmap string (list Z) :=
  match open_in disk cache_file with
  | None => (None, disk)
  | Some file =>
      let '(header, file) := read 64 file in
      if header_invalid header then (None, disk)
      else if negb (expected_hash =? 0) && negb (hdr_x86_hash header =? expected_hash)
      then (None, disk)
      else
        let count := Z.to_nat (hdr_entry_count header) in
        let '(raw, file) := read (count * 64) file in
        let file_entries := file_entries count raw in
        let '(arm_code, file) := read (Z.to_nat (total_arm_size file_entries)) file in
        let entries := map entry_of_file_entry file_entries in
        let header := set_field header 40 4 (u32 (hdr_hit_count header + 1)) in
        let header := set_field header 32 8 now in
        (Some (entries, arm_code), <[cache_file := write_at (content file) 0 header]> disk)
  end.

(** *** The public interface *)

(** [ss << std::hex << hash] *)
Definition hex_of (x : Z) : string :=
  match x with
  | Zpos p => HexString.Raw.of_pos p ""
  | _ => "0"
  end.

(** [generate_binary_id]: the hash in hexadecimal, an underscore, the clock
    count in decimal. *)
Definition generate_binary_id (now : Z) (binary : list Z) : string :=
  hex_of (XXHash.XXH64 binary 0) +:+ "_" +:+ pretty now.

Definition hash_block (code : list Z) : Z := XXHash.XXH64 code 0.

Definition initialize_for_binary (now : Z) (c : TranslationCache) (binary : list Z)
    : string * TranslationCache :=
  let binary_id := generate_binary_id now binary in
  let cache_file := cache_directory c +:+ "/" +:+ binary_id +:+ ".cache" in
  (binary_id,
   mkCache (cache_directory c) (l1_cache c) (<[binary_id := cache_file]> (binary_cache_map c))
           (l1_hits c) (l2_hits c) (misses c)).

(** [entry] is meaningful only when [found]. *)
Record CacheLookupResult := mkResult {
  level : CacheLevel;
  entry : option EnhancedTranslationEntry;
  found : bool
}.

(** [lookup]: the result, the ARM code handed back through [arm_code]
    (filled on a tier-2 hit only), the cache and the disk afterwards. *)
Definition lookup (now : Z) (c : TranslationCache) (disk : gmap string (list Z))
    (binary_id : string) (addr : Z) (x86_code : list Z)
    : CacheLookupResult * list Z * TranslationCache * gmap string (list Z) :=
  let block_hash := hash_block x86_code in
  match lookup_l1_cache now c addr block_hash with
  | (Some e, c) => (mkResult L1_MEMORY (Some e) true, [], c, disk)
  | (None, c) =>
      let miss :=
        (mkResult NOT_FOUND None false, [],
         mkCache (cache_directory c) (l1_cache c) (binary_cache_map c)
                 (l1_hits c) (l2_hits c) (misses c + 1), disk) in
      match binary_cache_map c !! binary_id with
      | Some cache_file =>
          match lookup_l2_cache now c disk cache_file addr block_hash with
          | (Some (e, arm_code), c, disk) =>
              (mkResult L2_PERSISTENT (Some e) true, arm_code,
               with_l1 c (save_to_l1_cache now (l1_cache c) e), disk)
          | (None, _, _) => miss
          end
      | None => miss
      end
  end.

(** [store]; [schedule_l2_write] has an empty body. *)
Definition store (now : Z) (c : TranslationCache) (binary_id : string) (addr : Z)
    (x86_code : list Z) (arm_addr : Z) (arm_code : list Z) : TranslationCache :=
  let block_hash := hash_block x86_code in
  let entry := mkEntry addr arm_addr (Z.of_nat (length x86_code)) (Z.of_nat (length arm_code))
                       block_hash now 1 false 0 in
  with_l1 c (save_to_l1_cache now (l1_cache c) entry).

(** [checkpoint]; the binary hash written is the placeholder
    [XXH64(nullptr, 0, 0)]. *)
Definition checkpoint (now : Z) (c : TranslationCache) (disk : gmap string (list Z))
    (binary_id : string) (full_arm_code : list Z) : gmap string (list Z) :=
  match binary_cache_map c !! binary_id with
  | None => disk
  | Some cache_file =>
      snd (save_l2_cache now disk cache_file (l1_cache c) full_arm_code (XXHash.XXH64 [] 0))
  end.

Definition clear (c : TranslationCache) : TranslationCache :=
  mkCache (cache_directory c) [] (binary_cache_map c) 0 0 0.

(** [TranslationCache(cache_dir)] *)
Definition new_cache (cache_dir : string) : TranslationCache :=
  mkCache cache_dir [] ∅ 0 0 0.

(** One call of [store]: the clock reading, the guest address, the guest
    bytes, the host address and the host bytes. *)
Record store_call := mkStore {
  st_now : Z;
  st_addr : Z;
  st_x86_code : list Z;
  st_arm_addr : Z;
  st_arm_code : list Z
}.

(** The tier-1 key [store] files a call under. *)
Definition store_key (s : store_call) : Z * Z := (st_addr s, hash_block (st_x86_code s)).

(** The tier-1 entry [store] creates for a call. *)
Definition stored_entry (s : store_call) : EnhancedTranslationEntry :=
  mkEntry (st_addr s) (st_arm_addr s) (Z.of_nat (length (st_x86_code s)))
          (Z.of_nat (length (st_arm_code s))) (hash_block (st_x86_code s))
          (st_now s) 1 false 0.

(** A sequence of calls of [store], in order. *)
Definition store_all (c : TranslationCache) (binary_id : string) (calls : list store_call)
    : TranslationCache :=
  fold_left (fun c s => store (st_now s) c binary_id (st_addr s) (st_x86_code s)
                              (st_arm_addr s) (st_arm_code s))
            calls c.

(** The invariant of the data model: [hot == (access_counter > 10)]. *)
Definition hot_consistent (e : EnhancedTranslationEntry) : Prop :=
  is_hot e = (10 <? access_count e).

End Cache.

(** ** The persistence engine ([cache-persistence.h])

    Two threads share the job queue: the foreground thread, which calls
    [queue_write] and [flush], and the worker.  Every access to the queue
    happens with [queue_mutex] held, so the model has one atomic step per
    critical section and one for what the worker does to a job after it has
    released the mutex.  An execution is a schedule: the list of the threads
    that take the successive steps. *)

Module Persistence.
Import Word.

(** [std::function<void(bool)>]: empty, the lambda [flush] builds around its
    promise, or a callback of the caller. *)
Inductive callback_t :=
  | no_callback
  | set_promise (p : nat)
  | user_callback (id : nat).

Record WriteCacheJob := mkJob {
  cache_file : string;
  data : list Z;
  offset : Z;
  callback : callback_t
}.

(** Where the worker is in [worker_function]. *)
Inductive worker_state :=
  | at_loop_head                     (* about to test the loop condition and wait *)
  | holding (job : WriteCacheJob)    (* job popped, mutex released, job not yet processed *)
  | exited.

Record PersistenceManager := mkManager {
  job_queue : list WriteCacheJob;    (* front first *)
  worker : worker_state;
  should_terminate : bool;
  completed_jobs : Z;
  failed_jobs : Z;
  fulfilled : list nat;              (* promises whose value has been set *)
  called_back : list (nat * bool)    (* caller callbacks invoked, latest first *)
}.

(** [write_to_file]: with [offset > 0] the file is opened for update (and
    created when it is not there), otherwise it is truncated; then
    [seekp(offset)] and [write].  Opening and writing succeed in the model. *)
Definition write_to_file (disk : gmap string (list Z)) (filename : string)
    (data : list Z) (offset : Z) : bool * gmap string (list Z) :=
  let old :=
    if 0 <? offset then
      match disk !! filename with
      | Some bytes => bytes
      | None => []
      end
    else [] in
  (true, <[filename := Cache.write_at old (Z.to_nat offset) data]> disk).

(** The critical section at the head of the worker loop: leave when
    [should_terminate] is set, otherwise wait for a job and pop it.  [None]
    when the worker is blocked in [condition.wait]. *)
Definition worker_take (m : PersistenceManager) : option PersistenceManager :=
  if should_terminate m then
    Some (mkManager (job_queue m) exited true (completed_jobs m) (failed_jobs m)
                    (fulfilled m) (called_back m))
  else
    match job_queue m with
    | job :: rest =>
        Some (mkManager rest (holding job) false (completed_jobs m) (failed_jobs m)
                        (fulfilled m) (called_back m))
    | [] => None
    end.

(** [job.callback(success)] *)
Definition fire (cb : callback_t) (success : bool) (m : PersistenceManager)
    : PersistenceManager :=
  match cb with
  | no_callback => m
  | set_promise p =>
      mkManager (job_queue m) (worker m) (should_terminate m) (completed_jobs m)
                (failed_jobs m) (p :: fulfilled m) (called_back m)
  | user_callback id =>
      mkManager (job_queue m) (worker m) (should_terminate m) (completed_jobs m)
                (failed_jobs m) (fulfilled m) ((id, success) :: called_back m)
  end.

(** "Processa il job": everything, the callback included, sits inside
    [if (!job.cache_file.empty())].  (The hourly maintenance that follows is
    left out: no hour passes in the executions considered.) *)
Definition worker_process (job : WriteCacheJob) (m : PersistenceManager)
    (disk : gmap string (list Z)) : PersistenceManager * gmap string (list Z) :=
  let m := mkManager (job_queue m) at_loop_head (should_terminate m) (completed_jobs m)
                     (failed_jobs m) (fulfilled m) (called_back m) in
  if String.eqb (cache_file job) "" then (m, disk)
  else
    let '(success, disk) := write_to_file disk (cache_file job) (data job) (offset job) in
    let m := mkManager (job_queue m) (worker m) (should_terminate m)
                       (if success then completed_jobs m + 1 else completed_jobs m)
                       (if success then failed_jobs m else failed_jobs m + 1)
                       (fulfilled m) (called_back m) in
    (fire (callback job) success m, disk).

(** [queue_write] *)
Definition queue_write (m : PersistenceManager) (file : string) (bytes : list Z)
    (off : Z) (cb : callback_t) : PersistenceManager :=
  mkManager (job_queue m ++ [mkJob file bytes off cb]) (worker m) (should_terminate m)
            (completed_jobs m) (failed_jobs m) (fulfilled m) (called_back m).

(** The critical section of [flush]: return at once when the queue is empty
    ([None]), otherwise push the job that completes promise [p] and go on to
    wait for it ([Some p]). *)
Definition flush_enter (m : PersistenceManager) (p : nat)
    : option nat * PersistenceManager :=
  match job_queue m with
  | [] => (None, m)
  | _ :: _ =>
      (Some p,
       mkManager (job_queue m ++ [mkJob "" [] 0 (set_promise p)]) (worker m)
                 (should_terminate m) (completed_jobs m) (failed_jobs m)
                 (fulfilled m) (called_back m))
  end.

(** *** Executions *)

(** What the foreground thread does. *)
Inductive client_op :=
  | do_queue_write (file : string) (bytes : list Z) (off : Z) (cb : callback_t)
  | do_flush
  | do_read (file : string).

Record system := mkSystem {
  manager : PersistenceManager;
  disk : gmap string (list Z);
  program : list client_op;            (* what the foreground thread has still to do *)
  awaiting : option nat;               (* inside [flush]: the promise waited for *)
  next_promise : nat;
  observed : list (option (list Z))    (* what the reads returned, latest first *)
}.

Inductive thread := Client | Worker.

(** One step of the foreground thread; [None] when it is blocked in
    [done_future.wait()] or has nothing left to do. *)
Definition client_step (s : system) : option system :=
  match awaiting s with
  | Some p =>
      if existsb (Nat.eqb p) (fulfilled (manager s))
      then Some (mkSystem (manager s) (disk s) (program s) None (next_promise s) (observed s))
      else None
  | None =>
      match program s with
      | [] => None
      | do_queue_write file bytes off cb :: rest =>
          Some (mkSystem (queue_write (manager s) file bytes off cb) (disk s) rest None
                         (next_promise s) (observed s))
      | do_flush :: rest =>
          let '(w, m) := flush_enter (manager s) (next_promise s) in
          Some (mkSystem m (disk s) rest w (S (next_promise s)) (observed s))
      | do_read file :: rest =>
          Some (mkSystem (manager s) (disk s) rest None (next_promise s)
                         (disk s !! file :: observed s))
      end
  end.

(** One step of the worker; [None] when it is blocked or has exited. *)
Definition worker_step (s : system) : option system :=
  match worker (manager s) with
  | at_loop_head =>
      match worker_take (manager s) with
      | Some m => Some (mkSystem m (disk s) (program s) (awaiting s) (next_promise s) (observed s))
      | None => None
      end
  | holding job =>
      let '(m, d) := worker_process job (manager s) (disk s) in
      Some (mkSystem m d (program s) (awaiting s) (next_promise s) (observed s))
  | exited => None
  end.

Definition step (t : thread) (s : system) : option system :=
  match t with
  | Client => client_step s
  | Worker => worker_step s
  end.

(** Run a schedule; [None] if it asks a blocked thread to step. *)
Fixpoint run (schedule : list thread) (s : system) : option system :=
  match schedule with
  | [] => Some s
  | t :: schedule' =>
      match step t s with
      | Some s' => run schedule' s'
      | None => None
      end
  end.

(** [PersistenceManager(cache_dir)] with the worker started, and a
    foreground thread about to run [prog]. *)
Definition start (d : gmap string (list Z)) (prog : list client_op) : system :=
  mkSystem (mkManager [] at_loop_head false 0 0 [] []) d prog None 0 [].

(** A callback the caller of [queue_write] can pass: anything but the
    lambda private to [flush]. *)
Definition caller_callback (cb : callback_t) : bool :=
  match cb with
  | set_promise _ => false
  | _ => true
  end.

Definition caller_op (op : client_op) : bool :=
  match op with
  | do_queue_write _ _ _ cb => caller_callback cb
  | _ => true
  end.

(** The foreground thread has run its whole program and is not waiting. *)
Definition finished (s : system) : bool :=
  match program s, awaiting s with
  | [], None => true
  | _, _ => false
  end.

(** A job that carries the lambda of [flush] has no file name. *)
Definition sentinel_ok (job : WriteCacheJob) : Prop :=
  caller_callback (callback job) = false -> cache_file job = "".

Definition worker_ok (w : worker_state) : Prop :=
  match w with
  | holding job => sentinel_ok job
  | _ => True
  end.

(** No promise has been fulfilled, and only [flush] has queued jobs that
    could fulfil one. *)
Record no_promise_kept (s : system) : Prop := {
  npk_fulfilled : fulfilled (manager s) = [];
  npk_queue : Forall sentinel_ok (job_queue (manager s));
  npk_worker : worker_ok (worker (manager s));
  npk_program : forallb caller_op (program s) = true
}.

End Persistence.

(** ** Sample runs *)

Module Samples.
Import Cache.

(** The host code of the seeded rules as bytes: NOP, and RET's two words. *)
Definition nop_bytes : list Z := [0x1F; 0x20; 0x03; 0xD5].
Definition ret_bytes : list Z := [0xE0; 0x07; 0x41; 0xF8; 0xC0; 0x03; 0x5F; 0xD6].

(** The [i]-th of a run of stores of one-instruction blocks at addresses 16
    bytes apart, each with its host code at the next free arena offset. *)
Definition sample_store (i : nat) : store_call :=
  mkStore (Z.of_nat i) (0x1000 + 16 * Z.of_nat i) [0xC3] (8 * Z.of_nat i) ret_bytes.

Definition sample_calls : list store_call := map sample_store (seq 0 1030).

(** A hundred bytes, cut into chunks of 3, 50, 0 and 47 bytes. *)
Definition sample_message : list Z := map Z.of_nat (seq 0 100).
Definition sample_chunks : list (list Z) :=
  [ firstn 3 sample_message; firstn 50 (skipn 3 sample_message); [];
    skipn 53 sample_message ].

(** Two blocks as the facade produces them: block A, [NOP; RET], translated
    first into arena offset 0 (12 bytes), and block B, [RET], translated next
    into arena offset 12 (8 bytes).  The facade hands [store] the address of
    the host code; addresses here are arena offsets. *)
Definition block_a : list Z := [0x90; 0xC3].
Definition block_b : list Z := [0xC3].
Definition host_a : list Z := nop_bytes ++ ret_bytes.
Definition host_b : list Z := ret_bytes.

(** [arm_memory] of a translator built with a 32-byte arena, after the two
    translations. *)
Definition arena : list Z := host_a ++ host_b ++ repeat 0 12.

(** [initialize_for_binary] on a fresh cache. *)
Definition binary_id : string :=
  fst (initialize_for_binary 1000 (new_cache "./cache") (block_a ++ block_b)).
Definition cache_0 : TranslationCache :=
  snd (initialize_for_binary 1000 (new_cache "./cache") (block_a ++ block_b)).

(** Both blocks stored, in translation order. *)
Definition cache_ab : TranslationCache :=
  store 1002 (store 1001 cache_0 binary_id 0x1000 block_a 0 host_a)
        binary_id 0x1010 block_b 12 host_b.

Definition stored_entry_a : EnhancedTranslationEntry :=
  stored_entry (mkStore 1001 0x1000 block_a 0 host_a).
Definition stored_entry_b : EnhancedTranslationEntry :=
  stored_entry (mkStore 1002 0x1010 block_b 12 host_b).

(** [checkpoint] with the arena. *)
Definition disk_ab : gmap string (list Z) := checkpoint 1003 cache_ab ∅ binary_id arena.

(** [n] lookups of block A in a row, at successive clock readings. *)
Fixpoint lookups_a (n : nat) (now : Z) (c : TranslationCache) (disk : gmap string (list Z))
    : TranslationCache * gmap string (list Z) :=
  match n with
  | O => (c, disk)
  | S n' =>
      let '(_, _, c, disk) := lookup now c disk binary_id 0x1000 block_a in
      lookups_a n' (now + 1) c disk
  end.

(** Block A stored and then found in tier 1 ten times: eleven accesses. *)
Definition cache_hot : TranslationCache :=
  fst (lookups_a 10 1002 (store 1001 cache_0 binary_id 0x1000 block_a 0 host_a) ∅).

Definition disk_hot : gmap string (list Z) := checkpoint 1020 cache_hot ∅ binary_id arena.

(** The file the checkpoint wrote, and the same with the first byte of its
    magic changed. *)
Definition path_ab : string := "./cache/" +:+ binary_id +:+ ".cache".
Definition file_ab : list Z :=
  match disk_ab !! path_ab with
  | Some bytes => bytes
  | None => []
  end.
Definition corrupt_file : list Z := 0 :: tl file_ab.

(** The function prologue of the fuzzy-match scenario, held at guest
    address [0x1000], and a second copy with other bytes in the masked
    positions at [0x2000]. *)
Definition reference_1 : list Z := [0x55; 0x48; 0x89; 0xE5; 0x00; 0x00; 0x00; 0x00; 0xC3].
Definition reference_2 : list Z := [0x55; 0x48; 0x89; 0xE5; 0x11; 0x11; 0x11; 0x11; 0xC3].
Definition prologue_mask : list Z := [1; 1; 1; 1; 0; 0; 0; 0; 1].

Definition sample_memory (a : Z) : Z :=
  if (0x1000 <=? a) && (a <? 0x1009) then Word.byte_at reference_1 (a - 0x1000)
  else if (0x2000 <=? a) && (a <? 0x2009) then Word.byte_at reference_2 (a - 0x2000)
  else 0.

(** [0.8f]: the binary32 number nearest to 0.8, 13421773 * 2^-24. *)
Definition float_0_8 : spec_float := S754_finite false 13421773 (-24).

Definition signature_1 : Signatures.BlockSignature :=
  Signatures.create_signature reference_1 Signatures.FUNCTION 0x1000 prologue_mask float_0_8.
Definition signature_2 : Signatures.BlockSignature :=
  Signatures.create_signature reference_2 Signatures.FUNCTION 0x2000 prologue_mask float_0_8.

Definition one_signature : Signatures.signature_table :=
  Signatures.add_signature [] signature_1.
Definition two_signatures : Signatures.signature_table :=
  Signatures.add_signature (Signatures.add_signature [] signature_1) signature_2.

(** The flush-ordering scenario: writes A = "a" and B = "b" at offset 0 of
    one file, then [flush], then a read of the file. *)
Definition flush_file : string := "cache/flush.cache".
Definition write_a_b_flush_read : list Persistence.client_op :=
  [ Persistence.do_queue_write flush_file [0x61] 0 Persistence.no_callback;
    Persistence.do_queue_write flush_file [0x62] 0 Persistence.no_callback;
    Persistence.do_flush;
    Persistence.do_read flush_file ].

(** Both writes are queued; the worker pops A, writes it and pops B; then
    the foreground thread calls [flush] and reads. *)
Definition early_flush_schedule : list Persistence.thread :=
  [ Persistence.Client; Persistence.Client;
    Persistence.Worker; Persistence.Worker; Persistence.Worker;
    Persistence.Client; Persistence.Client ].

(** Both writes are queued and [flush] is called before the worker runs. *)
Definition late_flush_schedule : list Persistence.thread :=
  [ Persistence.Client; Persistence.Client; Persistence.Client;
    Persistence.Worker; Persistence.Worker; Persistence.Worker; Persistence.Worker;
    Persistence.Worker; Persistence.Worker ].

(** All five significant bytes equal, and four of the five. *)
Definition query_equal : list Z := [0x55; 0x48; 0x89; 0xE5; 0xDE; 0xAD; 0xBE; 0xEF; 0xC3].
Definition query_four_of_five : list Z :=
  [0x55; 0x48; 0x89; 0xE4; 0xDE; 0xAD; 0xBE; 0xEF; 0xC3].

End Samples.

(** ** The block translator, the flat cache and the register file
    ([mini-rosetta-translator.h]) *)

Module TranslatorBlock.
Import Word Translator.

Section Block.

Variable x86_defs : gmap Z X86InstructionDef.
Variable translation_rules : list TranslationRule.

(** The [for] loop that copies the words of one instruction: a word is
    stored only while [arm_offset < max_arm_inst].  [arm_code] is the list
    of the words stored so far, so [arm_offset] is its length. *)
Fixpoint copy_words (arm_instructions : list Z) (max_arm_inst : Z) (arm_code : list Z)
    : list Z :=
  match arm_instructions with
  | [] => arm_code
  | word :: rest =>
      if Z.of_nat (length arm_code) <? max_arm_inst
      then copy_words rest max_arm_inst (arm_code ++ [word])
      else copy_words rest max_arm_inst arm_code
  end.

(** The [while (x86_offset < x86_size && arm_offset < max_arm_inst)] loop of
    [translate_x86_block]; one unit of fuel per iteration. *)
Fixpoint translate_loop (fuel : nat) (x86_code : list Z) (x86_size max_arm_inst : Z)
    (x86_offset : Z) (arm_code : list Z) : list Z :=
  match fuel with
  | O => arm_code
  | S fuel' =>
      if (x86_offset <? x86_size) && (Z.of_nat (length arm_code) <? max_arm_inst) then
        let inst := decode_x86_instruction x86_defs x86_code x86_offset x86_size in
        if inst_length inst =? 0 then arm_code
        else
          let arm_instructions := translate_x86_instruction translation_rules inst in
          let arm_code := copy_words arm_instructions max_arm_inst arm_code in
          translate_loop fuel' x86_code x86_size max_arm_inst
                         (x86_offset + inst_length inst) arm_code
      else arm_code
  end.

(** [translate_x86_block]: the words stored into [arm_code]; the function's
    return value [arm_offset] is their number.  Every iteration advances
    [x86_offset], so [x86_size] iterations are enough. *)
Definition translate_x86_block (x86_code : list Z) (x86_size max_arm_inst : Z) : list Z :=
  translate_loop (Z.to_nat x86_size) x86_code x86_size max_arm_inst 0 [].

(** The instructions met when decoding repeatedly from [offset] to the end
    of the block. *)
Fixpoint decode_from (fuel : nat) (x86_code : list Z) (x86_size offset : Z)
    : list X86DecodedInst :=
  match fuel with
  | O => []
  | S fuel' =>
      if offset <? x86_size then
        let inst := decode_x86_instruction x86_defs x86_code offset x86_size in
        if inst_length inst =? 0 then []
        else inst :: decode_from fuel' x86_code x86_size (offset + inst_length inst)
      else []
  end.

Definition decoded_block (x86_code : list Z) (x86_size : Z) : list X86DecodedInst :=
  decode_from (Z.to_nat x86_size) x86_code x86_size 0.

End Block.

(** The guest bytes a list of decoded instructions spans. *)
Fixpoint total_length (insts : list X86DecodedInst) : Z :=
  match insts with
  | [] => 0
  | inst :: rest => inst_length inst + total_length rest
  end.

(** *** The flat translation cache of [Translator] *)

Record TranslationEntry := mkTranslation {
  te_x86_addr : Z;
  te_arm_addr : Z;
  te_length : Z
}.

Definition MAX_CACHE_ENTRIES : Z := 1024.

(** [find_in_cache]: the first entry for the address, [None] for [nullptr]. *)
Fixpoint find_in_cache (translation_cache : list TranslationEntry) (x86_addr : Z)
    : option TranslationEntry :=
  match translation_cache with
  | [] => None
  | entry :: rest =>
      if te_x86_addr entry =? x86_addr then Some entry else find_in_cache rest x86_addr
  end.

(** [add_to_cache]: at capacity [erase(begin())], then [push_back]. *)
Definition add_to_cache (translation_cache : list TranslationEntry)
    (x86_addr arm_addr length : Z) : list TranslationEntry :=
  let translation_cache :=
    if MAX_CACHE_ENTRIES <=? Z.of_nat (List.length translation_cache)
    then tl translation_cache
    else translation_cache in
  translation_cache ++ [mkTranslation x86_addr arm_addr length].

(** *** [CPUState] *)

Record CPUState := mkCPU {
  rax : Z; rbx : Z; rcx : Z; rdx : Z;
  rsi : Z; rdi : Z; rbp : Z; rsp : Z;
  r8 : Z; r9 : Z; r10 : Z; r11 : Z; r12 : Z; r13 : Z; r14 : Z; r15 : Z;
  rip : Z;
  rflags : Z;
  x : list Z;              (* x0-x30 *)
  sp : Z; pc : Z;
  cpsr : Z;
  xmm : list (Z * Z);      (* 16 registers of two 64-bit halves *)
  neon : list (Z * Z)      (* 32 registers *)
}.

(** [dst[i] = src[i]] for [i] from [first] on, [count] times. *)
Fixpoint copy_registers (count : nat) (first : nat) (src dst : list (Z * Z))
    : list (Z * Z) :=
  match count with
  | O => dst
  | S count' =>
      copy_registers count' (S first) src (<[first := nth first src (0, 0)]> dst)
  end.

(** [x &= ~bit] on [uint64_t], the mask being the [int] [~bit] widened. *)
Definition clear_bits (x bit : Z) : Z := Z.land x (u64 (Z.lnot bit)).

Definition map_x86_to_arm (s : CPUState) : CPUState :=
  let x :=
    <[15%nat := r15 s]> (<[14%nat := r14 s]> (<[13%nat := r13 s]> (<[12%nat := r12 s]>
    (<[11%nat := r11 s]> (<[10%nat := r10 s]> (<[9%nat := r9 s]> (<[8%nat := r8 s]>
    (<[6%nat := rbp s]> (<[5%nat := rdi s]> (<[4%nat := rsi s]> (<[3%nat := rdx s]>
    (<[2%nat := rcx s]> (<[1%nat := rbx s]> (<[0%nat := rax s]> (x s))))))))))))))) in
  let cpsr :=
    if negb (Z.land (rflags s) 0x40 =? 0) then Z.lor (cpsr s) 0x40000000
    else clear_bits (cpsr s) 0x40000000 in
  mkCPU (rax s) (rbx s) (rcx s) (rdx s) (rsi s) (rdi s) (rbp s) (rsp s)
        (r8 s) (r9 s) (r10 s) (r11 s) (r12 s) (r13 s) (r14 s) (r15 s)
        (rip s) (rflags s) x (rsp s) (pc s) cpsr (xmm s)
        (copy_registers 16 0 (xmm s) (neon s)).

Definition map_arm_to_x86 (s : CPUState) : CPUState :=
  let reg i := nth i (x s) 0 in
  let rflags :=
    if negb (Z.land (cpsr s) 0x40000000 =? 0) then Z.lor (rflags s) 0x40
    else clear_bits (rflags s) 0x40 in
  mkCPU (reg 0%nat) (reg 1%nat) (reg 2%nat) (reg 3%nat) (reg 4%nat) (reg 5%nat)
        (reg 6%nat) (sp s)
        (reg 8%nat) (reg 9%nat) (reg 10%nat) (reg 11%nat) (reg 12%nat) (reg 13%nat)
        (reg 14%nat) (reg 15%nat)
        (rip s) rflags (x s) (sp s) (pc s) (cpsr s)
        (copy_registers 16 0 (neon s) (xmm s)) (neon s).

(** The register arrays have their declared sizes and the flag words are
    64-bit. *)
Record cpu_state_ok (s : CPUState) : Prop := {
  ok_x : length (x s) = 31%nat;
  ok_xmm : length (xmm s) = 16%nat;
  ok_neon : length (neon s) = 32%nat;
  ok_rflags : 0 <= rflags s < 2 ^ 64;
  ok_cpsr : 0 <= cpsr s < 2 ^ 64
}.

End TranslatorBlock.

(** ** Mask generation, pattern mining and the static analyser
    ([cache-signatures.h]) *)

Module SignatureTools.
Import Word Signatures.

(** [0.9f] and [0.85f]: the binary32 numbers nearest to 0.9 and 0.85. *)
Definition float_0_9 : spec_float := S754_finite false 15099494 (-24).
Definition float_0_85 : spec_float := S754_finite false 14260634 (-24).

(** The inner [for] loop of [generate_mask]:
    [if (reference[j] != variant[j]) mask[j] = 0], for vectors of one size. *)
Fixpoint mark_differences (reference variant mask : list Z) : list Z :=
  match reference, variant, mask with
  | r :: reference', v :: variant', m :: mask' =>
      (if negb (r =? v) then 0 else m) :: mark_differences reference' variant' mask'
  | _, _, _ => mask
  end.

(** The outer loop, over the variants after the first. *)
Fixpoint mask_variants (reference : list Z) (variants : list (list Z)) (mask : list Z)
    : list Z :=
  match variants with
  | [] => mask
  | variant :: rest =>
      if negb (length variant =? length reference)%nat
      then repeat 0 (length reference)
      else mask_variants reference rest (mark_differences reference variant mask)
  end.

Definition generate_mask (code_variants : list (list Z)) : list Z :=
  match code_variants with
  | [] => []
  | reference :: rest => mask_variants reference rest (repeat 1 (length reference))
  end.

(** [std::vector<uint8_t>(v.begin() + start, v.begin() + start + len)] *)
Definition slice (v : list Z) (start len : nat) : list Z := firstn len (skipn start v).

(** The comparison loop of [identify_patterns], over [pattern_len] bytes. *)
Fixpoint bytes_match (pattern other_pattern : list Z) : bool :=
  match pattern, other_pattern with
  | p :: pattern', o :: other' => if negb (p =? o) then false else bytes_match pattern' other'
  | _, _ => true
  end.

(** The occurrences of [pattern] collected from one other block: one for
    every [other_start] with [other_start + pattern_len <= other_block.size()]
    at which the bytes match. *)
Definition occurrences_in (pattern : list Z) (pattern_len : nat) (other_block : list Z)
    : list (list Z) :=
  List.filter (bytes_match pattern)
              (map (fun other_start => slice other_block other_start pattern_len)
                   (seq 0 (S (length other_block) - pattern_len))).

(** The occurrences collected from all blocks but block [i]. *)
Definition other_occurrences (code_blocks : list (list Z)) (i : nat) (pattern : list Z)
    (pattern_len : nat) : list (list Z) :=
  concat (map (fun jb : nat * list Z =>
                 if (i =? fst jb)%nat then []
                 else occurrences_in pattern pattern_len (snd jb))
              (combine (seq 0 (length code_blocks)) code_blocks)).

(** The body of the innermost [for (start ...)] loop: the signature pushed
    for one pattern, if it has at least three occurrences. *)
Definition pattern_signature (code_blocks : list (list Z)) (addresses : list Z)
    (i : nat) (block : list Z) (pattern_len start : nat) : list BlockSignature :=
  let pattern := slice block start pattern_len in
  let occurrences := pattern :: other_occurrences code_blocks i pattern pattern_len in
  if (3 <=? length occurrences)%nat then
    [create_signature pattern GENERIC (u64 (nth i addresses 0 + Z.of_nat start))
                      (generate_mask occurrences) float_0_9]
  else [].

(** [identify_patterns]: pattern lengths from 16 to half the block, every
    start that leaves room for the pattern. *)
Definition identify_patterns (code_blocks : list (list Z)) (addresses : list Z)
    : list BlockSignature :=
  concat (map (fun ib : nat * list Z =>
    let i := fst ib in
    let block := snd ib in
    concat (map (fun pattern_len =>
      concat (map (pattern_signature code_blocks addresses i block pattern_len)
                  (seq 0 (S (length block) - pattern_len))))
      (seq 16 (S (length block / 2) - 16))))
    (combine (seq 0 (length code_blocks)) code_blocks)).

(** *** [X86StaticAnalyzer] *)

(** The [while (end < binary_data.size())] loop of [find_functions]: [rest]
    is the data from [end] on. *)
Fixpoint scan_for_ret (rest : list Z) (end_ : nat) : nat :=
  match rest with
  | [] => end_
  | b :: rest' => if b =? 0xC3 then S end_ else scan_for_ret rest' (S end_)
  end.

(** The body of the [for] loop of [find_functions] at index [i]. *)
Definition function_at (binary_data : list Z) (base_address : Z) (i : nat)
    : list (Z * nat) :=
  if (byte_at binary_data (Z.of_nat i) =? 0x55)
     && (byte_at binary_data (Z.of_nat i + 1) =? 0x48)
     && (byte_at binary_data (Z.of_nat i + 2) =? 0x89)
     && (byte_at binary_data (Z.of_nat i + 3) =? 0xE5)
  then
    let end_ := scan_for_ret (skipn (i + 4) binary_data) (i + 4) in
    if (i <? end_)%nat && (Z.of_nat (end_ - i) <? 10000)
    then [(u64 (base_address + Z.of_nat i), (end_ - i)%nat)]
    else []
  else [].

(** [find_functions], for data of at least three bytes (the loop bound
    [binary_data.size() - 3] is unsigned and wraps for shorter data). *)
Definition find_functions (binary_data : list Z) (base_address : Z) : list (Z * nat) :=
  concat (map (function_at binary_data base_address) (seq 0 (length binary_data - 3))).

(** [mask[i + j] = 0] for [j] from 1 to [offset_size] while [i + j] is
    inside the code. *)
Fixpoint mask_offsets (offset_size : nat) (first : nat) (size : nat) (mask : list Z)
    : list Z :=
  match offset_size with
  | O => mask
  | S rest =>
      if (first <? size)%nat then mask_offsets rest (S first) size (<[first := 0]> mask)
      else mask
  end.

(** The jump-masking loop over [i < code.size() - 1]; [todo] lists the
    indices still to visit. *)
Fixpoint mask_jumps (code : list Z) (todo : list nat) (mask : list Z) : list Z :=
  match todo with
  | [] => mask
  | i :: todo' =>
      let c := byte_at code (Z.of_nat i) in
      let short_jump := (0x70 <=? c) && (c <=? 0x7F) in
      if short_jump || (c =? 0xE8) || (c =? 0xE9) then
        let offset_size := if short_jump then 1%nat else 4%nat in
        mask_jumps code todo' (mask_offsets offset_size (S i) (length code) mask)
      else mask_jumps code todo' mask
  end.

(** The signature [analyze_and_generate_signatures] builds for one function
    found. *)
Definition function_signature (binary_data : list Z) (base_address : Z) (func : Z * nat)
    : BlockSignature :=
  let code := slice binary_data (Z.to_nat (u64 (fst func - base_address))) (snd func) in
  let mask := mask_jumps code (seq 0 (length code - 1)) (repeat 1 (length code)) in
  mkSig (XXHash.XXH64 code 0) FUNCTION (fst func) (Z.of_nat (snd func)) mask float_0_85.

(** The first loop of [analyze_and_generate_signatures]: one signature per
    function found. *)
Definition function_signatures (binary_data : list Z) (base_address : Z)
    : list BlockSignature :=
  map (function_signature binary_data base_address) (find_functions binary_data base_address).

(** *** The signature table as a map *)

(** The table holds at most one pair per key, and every signature sits
    under its own fingerprint: what [signature_db[signature.hash] = signature]
    maintains from the empty table on. *)
Definition table_ok (db : signature_table) : Prop :=
  NoDup (map fst db) /\ Forall (fun p => fst p = sig_hash (snd p)) db.

End SignatureTools.

(** ** Invariants of the two cache tiers ([cache.h]) *)

Module CacheInvariants.
Import Word Cache.

(** The key tier 1 files an entry under. *)
Definition entry_key (e : EnhancedTranslationEntry) : Z * Z := (x86_addr e, x86_hash e).

(** Tier 1 holds at most one entry per key and never more than
    [MAX_L1_CACHE_ENTRIES] entries. *)
Definition l1_ok (l1 : list EnhancedTranslationEntry) : Prop :=
  NoDup (map entry_key l1) /\ Z.of_nat (length l1) <= MAX_L1_CACHE_ENTRIES.

(** The fields of a tier-1 entry have the ranges of their C++ types, and
    the sizes fit the 32-bit fields of the on-disk record. *)
Record entry_fits (e : EnhancedTranslationEntry) : Prop := {
  fits_x86_addr : 0 <= x86_addr e < 2 ^ 64;
  fits_x86_hash : 0 <= x86_hash e < 2 ^ 64;
  fits_x86_size : 0 <= x86_size e < 2 ^ 32;
  fits_arm_size : 0 <= arm_size e < 2 ^ 32;
  fits_access_count : 0 <= access_count e < 2 ^ 32;
  fits_flags : 0 <= flags e < 2 ^ 32
}.

(** The host bytes of a run of entries. *)
Definition arm_bytes (entries : list EnhancedTranslationEntry) : Z :=
  fold_right (fun e total => arm_size e + total) 0 entries.

(** The entry a tier-2 read builds from the record [save_l2_cache] wrote for
    [e] at time [now]: the host address is not stored, and hotness is
    recomputed from the count. *)
Definition reloaded (now : Z) (e : EnhancedTranslationEntry) : EnhancedTranslationEntry :=
  mkEntry (x86_addr e) 0 (x86_size e) (arm_size e) (x86_hash e) now (access_count e)
          (10 <? access_count e) (flags e).

(** The [n] bytes at offset [off] of [bytes], zero where [bytes] has ended. *)
Definition bytes_at (bytes : list Z) (off n : nat) : list Z :=
  let got := firstn n (skipn off bytes) in
  got ++ repeat 0 (n - length got).

(** The record table [save_l2_cache] writes, record by record. *)
Fixpoint records (now : Z) (entries : list EnhancedTranslationEntry)
    (current_arm_offset : Z) : list (list Z) :=
  match entries with
  | [] => []
  | entry :: rest =>
      make_file_entry (x86_addr entry) (u32 (x86_size entry)) (x86_hash entry)
                      current_arm_offset (u32 (arm_size entry)) (access_count entry)
                      now (flags entry)
      :: records now rest (u64 (current_arm_offset + arm_size entry))
  end.

(** One [lookup] of the same block per clock reading, in order. *)
Fixpoint lookup_each (nows : list Z) (c : TranslationCache) (disk : gmap string (list Z))
    (binary_id : string) (addr : Z) (x86_code : list Z)
    : TranslationCache * gmap string (list Z) :=
  match nows with
  | [] => (c, disk)
  | now :: nows' =>
      let '(_, _, c, disk) := lookup now c disk binary_id addr x86_code in
      lookup_each nows' c disk binary_id addr x86_code
  end.

End CacheInvariants.

(** ** The order of writes ([cache-persistence.h]) *)

Module PersistenceOrder.
Import Word Persistence.

(** A job the worker acts on: one with a file name. *)
Definition named (job : WriteCacheJob) : bool := negb (String.eqb (cache_file job) "").
Definition writes (jobs : list WriteCacheJob) : list WriteCacheJob := List.filter named jobs.

(** The jobs the calls of [queue_write] in a program submit, in order. *)
Definition submitted (prog : list client_op) : list WriteCacheJob :=
  flat_map (fun op => match op with
                      | do_queue_write file bytes off cb => [mkJob file bytes off cb]
                      | _ => []
                      end) prog.

(** The job the worker has popped and not yet processed. *)
Definition in_flight (w : worker_state) : list WriteCacheJob :=
  match w with
  | holding job => [job]
  | _ => []
  end.

(** The disk after the given writes, first to last. *)
Definition apply_writes (d : gmap string (list Z)) (jobs : list WriteCacheJob)
    : gmap string (list Z) :=
  fold_left (fun d job => snd (write_to_file d (cache_file job) (data job) (offset job)))
            jobs d.

(** The callbacks of the caller that a run of processed jobs invokes. *)
Definition callbacks_of (jobs : list WriteCacheJob) : list (nat * bool) :=
  flat_map (fun job => match callback job with
                       | user_callback id => [(id, true)]
                       | _ => []
                       end) jobs.

(** The writes submitted so far are the writes done, then the one in the
    worker's hands, then those still queued; the disk holds the writes done,
    applied in submission order. *)
Record fifo (d0 : gmap string (list Z)) (prog : list client_op)
    (done : list WriteCacheJob) (executed : list client_op) (s : system) : Prop := {
  fifo_program : prog = executed ++ program s;
  fifo_order : done ++ writes (in_flight (worker (manager s)))
               ++ writes (job_queue (manager s))
               = writes (submitted executed);
  fifo_disk : disk s = apply_writes d0 done;
  fifo_completed : completed_jobs (manager s) = Z.of_nat (length done);
  fifo_failed : failed_jobs (manager s) = 0;
  fifo_callbacks : called_back (manager s) = rev (callbacks_of done)
}.

End PersistenceOrder.

(** ** More sample data *)

Module MoreSamples.
Import TranslatorBlock.

(** A flat cache of two translations. *)
Definition flat_cache_2 : list TranslationEntry :=
  [mkTranslation 0x1000 0x8000 12; mkTranslation 0x1010 0x800C 8].

(** A register file with ZF set in [rflags] and clear in [cpsr]. *)
Definition cpu_zf_set : CPUState :=
  mkCPU 1 2 3 4 5 6 7 8 9 10 11 12 13 14 15 16 0x1000 0x246
        (repeat 0 31) 0 0 0
        (map (fun i => (Z.of_nat i, Z.of_nat i + 100)) (seq 0 16))
        (repeat (0, 0) 32).

(** A function between two NOPs: the prologue, a CALL with its 32-bit
    offset, RET. *)
Definition binary_with_function : list Z :=
  [0x90; 0x55; 0x48; 0x89; 0xE5; 0xE8; 0x10; 0x00; 0x00; 0x00; 0xC3; 0x90; 0x90].

End MoreSamples.

(** ** The main loop ([mini-rosetta-translator.h]) *)

Module Driver.
Import Word Translator TranslatorBlock.

Definition TRANSLATION_BLOCK_SIZE : Z := 4096.

(** The part of a [Translator] that [run_x86_program] reads or writes; of
    [cpu_state] that is [rip] ([execute_arm_code] only prints). *)
Record TranslatorState := mkTranslator {
  cpu_rip : Z;
  x86_memory : list Z;
  arm_memory : list Z;
  translation_cache : list TranslationEntry;
  next_arm_offset : Z
}.

(** How [run_x86_program] ends.  [arm_memory_overrun] stands for a block
    whose words do not fit between [next_arm_offset] and the end of
    [arm_memory]: the source writes them without a check, and the model
    stops there. *)
Inductive ending :=
  | program_too_big
  | end_of_program
  | arm_memory_exhausted
  | arm_memory_overrun.

Section Run.

Variable x86_defs : gmap Z X86InstructionDef.
Variable translation_rules : list TranslationRule.
(** [reinterpret_cast<uint64_t>(&arm_memory[0])] *)
Variable arm_base : Z.

(** The bytes of the words [translate_x86_block] stores through [arm_inst*]. *)
Definition bytes_of_words (words : list Z) : list Z := concat (map (le_bytes 4) words).

(** The [if (!entry)] branch of the main loop: translate the block at [rip],
    enter it into the flat cache and advance [next_arm_offset]. *)
Definition translate_next_block (entry_point : Z) (t : TranslatorState)
    : ending * TranslatorState + TranslatorState :=
  let current_addr := cpu_rip t in
  let x86_block := skipn (Z.to_nat (u64 (current_addr - entry_point))) (x86_memory t) in
  let block_size := analyze_x86_block x86_defs x86_block 1024 in
  let words := translate_x86_block x86_defs translation_rules x86_block block_size
                                   (TRANSLATION_BLOCK_SIZE / 4) in
  let arm_inst_count := Z.of_nat (length words) in
  if Z.of_nat (length (arm_memory t)) <? next_arm_offset t + arm_inst_count * 4
  then inl (arm_memory_overrun, t)
  else
    let t :=
      mkTranslator (cpu_rip t) (x86_memory t)
                   (memcpy_at (arm_memory t) (Z.to_nat (next_arm_offset t))
                              (bytes_of_words words))
                   (add_to_cache (translation_cache t) current_addr
                                 (u64 (arm_base + next_arm_offset t)) (arm_inst_count * 4))
                   (next_arm_offset t + arm_inst_count * 4) in
    if Z.of_nat (length (arm_memory t)) <=? next_arm_offset t
    then inl (arm_memory_exhausted, t)
    else inr t.

(** One pass through the body of [while (1)]. *)
Definition iteration (entry_point size : Z) (t : TranslatorState)
    : ending * TranslatorState + TranslatorState :=
  let translated :=
    match find_in_cache (translation_cache t) (cpu_rip t) with
    | Some _ => inr t
    | None => translate_next_block entry_point t
    end in
  match translated with
  | inl stopped => inl stopped
  | inr t =>
      let t := mkTranslator (u64 (cpu_rip t + 16)) (x86_memory t) (arm_memory t)
                            (translation_cache t) (next_arm_offset t) in
      if u64 (entry_point + size) <=? cpu_rip t then inl (end_of_program, t) else inr t
  end.

Fixpoint main_loop (fuel : nat) (entry_point size : Z) (t : TranslatorState)
    : option (ending * TranslatorState) :=
  match fuel with
  | O => None
  | S fuel' =>
      match iteration entry_point size t with
      | inl stopped => Some stopped
      | inr t => main_loop fuel' entry_point size t
      end
  end.

(** [run_x86_program].  [rip] grows by 16 per pass, so [size / 16 + 1]
    passes are enough; [None] would mean they were not. *)
Definition run_x86_program (program : list Z) (entry_point : Z) (t : TranslatorState)
    : option (ending * TranslatorState) :=
  let size := Z.of_nat (length program) in
  if Z.of_nat (length (x86_memory t)) <? size then Some (program_too_big, t)
  else
    let t := mkTranslator entry_point (memcpy_at (x86_memory t) 0 program) (arm_memory t)
                          (translation_cache t) (next_arm_offset t) in
    main_loop (Z.to_nat (size / 16) + 1) entry_point size t.

End Run.

(** The guest address of the block the [k]-th pass of the main loop looks
    at. *)
Definition block_address (entry_point : Z) (k : nat) : Z := entry_point + 16 * Z.of_nat k.

(** The addresses a flat cache holds after [n] blocks were added to an
    empty one: those of the last [MAX_CACHE_ENTRIES] at most, oldest first. *)
Definition cached_addresses (entry_point : Z) (n : nat) : list Z :=
  map (block_address entry_point)
      (seq (n - Nat.min n (Z.to_nat MAX_CACHE_ENTRIES)) (Nat.min n (Z.to_nat MAX_CACHE_ENTRIES))).

(** The state at the head of the main loop after [k] passes. *)
Record at_pass (entry_point size : Z) (memory : list Z) (arm_size : nat) (k : nat)
    (t : TranslatorState) : Prop := {
  pass_rip : cpu_rip t = block_address entry_point k;
  pass_cache : map te_x86_addr (translation_cache t) = cached_addresses entry_point k;
  pass_x86 : x86_memory t = memory;
  pass_arm : length (arm_memory t) = arm_size;
  pass_offset : 0 <= next_arm_offset t <= 4096 * Z.of_nat k;
  pass_inside : k = 0%nat \/ 16 * Z.of_nat k < size
}.

(** The final state of a run in which [n] blocks were translated. *)
Definition run_result (entry_point size : Z) (memory : list Z) (arm_size : nat)
    (why : ending) (final : TranslatorState) (n : nat) : Prop :=
  map te_x86_addr (translation_cache final) = cached_addresses entry_point n
  /\ x86_memory final = memory
  /\ length (arm_memory final) = arm_size
  /\ 0 <= next_arm_offset final <= 4096 * Z.of_nat n
  /\ match why with
     | program_too_big => False
     | end_of_program =>
         Z.of_nat n = Z.max 1 ((size + 15) / 16)
         /\ cpu_rip final = block_address entry_point n
         /\ next_arm_offset final < Z.of_nat arm_size
     | arm_memory_exhausted =>
         Z.of_nat arm_size <= next_arm_offset final
         /\ (0 < n)%nat /\ cpu_rip final = block_address entry_point (n - 1)
     | arm_memory_overrun => cpu_rip final = block_address entry_point n
     end.

End Driver.

(** ** The saved state of [EnhancedTranslator] ([cache.h]) *)

Module SavedState.
Import Word Cache.

(** The members of [EnhancedTranslator] that [save_state] and [load_state]
    touch.  [hot_blocks] is a [std::unordered_map]: the list of its pairs in
    iteration order, with at most one pair per key. *)
Record EnhancedTranslator := mkEnhanced {
  translation_cache : TranslationCache;
  current_binary_id : string;
  arm_memory : list Z;
  hot_blocks : list (Z * Z)
}.

Fixpoint hot_find (hot : list (Z * Z)) (addr : Z) : option Z :=
  match hot with
  | [] => None
  | (k, v) :: hot' => if k =? addr then Some v else hot_find hot' addr
  end.

(** [hot_blocks[addr] = count]: assigns in place when the key is present,
    adds a pair otherwise (the model puts it first). *)
Fixpoint hot_assign (hot : list (Z * Z)) (addr count : Z) : option (list (Z * Z)) :=
  match hot with
  | [] => None
  | (k, v) :: hot' =>
      if k =? addr then Some ((k, count) :: hot')
      else match hot_assign hot' addr count with
           | Some hot'' => Some ((k, v) :: hot'')
           | None => None
           end
  end.

Definition hot_set (hot : list (Z * Z)) (addr count : Z) : list (Z * Z) :=
  match hot_assign hot addr count with
  | Some hot' => hot'
  | None => (addr, count) :: hot
  end.

(** The chars of a [std::string] as bytes, and back. *)
Definition string_bytes (s : string) : list Z :=
  map (fun a => Z.of_nat (Ascii.nat_of_ascii a)) (String.list_ascii_of_string s).
Definition bytes_string (bytes : list Z) : string :=
  String.string_of_list_ascii (map (fun b => Ascii.ascii_of_nat (Z.to_nat b)) bytes).

(** [file.write(&pair.first, 8); file.write(&pair.second, 8)] *)
Definition hot_block_bytes (pair : Z * Z) : list Z :=
  le_bytes 8 (fst pair) ++ le_bytes 8 (snd pair).

(** What [save_state] writes after the checkpoint: the length of the id as
    [uint32_t], that many chars of it, the number of hot blocks as
    [uint32_t], and every pair. *)
Definition state_bytes (t : EnhancedTranslator) : list Z :=
  let id_length := u32 (Z.of_nat (String.length (current_binary_id t))) in
  let hot_block_count := u32 (Z.of_nat (length (hot_blocks t))) in
  le_bytes 4 id_length
  ++ firstn (Z.to_nat id_length) (string_bytes (current_binary_id t))
  ++ le_bytes 4 hot_block_count
  ++ concat (map hot_block_bytes (hot_blocks t)).

(** [save_state]: [checkpoint()], then the state file, opened with
    truncation. *)
Definition save_state (now : Z) (t : EnhancedTranslator) (disk : gmap string (list Z))
    (filename : string) : gmap string (list Z) :=
  <[filename := state_bytes t]>
    (checkpoint now (translation_cache t) disk (current_binary_id t) (arm_memory t)).

(** [load_state] reads into variables it has not initialised, so a read
    that comes up short leaves it with indeterminate values: the model stops
    there. *)
Inductive load_result :=
  | loaded (t : EnhancedTranslator)
  | not_opened (t : EnhancedTranslator)
  | short_read.

(** [file.read] of [n] bytes that must all arrive. *)
Definition read_all (n : nat) (file : ifstream) : option (list Z * ifstream) :=
  let '(bytes, file') := read n file in
  if failbit file' then None else Some (bytes, file').

(** The [for] loop of [load_state]. *)
Fixpoint read_hot_blocks (count : nat) (file : ifstream) (hot : list (Z * Z))
    : option (list (Z * Z)) :=
  match count with
  | O => Some hot
  | S count' =>
      match read_all 8 file with
      | None => None
      | Some (addr, file) =>
          match read_all 8 file with
          | None => None
          | Some (n, file) =>
              read_hot_blocks count' file (hot_set hot (le_value addr) (le_value n))
          end
      end
  end.

Definition load_state (t : EnhancedTranslator) (disk : gmap string (list Z))
    (filename : string) : load_result :=
  match open_in disk filename with
  | None => not_opened t
  | Some file =>
      match read_all 4 file with
      | None => short_read
      | Some (id_length, file) =>
          match read_all (Z.to_nat (le_value id_length)) file with
          | None => short_read
          | Some (id, file) =>
              match read_all 4 file with
              | None => short_read
              | Some (hot_block_count, file) =>
                  match read_hot_blocks (Z.to_nat (le_value hot_block_count)) file [] with
                  | None => short_read
                  | Some hot =>
                      loaded (mkEnhanced (translation_cache t) (bytes_string id)
                                         (arm_memory t) hot)
                  end
              end
          end
      end
  end.

(** What the theorem asks of the state saved: the id and the table are
    shorter than 2^32, the table has one pair per key, and its numbers are
    64-bit. *)
Record state_fits (t : EnhancedTranslator) : Prop := {
  fits_id : Z.of_nat (String.length (current_binary_id t)) < 2 ^ 32;
  fits_count : Z.of_nat (length (hot_blocks t)) < 2 ^ 32;
  fits_keys : NoDup (map fst (hot_blocks t));
  fits_pairs : Forall (fun p => 0 <= fst p < 2 ^ 64 /\ 0 <= snd p < 2 ^ 64) (hot_blocks t)
}.

End SavedState.

(** * Properties *)

(** ** The hasher *)

Module XXHashFacts.
Import Word XXHash.

Lemma read64_app (p q : list Z) (k : nat) :
  (k + 8 <= length p)%nat ->
  XXH_read64 (skipn k (p ++ q)) = XXH_read64 (skipn k p).
Proof.
  intros H. unfold XXH_read64.
  rewrite skipn_app. replace (k - length p)%nat with 0%nat by lia. simpl skipn.
  rewrite firstn_app. rewrite length_skipn.
  replace (8 - (length p - k))%nat with 0%nat by lia.
  simpl. rewrite app_nil_r. reflexivity.
Qed.

Lemma stripe_app v (p q : list Z) :
  (32 <= length p)%nat -> stripe v (p ++ q) = stripe v p.
Proof.
  intros H. unfold stripe.
  rewrite (read64_app p q 8), (read64_app p q 16), (read64_app p q 24) by lia.
  change (XXH_read64 (p ++ q)) with (XXH_read64 (skipn 0 (p ++ q))).
  rewrite (read64_app p q 0) by lia.
  reflexivity.
Qed.

Lemma absorb_app n : forall v (p q : list Z),
  (32 * n <= length p)%nat -> absorb n v (p ++ q) = absorb n v p.
Proof.
  induction n as [| n IH]; intros v p q H; [reflexivity |].
  cbn [absorb]. rewrite stripe_app by lia.
  rewrite skipn_app. replace (32 - length p)%nat with 0%nat by lia.
  change (skipn 0 q) with q.
  apply IH. rewrite length_skipn. lia.
Qed.

Lemma absorb_add n : forall m v (p : list Z),
  absorb (n + m) v p = absorb m (absorb n v p) (skipn (32 * n) p).
Proof.
  induction n as [| n IH]; intros m v p.
  - reflexivity.
  - cbn [absorb Nat.add]. rewrite IH. rewrite skipn_skipn.
    replace (32 * n + 32)%nat with (32 * S n)%nat by lia. reflexivity.
Qed.

Lemma stripes_do_while_spec fuel : forall v (p : list Z),
  (32 <= length p)%nat -> (length p / 32 <= fuel)%nat ->
  stripes_do_while fuel v p
  = (absorb (length p / 32) v p, skipn (32 * (length p / 32)) p).
Proof.
  induction fuel as [| fuel IH]; intros v p Hlen Hfuel.
  - exfalso. assert (1 <= length p / 32)%nat by (apply Nat.div_le_lower_bound; lia). lia.
  - cbn [stripes_do_while].
    assert (Hdiv : (length p / 32 = S (length (skipn 32 p) / 32))%nat).
    { rewrite length_skipn.
      replace (length p) with ((length p - 32) + 1 * 32)%nat at 1 by lia.
      rewrite Nat.div_add by lia. lia. }
    destruct (32 <=? Z.of_nat (length (skipn 32 p))) eqn:Hmore.
    + apply Z.leb_le in Hmore. rewrite IH by lia.
      rewrite Hdiv. cbn [absorb]. rewrite skipn_skipn.
      f_equal. f_equal. lia.
    + apply Z.leb_gt in Hmore.
      assert (Hz : (length (skipn 32 p) / 32 = 0)%nat) by (apply Nat.div_small; lia).
      rewrite Hdiv, Hz. reflexivity.
Qed.

Lemma memcpy_at_length (dst : list Z) off (src : list Z) :
  (off + length src <= length dst)%nat ->
  length (memcpy_at dst off src) = length dst.
Proof.
  intros H. unfold memcpy_at.
  rewrite !length_app, length_firstn, length_skipn. lia.
Qed.

Lemma memcpy_at_prefix (dst : list Z) off (src : list Z) :
  (off <= length dst)%nat ->
  firstn (off + length src) (memcpy_at dst off src) = firstn off dst ++ src.
Proof.
  intros H. unfold memcpy_at. rewrite app_assoc.
  rewrite firstn_app.
  rewrite length_app, length_firstn.
  replace (off + length src - (Init.Nat.min off (length dst) + length src))%nat
    with 0%nat by lia.
  rewrite firstn_all2 by (rewrite length_app, length_firstn; lia).
  simpl. rewrite app_nil_r. reflexivity.
Qed.

(** The part of [XXH64_update] after the buffer has been dealt with, from a
    state whose buffer is empty. *)
Lemma update_bulk_spec state (p : list Z) :
  memsize state = 0 -> length (mem64 state) = 32%nat ->
  let state' := update_store (fst (update_stripes state p)) (snd (update_stripes state p)) in
  acc state' = absorb (length p / 32) (acc state) p
  /\ memsize state' = Z.of_nat (length p mod 32)
  /\ firstn (length p mod 32) (mem64 state') = skipn (32 * (length p / 32)) p
  /\ length (mem64 state') = 32%nat
  /\ total_len state' = total_len state.
Proof.
  intros Hms Hbuf. unfold update_stripes.
  pose proof (Nat.div_mod_eq (length p) 32) as Hdm.
  pose proof (Nat.mod_upper_bound (length p) 32 ltac:(lia)) as Hmod.
  assert (Hrest : length (skipn (32 * (length p / 32)) p) = (length p mod 32)%nat)
    by (rewrite length_skipn; lia).
  destruct (32 <=? Z.of_nat (length p)) eqn:Hbig.
  - apply Z.leb_le in Hbig.
    rewrite stripes_do_while_spec by (try lia; apply Nat.Div0.div_le_upper_bound; lia).
    cbn [fst snd]. unfold update_store. cbn [acc mem64 memsize total_len].
    rewrite Hrest, Hms.
    destruct (0 <? Z.of_nat (length p mod 32)) eqn:Hsome; cbn [acc mem64 memsize total_len].
    + apply Z.ltb_lt in Hsome. split; [| split; [| split; [| split]]].
      * reflexivity.
      * lia.
      * change (Z.to_nat 0) with 0%nat.
        pose proof (memcpy_at_prefix (mem64 state) 0 (skipn (32 * (length p / 32)) p)
                      ltac:(lia)) as Hpre.
        rewrite Hrest in Hpre. simpl in Hpre. exact Hpre.
      * rewrite memcpy_at_length; [exact Hbuf | rewrite Hrest, Hbuf; lia].
      * reflexivity.
    + apply Z.ltb_ge in Hsome. assert (Hz : (length p mod 32 = 0)%nat) by lia.
      split; [| split; [| split; [| split]]]; try lia; try assumption; try reflexivity.
      rewrite Hz. cbn [firstn]. symmetry. apply length_zero_iff_nil.
      rewrite Hrest. exact Hz.
  - apply Z.leb_gt in Hbig.
    assert (Hd : (length p / 32 = 0)%nat) by (apply Nat.div_small; lia).
    assert (Hm : (length p mod 32 = length p)%nat) by (apply Nat.mod_small; lia).
    cbn [fst snd]. unfold update_store. rewrite Hd, Hm, Hms. simpl absorb. simpl skipn.
    destruct (0 <? Z.of_nat (length p)) eqn:Hsome; cbn [acc mem64 memsize total_len].
    + split; [| split; [| split; [| split]]].
      * reflexivity.
      * lia.
      * change (Z.to_nat 0) with 0%nat.
        pose proof (memcpy_at_prefix (mem64 state) 0 p ltac:(lia)) as Hpre.
        simpl in Hpre. exact Hpre.
      * rewrite memcpy_at_length; [exact Hbuf | rewrite Hbuf; lia].
      * reflexivity.
    + apply Z.ltb_ge in Hsome. assert (Hz : length p = 0%nat) by lia.
      split; [| split; [| split; [| split]]]; try lia; try assumption; try reflexivity.
      rewrite Hz. cbn [firstn]. symmetry. apply length_zero_iff_nil. exact Hz.
Qed.

Lemma absorb_one_stripe j v (s p : list Z) :
  length s = 32%nat -> absorb (S j) v (s ++ p) = absorb j (stripe v s) p.
Proof.
  intros Hs. cbn [absorb]. rewrite stripe_app by lia.
  rewrite skipn_app, skipn_all2 by lia.
  replace (32 - length s)%nat with 0%nat by lia. reflexivity.
Qed.

Lemma skipn_one_stripe n (s p : list Z) :
  length s = 32%nat -> skipn (32 * S n) (s ++ p) = skipn (32 * n) p.
Proof.
  intros Hs. rewrite skipn_app, skipn_all2 by lia.
  replace (32 * S n - length s)%nat with (32 * n)%nat by lia. reflexivity.
Qed.

Lemma update_stripes_nil state : update_stripes state [] = (state, []).
Proof. reflexivity. Qed.

Lemma update_store_nil state : update_store state [] = state.
Proof. reflexivity. Qed.

(** One call of [XXH64_update] from a state that holds the lanes [acc state]
    and the pending bytes [pending] in its buffer. *)
Lemma update_pending_spec state (pending b : list Z) :
  memsize state = Z.of_nat (length pending) ->
  (length pending < 32)%nat ->
  firstn (length pending) (mem64 state) = pending ->
  length (mem64 state) = 32%nat ->
  let state' := XXH64_update state (Some b) in
  acc state' = absorb (length (pending ++ b) / 32) (acc state) (pending ++ b)
  /\ memsize state' = Z.of_nat (length (pending ++ b) mod 32)
  /\ firstn (length (pending ++ b) mod 32) (mem64 state')
     = skipn (32 * (length (pending ++ b) / 32)) (pending ++ b)
  /\ length (mem64 state') = 32%nat
  /\ total_len state' = u64 (total_len state + Z.of_nat (length b)).
Proof.
  intros Hms Hshort Hmem Hbuf. cbv zeta. unfold XXH64_update.
  set (state0 := mkState (u64 (total_len state + Z.of_nat (length b)))
                         (acc state) (mem64 state) (memsize state)).
  unfold update_fill. cbn [memsize mem64 acc total_len state0].
  destruct (memsize state =? 0) eqn:Hempty.
  - (* nothing pending *)
    apply Z.eqb_eq in Hempty.
    assert (Hp : pending = []) by (apply length_zero_iff_nil; lia).
    subst pending. cbn [app].
    destruct (update_stripes state0 b) as [state1 p1] eqn:Hst.
    pose proof (update_bulk_spec state0 b Hempty Hbuf) as Hbulk.
    cbv zeta in Hbulk. rewrite Hst in Hbulk. cbn [fst snd] in Hbulk. exact Hbulk.
  - apply Z.eqb_neq in Hempty.
    destruct (Z.of_nat (length b) <? 32 - memsize state) eqn:Hfits.
    + (* the input fits into the buffer with room to spare *)
      apply Z.ltb_lt in Hfits.
      rewrite Nat2Z.id, firstn_all, skipn_all.
      assert (Hnot : (memsize state + Z.of_nat (length b) =? 32) = false)
        by (apply Z.eqb_neq; lia).
      rewrite Hnot, update_stripes_nil, update_store_nil. cbn [acc mem64 memsize total_len].
      assert (Hlen : length (pending ++ b) = (length pending + length b)%nat)
        by apply length_app.
      assert (Hd : (length (pending ++ b) / 32 = 0)%nat) by (apply Nat.div_small; lia).
      assert (Hm : (length (pending ++ b) mod 32 = length (pending ++ b))%nat)
        by (apply Nat.mod_small; lia).
      rewrite Hd, Hm, Hms, Nat2Z.id. cbn [absorb]. rewrite Nat.mul_0_r. cbn [skipn].
      split; [| split; [| split; [| split]]].
      * reflexivity.
      * lia.
      * rewrite Hlen, memcpy_at_prefix by lia. rewrite Hmem. reflexivity.
      * rewrite memcpy_at_length; [exact Hbuf | lia].
      * reflexivity.
    + (* the input fills the buffer: one stripe from the buffer, then the rest *)
      apply Z.ltb_ge in Hfits.
      replace (memsize state + (32 - memsize state) =? 32) with true
        by (symmetry; apply Z.eqb_eq; lia).
      set (fill := firstn (Z.to_nat (32 - memsize state)) b).
      set (rest := skipn (Z.to_nat (32 - memsize state)) b).
      assert (Hfill : length fill = (32 - length pending)%nat)
        by (subst fill; rewrite length_firstn; lia).
      assert (Hbuffer : memcpy_at (mem64 state) (Z.to_nat (memsize state)) fill
                        = pending ++ fill).
      { unfold memcpy_at. rewrite Hms, Nat2Z.id, Hmem.
        rewrite skipn_all2 by lia. rewrite app_nil_r. reflexivity. }
      rewrite Hbuffer.
      set (state1 := mkState (u64 (total_len state + Z.of_nat (length b)))
                             (stripe (acc state) (pending ++ fill)) (pending ++ fill) 0).
      assert (Hstripe : length (pending ++ fill) = 32%nat) by (rewrite length_app; lia).
      destruct (update_stripes state1 rest) as [state2 p2] eqn:Hst.
      pose proof (update_bulk_spec state1 rest eq_refl Hstripe) as Hbulk.
      cbv zeta in Hbulk. rewrite Hst in Hbulk. cbn [fst snd] in Hbulk.
      destruct Hbulk as (Hacc & Hsize & Hbytes & Hlenbuf & Htotal).
      assert (Hall : pending ++ b = (pending ++ fill) ++ rest).
      { rewrite <- app_assoc. subst fill rest. rewrite firstn_skipn. reflexivity. }
      assert (Hlen : length (pending ++ b) = (32 + length rest)%nat).
      { rewrite Hall, length_app. lia. }
      assert (Hd : (length (pending ++ b) / 32 = S (length rest / 32))%nat).
      { rewrite Hlen. replace (32 + length rest)%nat with (length rest + 1 * 32)%nat by lia.
        rewrite Nat.div_add by lia. lia. }
      assert (Hm : (length (pending ++ b) mod 32 = length rest mod 32)%nat).
      { rewrite Hlen. replace (32 + length rest)%nat with (length rest + 1 * 32)%nat by lia.
        apply Nat.Div0.mod_add. }
      rewrite Hd, Hm. rewrite Hall at 1 2.
      rewrite absorb_one_stripe, skipn_one_stripe by exact Hstripe.
      split; [| split; [| split; [| split]]]; assumption.
Qed.

Lemma u64_add_idemp a b : u64 (u64 a + b) = u64 (a + b).
Proof. unfold u64. apply Zplus_mod_idemp_l. Qed.

Lemma represents_reset seed : represents seed [] (XXH64_reset seed).
Proof. constructor; reflexivity. Qed.

Lemma represents_update seed (fed b : list Z) state :
  represents seed fed state ->
  represents seed (fed ++ b) (XXH64_update state (Some b)).
Proof.
  intros [Htotal Hacc Hsize Hmem Hbuf].
  pose proof (Nat.div_mod_eq (length fed) 32) as Hdm.
  pose proof (Nat.mod_upper_bound (length fed) 32 ltac:(lia)) as Hmod.
  set (k := (length fed / 32)%nat) in *.
  set (pending := skipn (32 * k) fed) in *.
  assert (Hpending : length pending = (length fed mod 32)%nat)
    by (subst pending; rewrite length_skipn; lia).
  rewrite <- Hpending in Hsize, Hmem.
  destruct (update_pending_spec state pending b Hsize ltac:(lia) Hmem Hbuf)
    as (Hacc' & Hsize' & Hmem' & Hbuf' & Htotal').
  assert (Hsplit : fed ++ b = firstn (32 * k) fed ++ (pending ++ b)).
  { subst pending. rewrite app_assoc, firstn_skipn. reflexivity. }
  assert (Hhead : length (firstn (32 * k) fed) = (32 * k)%nat)
    by (rewrite length_firstn; lia).
  assert (Hlen : length (fed ++ b) = (length (pending ++ b) + k * 32)%nat).
  { rewrite Hsplit, length_app, Hhead. lia. }
  assert (Hd : (length (fed ++ b) / 32 = k + length (pending ++ b) / 32)%nat).
  { rewrite Hlen, Nat.div_add by lia. lia. }
  assert (Hm : (length (fed ++ b) mod 32 = length (pending ++ b) mod 32)%nat).
  { rewrite Hlen. apply Nat.Div0.mod_add. }
  assert (Hskip : skipn (32 * k) (fed ++ b) = pending ++ b).
  { rewrite skipn_app. subst pending.
    replace (32 * k - length fed)%nat with 0%nat by lia. reflexivity. }
  constructor.
  - rewrite Htotal', Htotal, u64_add_idemp, length_app. f_equal. lia.
  - rewrite Hacc', Hacc, Hd, absorb_add, Hskip.
    rewrite (absorb_app k _ fed b) by lia. reflexivity.
  - rewrite Hsize', Hm. reflexivity.
  - rewrite Hm, Hmem', Hd.
    replace (32 * (k + length (pending ++ b) / 32))%nat
      with (32 * (length (pending ++ b) / 32) + 32 * k)%nat by lia.
    rewrite <- skipn_skipn, Hskip. reflexivity.
  - exact Hbuf'.
Qed.

Lemma represents_fold seed (chunks : list (list Z)) : forall fed state,
  represents seed fed state ->
  represents seed (fed ++ concat chunks)
             (fold_left (fun st b => XXH64_update st (Some b)) chunks state).
Proof.
  induction chunks as [| b chunks IH]; intros fed state Hrep; simpl.
  - rewrite app_nil_r. exact Hrep.
  - rewrite app_assoc. apply IH. apply represents_update. exact Hrep.
Qed.

Lemma represents_stream seed chunks :
  represents seed (concat chunks) (XXH64_stream seed chunks).
Proof.
  apply (represents_fold seed chunks [] (XXH64_reset seed)). apply represents_reset.
Qed.

(** A state that stands for [fed] digests to the one-shot hash of [fed]. *)
Lemma digest_of_represented seed (fed : list Z) state :
  Z.of_nat (length fed) < 2 ^ 64 ->
  represents seed fed state ->
  XXH64_digest state = XXH64 fed seed.
Proof.
  intros Hsize [Htotal Hacc Hms Hmem Hbuf].
  assert (Hlen : total_len state = Z.of_nat (length fed)).
  { rewrite Htotal. unfold u64. apply Z.mod_small. lia. }
  unfold XXH64_digest, XXH64. rewrite Hlen, Hms, Nat2Z.id, Hmem, Hacc.
  destruct (32 <=? Z.of_nat (length fed)) eqn:Hbig.
  - apply Z.leb_le in Hbig.
    rewrite stripes_do_while_spec
      by (try lia; apply Nat.Div0.div_le_upper_bound; lia).
    reflexivity.
  - apply Z.leb_gt in Hbig.
    assert (Hd : (length fed / 32 = 0)%nat) by (apply Nat.div_small; lia).
    rewrite Hd. cbn [absorb]. rewrite Nat.mul_0_r. change (skipn 0 fed) with fed.
    unfold seed_lanes, XXH64_reset. cbn [acc v3].
    rewrite Z.add_0_r, (u64_add_idemp seed PRIME64_5). reflexivity.
Qed.

(** C2: for every seed and every way of cutting the input into chunks,
    [XXH64_reset], one [XXH64_update] per chunk in order and [XXH64_digest]
    give the value [XXH64] gives on the whole input (whose length is a
    [size_t], hence below 2^64). *)
Theorem streaming_equals_one_shot :
  forall (seed : Z) (chunks : list (list Z)),
    Z.of_nat (length (concat chunks)) < 2 ^ 64 ->
    XXH64_digest (XXH64_stream seed chunks) = XXH64 (concat chunks) seed.
Proof.
  intros seed chunks Hsize.
  apply digest_of_represented; [exact Hsize | apply represents_stream].
Qed.

(** A hundred bytes fed as 3, 50, 0 and 47. *)
Lemma streaming_equals_one_shot_witness :
  XXH64_digest (XXH64_stream 7 Samples.sample_chunks)
  = XXH64 (concat Samples.sample_chunks) 7.
Proof.
  apply streaming_equals_one_shot. vm_compute. reflexivity.
Defined.

End XXHashFacts.

(** ** Decoder and rule applicator *)

Module TranslatorFacts.
Import Word Translator.

Section DecodeFacts.

Variable x86_defs : gmap Z X86InstructionDef.

Ltac split_ifs :=
  repeat match goal with
         | |- context [if ?b then _ else _] => destruct b eqn:?
         end.

Ltac prop_of_bool :=
  repeat match goal with
         | H : (_ && _) = true |- _ => apply andb_true_iff in H as [? ?]
         | H : (_ <? _) = true |- _ => apply Z.ltb_lt in H
         | H : (_ <=? _) = true |- _ => apply Z.leb_le in H
         | H : (_ <=? _) = false |- _ => apply Z.leb_gt in H
         end.

Lemma decode_displacement_length def code offset max_length mod_ inst :
  offset + inst_length inst <= max_length ->
  inst_length inst <= inst_length (decode_displacement def code offset max_length mod_ inst)
  /\ offset + inst_length (decode_displacement def code offset max_length mod_ inst)
     <= max_length.
Proof.
  intros Hin. unfold decode_displacement.
  split_ifs; prop_of_bool; simpl; lia.
Qed.

Lemma decode_modrm_length def code offset max_length inst :
  offset + inst_length inst <= max_length ->
  inst_length inst <= inst_length (decode_modrm def code offset max_length inst)
  /\ offset + inst_length (decode_modrm def code offset max_length inst) <= max_length.
Proof.
  intros Hin. unfold decode_modrm.
  destruct (has_modrm def && (offset + inst_length inst <? max_length)) eqn:Hm;
    [| lia].
  prop_of_bool. cbv zeta.
  match goal with
  | |- context [decode_displacement def code offset max_length ?m ?i] =>
      pose proof (decode_displacement_length def code offset max_length m i) as Hd;
      assert (Hi : inst_length inst + 1 <= inst_length i
                   /\ offset + inst_length i <= max_length)
  end.
  { split_ifs; prop_of_bool; simpl in *; lia. }
  destruct Hi as [Hi1 Hi2]. specialize (Hd Hi2). lia.
Qed.

Lemma decode_immediate_length def code offset max_length inst :
  offset + inst_length inst <= max_length ->
  inst_length inst <= inst_length (decode_immediate def code offset max_length inst)
  /\ offset + inst_length (decode_immediate def code offset max_length inst)
     <= max_length.
Proof.
  intros Hin. unfold decode_immediate.
  split_ifs; prop_of_bool; simpl; lia.
Qed.

(** Inside the slice the decoder consumes at least the opcode byte and never
    more than the slice holds. *)
Lemma decode_length_in_slice code offset max_length :
  offset < max_length ->
  1 <= inst_length (decode_x86_instruction x86_defs code offset max_length)
  /\ offset + inst_length (decode_x86_instruction x86_defs code offset max_length)
     <= max_length.
Proof.
  intros Hlt. unfold decode_x86_instruction.
  destruct (max_length <=? offset) eqn:Hle; [apply Z.leb_le in Hle; lia |].
  cbv zeta. simpl inst_opcode.
  destruct (x86_defs !! byte_at code offset) as [def |]; [| simpl; lia].
  set (inst0 := mkInst (byte_at code offset) 0 0 0 0 1).
  assert (H0 : offset + inst_length inst0 <= max_length) by (simpl; lia).
  pose proof (decode_modrm_length def code offset max_length inst0 H0) as [H1 H2].
  pose proof (decode_immediate_length def code offset max_length _ H2) as [H3 H4].
  simpl in H1. lia.
Qed.

Lemma decode_length_outside code offset max_length :
  max_length <= offset ->
  decode_x86_instruction x86_defs code offset max_length = inst_zero.
Proof.
  intros Hle. unfold decode_x86_instruction.
  destruct (max_length <=? offset) eqn:H; [reflexivity | apply Z.leb_gt in H; lia].
Qed.

(** When every byte the definition asks for is inside the slice, the decoder
    consumes exactly that many. *)
Lemma decode_length_complete code offset max_length :
  offset + required_length x86_defs code offset <= max_length ->
  inst_length (decode_x86_instruction x86_defs code offset max_length)
  = required_length x86_defs code offset.
Proof.
  unfold required_length, decode_x86_instruction. cbv zeta. simpl inst_opcode.
  destruct (x86_defs !! byte_at code offset) as [def |].
  - unfold decode_immediate, decode_modrm, decode_displacement. simpl.
    destruct (has_modrm def), (has_sib def), (has_displacement def), (has_immediate def);
      simpl; intros H; split_ifs; prop_of_bool; simpl in *;
      repeat match goal with
             | H : (_ && _) = false |- _ => apply andb_false_iff in H as [H | H]
             | H : (_ <? _) = false |- _ => apply Z.ltb_ge in H
             | H : negb _ = false |- _ => apply negb_false_iff in H
             | H : negb _ = true |- _ => apply negb_true_iff in H
             end; try lia; try congruence.
  - intros H. destruct (max_length <=? offset) eqn:Hle; [prop_of_bool; lia | reflexivity].
Qed.

(** *** The block loop *)

Lemma analyze_loop_ends fuel : forall code max_length offset,
  (Z.to_nat (max_length - offset) <= fuel)%nat ->
  block_ends x86_defs code max_length offset
             (analyze_loop x86_defs fuel code max_length offset).
Proof.
  induction fuel as [| fuel IH]; intros code max_length offset Hfuel; simpl.
  - apply ends_on_failure. rewrite decode_length_outside by lia. reflexivity.
  - destruct (offset <? max_length) eqn:Hlt.
    + apply Z.ltb_lt in Hlt.
      destruct (decode_length_in_slice code offset max_length Hlt) as [H1 H2].
      destruct (inst_length (decode_x86_instruction x86_defs code offset max_length) =? 0)
        eqn:Hz; [apply Z.eqb_eq in Hz; lia |].
      destruct (is_terminator
                  (inst_opcode (decode_x86_instruction x86_defs code offset max_length)))
        eqn:Ht.
      * apply ends_on_terminator; [lia | exact Ht].
      * apply ends_later; [lia | exact Ht |]. apply IH. lia.
    + apply Z.ltb_ge in Hlt. apply ends_on_failure.
      rewrite decode_length_outside by lia. reflexivity.
Qed.

Lemma analyze_loop_bounds fuel : forall code max_length offset,
  offset <= analyze_loop x86_defs fuel code max_length offset <= Z.max offset max_length.
Proof.
  induction fuel as [| fuel IH]; intros code max_length offset; simpl; [lia |].
  destruct (offset <? max_length) eqn:Hlt; [| lia].
  apply Z.ltb_lt in Hlt.
  destruct (decode_length_in_slice code offset max_length Hlt) as [H1 H2].
  destruct (inst_length (decode_x86_instruction x86_defs code offset max_length) =? 0);
    [lia |].
  destruct (is_terminator _); [lia |].
  specialize (IH code max_length
                 (offset + inst_length (decode_x86_instruction x86_defs code offset max_length))).
  lia.
Qed.

(** The relation has one outcome, so it fixes what the loop returns. *)
Lemma block_ends_functional code max_length offset stop1 stop2 :
  block_ends x86_defs code max_length offset stop1 ->
  block_ends x86_defs code max_length offset stop2 ->
  stop1 = stop2.
Proof.
  intros H1. revert stop2.
  induction H1 as [o Hz | o Hnz Ht | o stop Hnz Ht Hrest IH];
    intros stop2 H2; inversion H2; subst; try congruence; try reflexivity.
  apply IH. assumption.
Qed.

End DecodeFacts.

(** C3, as the specification states it: a required byte beyond the slice end
    forces consumed-length 0.  It fails for [MOV] ([0x89], which has a
    ModR/M byte) in a slice of one byte: the decoder skips the ModR/M byte
    and reports one byte consumed. *)
Lemma decode_missing_modrm_consumes_opcode :
  ~ (forall (x86_defs : gmap Z X86InstructionDef) (code : list Z) (offset max_length : Z),
        max_length < offset + required_length x86_defs code offset ->
        inst_length (decode_x86_instruction x86_defs code offset max_length) = 0).
Proof.
  intros H. specialize (H default_x86_defs [0x89; 0xC3] 0 1).
  vm_compute in H. specialize (H eq_refl). discriminate H.
Qed.

(** C3, amended: the consumed length is 0 exactly when the opcode byte itself
    lies beyond the slice end; otherwise the decoder consumes only bytes of
    the slice, skipping a field whose bytes lie beyond its end, and it
    consumes the full instruction when all its bytes are in the slice. *)
Theorem decode_out_of_bounds :
  forall (x86_defs : gmap Z X86InstructionDef) (code : list Z) (offset max_length : Z),
    let inst := decode_x86_instruction x86_defs code offset max_length in
    (inst_length inst = 0 <-> max_length <= offset)
    /\ (offset < max_length -> 1 <= inst_length inst /\ offset + inst_length inst <= max_length)
    /\ (offset + required_length x86_defs code offset <= max_length ->
        inst_length inst = required_length x86_defs code offset).
Proof.
  intros x86_defs code offset max_length inst. subst inst.
  split; [split | split].
  - intros Hz. destruct (Z_lt_le_dec offset max_length) as [Hlt | Hle]; [| lia].
    pose proof (decode_length_in_slice x86_defs code offset max_length Hlt). lia.
  - intros Hle. rewrite decode_length_outside by lia. reflexivity.
  - apply decode_length_in_slice.
  - apply decode_length_complete.
Qed.

(** C4: under the seeded definitions the block ends after the first
    terminator ([0xC3], [0xE8], [0xE9]) or at the first decode failure, its
    length stays within the bound passed (1024 at every call site), and the
    example program gives 11. *)
Theorem block_boundary :
  forall (code : list Z) (max_length : Z),
    block_ends default_x86_defs code max_length 0
               (analyze_x86_block default_x86_defs code max_length)
    /\ 0 <= analyze_x86_block default_x86_defs code max_length <= Z.max 0 max_length
    /\ analyze_x86_block default_x86_defs code 1024 <= 1024
    /\ analyze_x86_block default_x86_defs example_program 11 = 11
    /\ analyze_x86_block default_x86_defs (example_program ++ repeat 0 1013) 1024 = 11.
Proof.
  intros code max_length. unfold analyze_x86_block.
  split; [| split; [| split; [| split]]].
  - apply analyze_loop_ends. lia.
  - apply analyze_loop_bounds.
  - pose proof (analyze_loop_bounds default_x86_defs (Z.to_nat 1024) code 1024 0). lia.
  - vm_compute. reflexivity.
  - vm_compute. reflexivity.
Qed.

(** *** The rule applicator *)

Lemma translate_first_match pre rule post inst :
  Forall (fun r => x86_opcode r <> inst_opcode inst) pre ->
  x86_opcode rule = inst_opcode inst ->
  translate_x86_instruction (pre ++ rule :: post) inst = arm_opcodes rule.
Proof.
  intros Hpre Heq. induction Hpre as [| r pre Hr _ IH]; simpl.
  - apply Z.eqb_eq in Heq. rewrite Heq. reflexivity.
  - apply Z.eqb_neq in Hr. rewrite Hr. exact IH.
Qed.

Lemma translate_no_match rules inst :
  Forall (fun r => x86_opcode r <> inst_opcode inst) rules ->
  translate_x86_instruction rules inst = [ARM_NOP].
Proof.
  intros H. induction H as [| r rules Hr _ IH]; simpl; [reflexivity |].
  apply Z.eqb_neq in Hr. rewrite Hr. exact IH.
Qed.

(** The table either has a first rule for the opcode or none at all. *)
Lemma rules_first_match_or_none rules (op : Z) :
  (exists pre rule post,
      rules = pre ++ rule :: post
      /\ Forall (fun r => x86_opcode r <> op) pre /\ x86_opcode rule = op)
  \/ Forall (fun r => x86_opcode r <> op) rules.
Proof.
  induction rules as [| r rules IH]; [right; constructor |].
  destruct (Z.eq_dec (x86_opcode r) op) as [Heq | Hne].
  - left. exists [], r, rules. repeat split; [constructor | exact Heq].
  - destruct IH as [(pre & rule & post & -> & Hpre & Heq) | Hall].
    + left. exists (r :: pre), rule, post. repeat split; [constructor; assumption | exact Heq].
    + right. constructor; assumption.
Qed.

(** C5: the applicator yields the word list of the first rule for the
    opcode, one NOP word [0xD503201F] when there is none, and so always
    yields a result; under the seeded rules opcode [0xFE] gives the NOP. *)
Theorem rule_applicator_total :
  forall (translation_rules : list TranslationRule) (x86_inst : X86DecodedInst),
    (forall pre rule post,
        translation_rules = pre ++ rule :: post ->
        Forall (fun r => x86_opcode r <> inst_opcode x86_inst) pre ->
        x86_opcode rule = inst_opcode x86_inst ->
        translate_x86_instruction translation_rules x86_inst = arm_opcodes rule)
    /\ (Forall (fun r => x86_opcode r <> inst_opcode x86_inst) translation_rules ->
        translate_x86_instruction translation_rules x86_inst = [0xD503201F])
    /\ ((exists rule, In rule translation_rules
                      /\ x86_opcode rule = inst_opcode x86_inst
                      /\ translate_x86_instruction translation_rules x86_inst
                         = arm_opcodes rule)
        \/ translate_x86_instruction translation_rules x86_inst = [0xD503201F])
    /\ (inst_opcode x86_inst = 0xFE ->
        translate_x86_instruction default_translation_rules x86_inst = [0xD503201F]).
Proof.
  intros rules inst. split; [| split; [| split]].
  - intros pre rule post -> Hpre Heq. apply translate_first_match; assumption.
  - apply translate_no_match.
  - destruct (rules_first_match_or_none rules (inst_opcode inst))
      as [(pre & rule & post & -> & Hpre & Heq) | Hall].
    + left. exists rule. split; [| split].
      * apply in_or_app. right. left. reflexivity.
      * exact Heq.
      * apply translate_first_match; assumption.
    + right. apply translate_no_match. exact Hall.
  - intros Hop. unfold default_translation_rules. simpl. rewrite Hop. reflexivity.
Qed.

End TranslatorFacts.

(** ** Tier 1 of the translation cache *)

Module CacheFacts.
Import Word Cache.

(** *** The two searches *)

Lemma split_first_none {A : Type} (p : A -> bool) (l : list A) :
  Forall (fun x => p x = false) l -> split_first p l = None.
Proof.
  intros H. induction H as [| x l Hx _ IH]; simpl; [reflexivity |].
  rewrite Hx, IH. reflexivity.
Qed.

Lemma split_first_some {A : Type} (p : A -> bool) (pre : list A) (x : A) (post : list A) :
  Forall (fun y => p y = false) pre -> p x = true ->
  split_first p (pre ++ x :: post) = Some (pre, x, post).
Proof.
  intros Hpre Hx. induction Hpre as [| y pre Hy _ IH]; simpl.
  - rewrite Hx. reflexivity.
  - rewrite Hy, IH. reflexivity.
Qed.

Lemma split_first_inv {A : Type} (p : A -> bool) (l pre : list A) (x : A) (post : list A) :
  split_first p l = Some (pre, x, post) ->
  l = pre ++ x :: post /\ Forall (fun y => p y = false) pre /\ p x = true.
Proof.
  revert pre. induction l as [| y l IH]; intros pre; simpl; [discriminate |].
  destruct (p y) eqn:Hy.
  - intros [= <- <- <-]. repeat split; [constructor | exact Hy].
  - destruct (split_first p l) as [[[pre' x'] post'] |] eqn:Hs; [| discriminate].
    intros [= <- <- <-]. destruct (IH pre' eq_refl) as (-> & Hpre & Hx).
    repeat split; [constructor; assumption | exact Hx].
Qed.

Lemma split_first_none_inv {A : Type} (p : A -> bool) (l : list A) :
  split_first p l = None -> Forall (fun x => p x = false) l.
Proof.
  induction l as [| y l IH]; simpl; [constructor |].
  destruct (p y) eqn:Hy; [discriminate |].
  destruct (split_first p l) as [[[pre' x'] post'] |]; [discriminate |].
  intros _. constructor; [exact Hy | apply IH; reflexivity].
Qed.

Lemma Forall_rev_iff {A : Type} (P : A -> Prop) (l : list A) :
  Forall P l -> Forall P (rev l).
Proof.
  intros H. apply List.Forall_forall. intros x Hx. apply List.in_rev in Hx.
  rewrite List.Forall_forall in H. apply H. exact Hx.
Qed.

Lemma split_last_some {A : Type} (p : A -> bool) (pre : list A) (x : A) (post : list A) :
  p x = true -> Forall (fun y => p y = false) post ->
  split_last p (pre ++ x :: post) = Some (pre, x, post).
Proof.
  intros Hx Hpost. unfold split_last.
  rewrite rev_app_distr. simpl. rewrite <- app_assoc. simpl.
  rewrite (split_first_some p (rev post) x (rev pre)).
  - rewrite !rev_involutive. reflexivity.
  - apply Forall_rev_iff. exact Hpost.
  - exact Hx.
Qed.

Lemma split_last_none {A : Type} (p : A -> bool) (l : list A) :
  Forall (fun x => p x = false) l -> split_last p l = None.
Proof.
  intros H. unfold split_last. rewrite split_first_none; [reflexivity |].
  apply Forall_rev_iff. exact H.
Qed.

(** *** Eviction *)

(** With a cold entry present, the victim is the cold entry nearest the
    least-recently-used end. *)
Lemma evict_cold pre victim post :
  is_hot victim = false -> Forall (fun e => is_hot e = true) post ->
  evict (pre ++ victim :: post) = pre ++ post.
Proof.
  intros Hc Hpost. unfold evict. rewrite split_last_some; [reflexivity | |].
  - rewrite Hc. reflexivity.
  - eapply List.Forall_impl; [| exact Hpost]. intros e He. simpl in He. rewrite He. reflexivity.
Qed.

(** With every entry hot, the victim is the least recently used entry. *)
Lemma evict_all_hot l1 :
  Forall (fun e => is_hot e = true) l1 -> evict l1 = removelast l1.
Proof.
  intros H. unfold evict. rewrite split_last_none; [reflexivity |].
  eapply List.Forall_impl; [| exact H]. intros e He. simpl in He. rewrite He. reflexivity.
Qed.

(** What [save_to_l1_cache] does for a block that is not in tier 1. *)
Lemma save_new_block now l1 entry :
  Forall (fun e => same_block (x86_addr entry) (x86_hash entry) e = false) l1 ->
  save_to_l1_cache now l1 entry
  = mkEntry (x86_addr entry) (arm_addr entry) (x86_size entry) (arm_size entry)
            (x86_hash entry) now 1 (is_hot entry) (flags entry)
    :: (if MAX_L1_CACHE_ENTRIES <=? Z.of_nat (length l1) then evict l1 else l1).
Proof.
  intros H. unfold save_to_l1_cache. rewrite split_first_none by exact H. reflexivity.
Qed.

(** With every entry cold, the victim is the least recently used entry. *)
Lemma evict_all_cold l1 :
  Forall (fun e => is_hot e = false) l1 -> evict l1 = removelast l1.
Proof.
  intros H. destruct (list_eq_nil_dec l1) as [-> | Hne]; [reflexivity |].
  rewrite (app_removelast_last (stored_entry (mkStore 0 0 [] 0 [])) Hne) in H |- *.
  apply Forall_app in H as [_ Hlast]. inversion Hlast as [| ? ? Hcold _]; subst.
  rewrite evict_cold by (assumption || constructor).
  rewrite removelast_last, app_nil_r. reflexivity.
Qed.

(** *** A run of stores of distinct blocks *)

Lemma stored_entry_other_block (s d : store_call) :
  store_key d <> store_key s ->
  same_block (st_addr s) (hash_block (st_x86_code s)) (stored_entry d) = false.
Proof.
  unfold store_key, same_block. simpl. intros Hne.
  destruct (st_addr d =? st_addr s) eqn:Ha; [| reflexivity].
  destruct (hash_block (st_x86_code d) =? hash_block (st_x86_code s)) eqn:Hh; [| reflexivity].
  apply Z.eqb_eq in Ha, Hh. exfalso. apply Hne. congruence.
Qed.

Lemma firstn_cons_full {A : Type} (cap : nat) (x : A) (l : list A) :
  (S cap <= length l)%nat ->
  x :: removelast (firstn (S cap) l) = firstn (S cap) (x :: l).
Proof.
  intros Hlen. rewrite removelast_firstn by lia. reflexivity.
Qed.

Lemma firstn_cons_room {A : Type} (cap : nat) (x : A) (l : list A) :
  (length l < S cap)%nat ->
  x :: firstn (S cap) l = firstn (S cap) (x :: l).
Proof.
  intros Hlen. rewrite (firstn_all2 (n := S cap) l) by lia.
  rewrite firstn_all2 by (simpl; lia). reflexivity.
Qed.

(** One store of a block not stored before: the new entry goes to the
    front and the window of the [MAX_L1_CACHE_ENTRIES] latest slides. *)
Lemma store_fresh_step c binary_id (done : list store_call) (s : store_call) :
  l1_cache c = firstn (Z.to_nat MAX_L1_CACHE_ENTRIES) (rev (map stored_entry done)) ->
  ~ In (store_key s) (map store_key done) ->
  l1_cache (store (st_now s) c binary_id (st_addr s) (st_x86_code s)
                  (st_arm_addr s) (st_arm_code s))
  = firstn (Z.to_nat MAX_L1_CACHE_ENTRIES) (rev (map stored_entry (done ++ [s]))).
Proof.
  intros Hl1 Hfresh.
  assert (Hcap : exists cap, Z.to_nat MAX_L1_CACHE_ENTRIES = S cap
                             /\ MAX_L1_CACHE_ENTRIES = Z.of_nat (S cap)).
  { exists 1023%nat. split; reflexivity. }
  destruct Hcap as (cap & Hcap & HcapZ). rewrite Hcap in *.
  unfold store. simpl l1_cache.
  rewrite map_app, rev_app_distr. simpl rev. simpl app.
  set (R := rev (map stored_entry done)) in *.
  assert (Hothers : Forall (fun e => same_block (st_addr s) (hash_block (st_x86_code s)) e
                                     = false) R).
  { apply List.Forall_forall. intros e He. subst R. apply List.in_rev in He.
    apply List.in_map_iff in He as (d & <- & Hd).
    apply stored_entry_other_block. intros Hk. apply Hfresh.
    rewrite <- Hk. apply List.in_map. exact Hd. }
  assert (Hcold : Forall (fun e => is_hot e = false) R).
  { apply List.Forall_forall. intros e He. subst R. apply List.in_rev in He.
    apply List.in_map_iff in He as (d & <- & Hd). reflexivity. }
  rewrite save_new_block.
  2:{ simpl. rewrite Hl1. apply Forall_take. exact Hothers. }
  simpl x86_addr. simpl arm_addr. simpl x86_size. simpl arm_size. simpl x86_hash.
  simpl is_hot. simpl flags.
  change (mkEntry (st_addr s) (st_arm_addr s) (Z.of_nat (length (st_x86_code s)))
                  (Z.of_nat (length (st_arm_code s))) (hash_block (st_x86_code s))
                  (st_now s) 1 false 0) with (stored_entry s).
  rewrite Hl1, HcapZ.
  destruct (Z.of_nat (S cap) <=? Z.of_nat (length (firstn (S cap) R))) eqn:Hfull.
  - apply Z.leb_le in Hfull. rewrite length_firstn in Hfull.
    rewrite evict_all_cold.
    + apply firstn_cons_full. lia.
    + apply Forall_take. exact Hcold.
  - apply Z.leb_gt in Hfull. rewrite length_firstn in Hfull.
    apply firstn_cons_room. lia.
Qed.

Lemma store_all_fresh binary_id (calls : list store_call) : forall c done,
  l1_cache c = firstn (Z.to_nat MAX_L1_CACHE_ENTRIES) (rev (map stored_entry done)) ->
  NoDup (map store_key (done ++ calls)) ->
  l1_cache (store_all c binary_id calls)
  = firstn (Z.to_nat MAX_L1_CACHE_ENTRIES) (rev (map stored_entry (done ++ calls))).
Proof.
  induction calls as [| s calls IH]; intros c done Hl1 Hnd; simpl.
  - rewrite app_nil_r. exact Hl1.
  - replace (done ++ s :: calls) with ((done ++ [s]) ++ calls) in *
      by (rewrite <- app_assoc; reflexivity).
    apply IH; [| exact Hnd].
    apply store_fresh_step; [exact Hl1 |].
    rewrite List.map_app in Hnd. apply NoDup_app in Hnd as (Hnd & _ & _).
    rewrite List.map_app in Hnd. apply NoDup_app in Hnd as (_ & Hdisjoint & _).
    intros Hin. apply list_elem_of_In in Hin. apply (Hdisjoint _ Hin).
    simpl. left.
Qed.

(** C8: after more than 1024 stores of distinct blocks and no other access,
    tier 1 holds exactly 1024 entries, the 1024 stored last; and whenever an
    entry for a new block arrives at a full tier 1, the entry removed is the
    cold entry nearest the least-recently-used end, or the least recently
    used entry itself when every entry is hot. *)
Theorem eviction_fairness :
  forall (cache_dir binary_id : string) (calls : list store_call),
    NoDup (map store_key calls) ->
    (1024 < length calls)%nat ->
    (length (l1_cache (store_all (new_cache cache_dir) binary_id calls)) = 1024%nat
     /\ l1_cache (store_all (new_cache cache_dir) binary_id calls)
        = firstn (Z.to_nat MAX_L1_CACHE_ENTRIES) (rev (map stored_entry calls)))
    /\ (forall (now : Z) (l1 : list EnhancedTranslationEntry) (entry : EnhancedTranslationEntry),
           Forall (fun e => same_block (x86_addr entry) (x86_hash entry) e = false) l1 ->
           MAX_L1_CACHE_ENTRIES <= Z.of_nat (length l1) ->
           let new_entry := mkEntry (x86_addr entry) (arm_addr entry) (x86_size entry)
                                    (arm_size entry) (x86_hash entry) now 1 (is_hot entry)
                                    (flags entry) in
           (forall pre victim post,
               l1 = pre ++ victim :: post ->
               is_hot victim = false ->
               Forall (fun e => is_hot e = true) post ->
               save_to_l1_cache now l1 entry = new_entry :: pre ++ post)
           /\ (Forall (fun e => is_hot e = true) l1 ->
               save_to_l1_cache now l1 entry = new_entry :: removelast l1)).
Proof.
  intros cache_dir binary_id calls Hnd Hmany.
  assert (Hl1 : l1_cache (store_all (new_cache cache_dir) binary_id calls)
                = firstn (Z.to_nat MAX_L1_CACHE_ENTRIES) (rev (map stored_entry calls))).
  { apply (store_all_fresh binary_id calls (new_cache cache_dir) []).
    - reflexivity.
    - exact Hnd. }
  split; [split |].
  - rewrite Hl1, length_firstn, length_rev, length_map.
    change (Z.to_nat MAX_L1_CACHE_ENTRIES) with 1024%nat. lia.
  - exact Hl1.
  - intros now l1 entry Hfresh Hfull new_entry. subst new_entry.
    rewrite save_new_block by exact Hfresh.
    apply Z.leb_le in Hfull. rewrite Hfull. split.
    + intros pre victim post -> Hcold Hhot. rewrite evict_cold by assumption. reflexivity.
    + intros Hhot. rewrite evict_all_hot by assumption. reflexivity.
Qed.

(** 1030 stores of distinct blocks leave the 1024 latest. *)
Lemma eviction_fairness_witness :
  length (l1_cache (store_all (new_cache "./cache") "binary" Samples.sample_calls)) = 1024%nat.
Proof.
  refine (proj1 (proj1 (eviction_fairness "./cache" "binary" Samples.sample_calls _ _))).
  - apply (bool_decide_unpack _). vm_compute. exact I.
  - vm_compute. lia.
Defined.

(** *** The hot flag *)

Lemma touch_hot_consistent now e : hot_consistent (touch now e).
Proof. reflexivity. Qed.

Lemma evict_sublist (P : EnhancedTranslationEntry -> Prop) l1 :
  Forall P l1 -> Forall P (evict l1).
Proof.
  intros H. unfold evict.
  destruct (split_last (fun e => negb (is_hot e)) l1) as [[[pre x] post] |] eqn:Hs.
  - unfold split_last in Hs.
    destruct (split_first (fun e => negb (is_hot e)) (rev l1)) as [[[a y] b] |] eqn:Hf;
      [| discriminate].
    injection Hs as <- <- <-.
    apply split_first_inv in Hf as (Hrev & _ & _).
    apply Forall_rev_iff in H. rewrite Hrev in H.
    apply Forall_app in H as [Ha Hb]. inversion Hb; subst.
    apply Forall_app. split; apply Forall_rev_iff; assumption.
  - rewrite List.Forall_forall in *. intros e He. apply H.
    destruct l1 as [| x l1]; [destruct He |].
    rewrite (app_removelast_last x) at 1 by discriminate.
    apply in_or_app. left. exact He.
Qed.

(** [save_to_l1_cache] keeps the invariant when the entry it is given
    satisfies [is_hot = false]: the case of [store]. *)
Lemma save_cold_keeps_hot_consistent now l1 entry :
  is_hot entry = false ->
  Forall hot_consistent l1 ->
  Forall hot_consistent (save_to_l1_cache now l1 entry).
Proof.
  intros Hcold Hall. unfold save_to_l1_cache.
  destruct (split_first (same_block (x86_addr entry) (x86_hash entry)) l1)
    as [[[pre it] post] |] eqn:Hs.
  - apply split_first_inv in Hs as (-> & _ & _).
    apply Forall_app in Hall as [Hpre Hpost]. inversion Hpost; subst.
    constructor; [apply touch_hot_consistent |].
    apply Forall_app. split; assumption.
  - constructor.
    + unfold hot_consistent. simpl. exact Hcold.
    + destruct (MAX_L1_CACHE_ENTRIES <=? Z.of_nat (length l1));
        [apply evict_sublist |]; exact Hall.
Qed.

Lemma store_keeps_hot_consistent now c binary_id addr x86_code arm_addr arm_code :
  Forall hot_consistent (l1_cache c) ->
  Forall hot_consistent (l1_cache (store now c binary_id addr x86_code arm_addr arm_code)).
Proof.
  intros H. unfold store. simpl. apply save_cold_keeps_hot_consistent; [reflexivity | exact H].
Qed.

Lemma lookup_l1_keeps_hot_consistent now c addr block_hash :
  Forall hot_consistent (l1_cache c) ->
  Forall hot_consistent (l1_cache (snd (lookup_l1_cache now c addr block_hash))).
Proof.
  intros H. unfold lookup_l1_cache.
  destruct (split_first (same_block addr block_hash) (l1_cache c))
    as [[[pre it] post] |] eqn:Hs; simpl; [| exact H].
  apply split_first_inv in Hs as (Heq & _ & _). rewrite Heq in H.
  apply Forall_app in H as [Hpre Hpost]. inversion Hpost; subst.
  constructor; [apply touch_hot_consistent |].
  apply Forall_app. split; assumption.
Qed.

(** C7 fails on promotion.  Block A is stored and found in tier 1 ten times
    (eleven accesses, hot), the cache is checkpointed and cleared, and the
    next lookup finds A in tier 2: the promoted entry has its counter reset
    to 1 by [save_to_l1_cache] and keeps [is_hot = true] from the record. *)
Theorem promotion_breaks_hot_flag :
  let '(result, _, c, _) :=
    lookup 1030 (clear Samples.cache_hot) Samples.disk_hot Samples.binary_id 0x1000
           Samples.block_a in
  level result = L2_PERSISTENT
  /\ (exists e, l1_cache c = [e] /\ access_count e = 1 /\ is_hot e = true
                /\ ~ hot_consistent e).
Proof.
  vm_compute. split; [reflexivity |].
  eexists. split; [reflexivity |]. split; [reflexivity |]. split; [reflexivity |].
  discriminate.
Qed.

(** *** Checkpoint and tier-2 lookup *)

(** C1 fails with two blocks.  A (host code at arena offset 0, 12 bytes) and
    B (offset 12, 8 bytes) are stored in that order, so tier 1 lists B first
    and the checkpoint gives B offset 0 and A offset 8, while the payload it
    writes is the arena as it stands.  After a clear, the lookup of B is a
    tier-2 hit that hands back the first 8 bytes of A's host code, and the
    lookup of A hands back the bytes at 8..20. *)
Theorem checkpoint_lookup_reads_other_bytes :
  l1_cache Samples.cache_ab
  = [Samples.stored_entry_b; Samples.stored_entry_a]
  /\ (let '(result, arm_code, _, _) :=
        lookup 1030 (clear Samples.cache_ab) Samples.disk_ab Samples.binary_id 0x1010
               Samples.block_b in
      level result = L2_PERSISTENT
      /\ arm_code = firstn 8 Samples.host_a
      /\ arm_code <> Samples.host_b)
  /\ (let '(result, arm_code, _, _) :=
        lookup 1030 (clear Samples.cache_ab) Samples.disk_ab Samples.binary_id 0x1000
               Samples.block_a in
      level result = L2_PERSISTENT
      /\ arm_code = skipn 8 Samples.host_a ++ Samples.host_b
      /\ arm_code <> Samples.host_a).
Proof.
  vm_compute. repeat split; discriminate.
Qed.

(** *** Integrity checks *)

Lemma header_invalid_iff header :
  header_invalid header = true
  <-> hdr_magic header <> CACHE_MAGIC \/ hdr_version header <> CACHE_VERSION.
Proof.
  unfold header_invalid. rewrite orb_true_iff, !negb_true_iff, !Z.eqb_neq. reflexivity.
Qed.

Lemma lookup_l2_rejects now c disk cache_file bytes addr block_hash :
  disk !! cache_file = Some bytes ->
  header_invalid (header_of bytes) = true ->
  lookup_l2_cache now c disk cache_file addr block_hash = (None, c, disk).
Proof.
  intros Hfile Hbad. unfold lookup_l2_cache, open_in. rewrite Hfile.
  unfold header_of in Hbad.
  destruct (read 64 (mkIn bytes 0 false)) as [header file]. simpl in Hbad.
  rewrite Hbad. reflexivity.
Qed.

Lemma load_l2_rejects_header now disk cache_file bytes expected_hash :
  disk !! cache_file = Some bytes ->
  header_invalid (header_of bytes) = true ->
  load_l2_cache now disk cache_file expected_hash = (None, disk).
Proof.
  intros Hfile Hbad. unfold load_l2_cache, open_in. rewrite Hfile.
  unfold header_of in Hbad.
  destruct (read 64 (mkIn bytes 0 false)) as [header file]. simpl in Hbad.
  rewrite Hbad. reflexivity.
Qed.

Lemma load_l2_rejects_fingerprint now disk cache_file bytes expected_hash :
  disk !! cache_file = Some bytes ->
  expected_hash <> 0 ->
  hdr_x86_hash (header_of bytes) <> expected_hash ->
  load_l2_cache now disk cache_file expected_hash = (None, disk).
Proof.
  intros Hfile Hgiven Hfp. unfold load_l2_cache, open_in. rewrite Hfile.
  unfold header_of in Hfp.
  destruct (read 64 (mkIn bytes 0 false)) as [header file]. simpl in Hfp.
  destruct (header_invalid header); [reflexivity |].
  apply Z.eqb_neq in Hgiven, Hfp. rewrite Hgiven, Hfp. reflexivity.
Qed.

(** C9, as the specification states it, fails for the binary fingerprint: the
    file the checkpoint wrote carries the placeholder fingerprint, the
    fingerprint of the binary is another one, and still the tier-2 lookup of
    block A hits (and rewrites header and record). *)
Lemma lookup_l2_ignores_binary_fingerprint :
  ~ (forall (now : Z) (c : TranslationCache) (disk : gmap string (list Z))
            (cache_file : string) (bytes : list Z) (addr block_hash expected_hash : Z),
        disk !! cache_file = Some bytes ->
        hdr_magic (header_of bytes) <> CACHE_MAGIC
        \/ hdr_version (header_of bytes) <> CACHE_VERSION
        \/ hdr_x86_hash (header_of bytes) <> expected_hash ->
        lookup_l2_cache now c disk cache_file addr block_hash = (None, c, disk)
        /\ load_l2_cache now disk cache_file expected_hash = (None, disk)).
Proof.
  intros H.
  destruct (H 1030 (clear Samples.cache_ab) Samples.disk_ab Samples.path_ab Samples.file_ab
              0x1000 (hash_block Samples.block_a)
              (XXHash.XXH64 (Samples.block_a ++ Samples.block_b) 0)) as [Hlookup _].
  - vm_compute. reflexivity.
  - right. right. vm_compute. discriminate.
  - apply (f_equal (fun r => match fst (fst r) with Some _ => true | None => false end))
      in Hlookup.
    vm_compute in Hlookup. discriminate Hlookup.
Qed.

(** C9, amended: a file whose header magic or version does not match is a
    miss for every tier-2 lookup and every load, and neither writes to it;
    a load is also a miss without a write when the caller gave an expected
    fingerprint (a non-zero one) and the header's differs.  The tier-2
    lookup is given no expected fingerprint and makes no such test. *)
Theorem integrity_rejection :
  forall (now : Z) (c : TranslationCache) (disk : gmap string (list Z))
         (cache_file : string) (bytes : list Z) (addr block_hash expected_hash : Z),
    disk !! cache_file = Some bytes ->
    (hdr_magic (header_of bytes) <> CACHE_MAGIC
     \/ hdr_version (header_of bytes) <> CACHE_VERSION ->
     lookup_l2_cache now c disk cache_file addr block_hash = (None, c, disk)
     /\ load_l2_cache now disk cache_file expected_hash = (None, disk))
    /\ (expected_hash <> 0 ->
        hdr_x86_hash (header_of bytes) <> expected_hash ->
        load_l2_cache now disk cache_file expected_hash = (None, disk)).
Proof.
  intros now c disk cache_file bytes addr block_hash expected_hash Hfile. split.
  - intros Hbad. apply header_invalid_iff in Hbad. split.
    + eapply lookup_l2_rejects; eassumption.
    + eapply load_l2_rejects_header; eassumption.
  - intros Hgiven Hfp. eapply load_l2_rejects_fingerprint; eassumption.
Qed.

(** The checkpointed file with a damaged magic is rejected by the lookup of
    a block it holds. *)
Lemma integrity_rejection_witness :
  lookup_l2_cache 1030 (clear Samples.cache_ab) {[Samples.path_ab := Samples.corrupt_file]}
                  Samples.path_ab 0x1000 (hash_block Samples.block_a)
  = (None, clear Samples.cache_ab, {[Samples.path_ab := Samples.corrupt_file]}).
Proof.
  refine (proj1 (proj1 (integrity_rejection 1030 (clear Samples.cache_ab)
                          {[Samples.path_ab := Samples.corrupt_file]} Samples.path_ab
                          Samples.corrupt_file 0x1000 (hash_block Samples.block_a) 0 _) _)).
  - apply lookup_singleton_eq.
  - left. vm_compute. discriminate.
Defined.

End CacheFacts.

(** ** The signature store *)

Module SignatureFacts.
Import Word Signatures.

Lemma mask_scan_counts (block1 : list Z) : forall (block2 mask : list Z) matches total,
  length block1 = length block2 -> length block1 = length mask ->
  mask_scan block1 block2 mask matches total
  = (matches + matching_count block1 block2 mask, total + significant_count mask).
Proof.
  unfold matching_count, significant_count.
  induction block1 as [| b1 r1 IH]; intros [| b2 r2] [| m rm] matches total H2 Hm;
    try discriminate.
  - cbn. f_equal; lia.
  - injection H2 as H2. injection Hm as Hm.
    cbn [mask_scan combine List.filter fst snd].
    destruct (m =? 1), (b1 =? b2); cbn [andb length];
      rewrite IH by assumption; f_equal; lia.
Qed.

(** [compare_blocks_with_mask] computes the masked similarity of the
    specification when the three vectors have one length. *)
Lemma compare_is_masked_similarity (block1 block2 mask : list Z) :
  length block1 = length block2 -> length block1 = length mask ->
  compare_blocks_with_mask block1 block2 mask = masked_similarity block1 block2 mask.
Proof.
  intros H2 Hm. unfold compare_blocks_with_mask, masked_similarity.
  rewrite H2 at 1. rewrite Hm at 1. rewrite !Nat.eqb_refl. simpl.
  rewrite mask_scan_counts by assumption. reflexivity.
Qed.

Section FindFacts.

Variable memory : Z -> Z.

Lemma reference_bytes_length sig :
  length (reference_bytes memory sig) = Z.to_nat (sig_size sig).
Proof. unfold reference_bytes. rewrite length_map, length_seq. reflexivity. Qed.

(** The test of the fuzzy loop on a signature whose mask has the length of
    its block, stated with the similarity of the specification. *)
Lemma fuzzy_passes_similarity code sig :
  sig_size sig = Z.of_nat (length code) ->
  length (sig_mask sig) = length code ->
  fuzzy_passes memory code sig
  = float_ge (masked_similarity code (reference_bytes memory sig) (sig_mask sig))
             (similarity_threshold sig).
Proof.
  intros Hsize Hmask. unfold fuzzy_passes.
  rewrite Hsize, Z.eqb_refl. simpl.
  rewrite compare_is_masked_similarity; [reflexivity | | congruence].
  rewrite reference_bytes_length, Hsize, Nat2Z.id. reflexivity.
Qed.

Lemma fuzzy_scan_first code pre key sig post :
  Forall (fun p => fuzzy_passes memory code (snd p) = false) pre ->
  fuzzy_passes memory code sig = true ->
  fuzzy_scan memory (pre ++ (key, sig) :: post) code = Some sig.
Proof.
  intros Hpre Hsig. unfold fuzzy_passes in Hsig.
  apply andb_true_iff in Hsig as [Hsize Hsim].
  induction Hpre as [| [k s] pre Hs _ IH]; simpl.
  - rewrite Hsize. simpl. rewrite Hsim. reflexivity.
  - unfold fuzzy_passes in Hs. simpl in Hs.
    destruct (sig_size s =? Z.of_nat (length code)); simpl in *; [| exact IH].
    rewrite Hs. exact IH.
Qed.

Lemma fuzzy_scan_none code db :
  Forall (fun p => fuzzy_passes memory code (snd p) = false) db ->
  fuzzy_scan memory db code = None.
Proof.
  intros H. induction H as [| [k s] db Hs _ IH]; simpl; [reflexivity |].
  unfold fuzzy_passes in Hs. simpl in Hs.
  destruct (sig_size s =? Z.of_nat (length code)); simpl in *; [| exact IH].
  rewrite Hs. exact IH.
Qed.

(** The table either has a first signature that passes or none that does. *)
Lemma first_passing_or_none code (db : signature_table) :
  (exists pre key sig post,
      db = pre ++ (key, sig) :: post
      /\ Forall (fun p => fuzzy_passes memory code (snd p) = false) pre
      /\ fuzzy_passes memory code sig = true)
  \/ Forall (fun p => fuzzy_passes memory code (snd p) = false) db.
Proof.
  induction db as [| [k s] db IH]; [right; constructor |].
  destruct (fuzzy_passes memory code s) eqn:Hs.
  - left. exists [], k, s, db. split; [reflexivity |]. split; [constructor | exact Hs].
  - destruct IH as [(pre & key & sig & post & -> & Hpre & Hsig) | Hall].
    + left. exists ((k, s) :: pre), key, sig, post.
      split; [reflexivity |]. split; [constructor; assumption | exact Hsig].
    + right. constructor; assumption.
Qed.

(** When the memo and the exact lookup miss, [find_match] is the fuzzy
    loop. *)
Lemma find_match_fuzzy db (match_cache : gmap Z Z) code :
  (forall stored, match_cache !! calculate_hash code = Some stored ->
                  db_find db stored = None) ->
  db_find db (calculate_hash code) = None ->
  fst (find_match memory db match_cache code)
  = match fuzzy_scan memory db code with
    | Some sig => (true, sig)
    | None => (false, empty_signature)
    end.
Proof.
  intros Hmemo Hexact. unfold find_match.
  destruct (match_cache !! calculate_hash code) as [stored |] eqn:Hm.
  - rewrite (Hmemo stored eq_refl), Hexact.
    destruct (fuzzy_scan memory db code); reflexivity.
  - rewrite Hexact. destruct (fuzzy_scan memory db code); reflexivity.
Qed.

End FindFacts.

(** C6, as the specification states it, fails with two stored signatures the
    query matches equally well: the scan returns the first it meets, so the
    other one passes the similarity test and is not returned. *)
Lemma find_match_returns_one_signature :
  ~ (forall (memory : Z -> Z) (db : signature_table) (match_cache : gmap Z Z)
            (code : list Z) (sig : BlockSignature),
        In (sig_hash sig, sig) db ->
        sig_size sig = Z.of_nat (length code) ->
        (fst (find_match memory db match_cache code) = (true, sig)
         <-> float_ge (compare_blocks_with_mask code (reference_bytes memory sig)
                                                (sig_mask sig))
                      (similarity_threshold sig) = true)).
Proof.
  intros H.
  destruct (H Samples.sample_memory Samples.two_signatures ∅ Samples.query_equal
              Samples.signature_1) as [_ Hback].
  - vm_compute. right. left. reflexivity.
  - vm_compute. reflexivity.
  - assert (Hsim : float_ge
                     (compare_blocks_with_mask Samples.query_equal
                        (reference_bytes Samples.sample_memory Samples.signature_1)
                        (sig_mask Samples.signature_1))
                     (similarity_threshold Samples.signature_1) = true)
      by (vm_compute; reflexivity).
    specialize (Hback Hsim).
    apply (f_equal (fun r => sig_address (snd r))) in Hback.
    vm_compute in Hback. discriminate Hback.
Qed.

(** The same with the table iterated in the other order: then it is the
    other signature that passes and is not returned. *)
Lemma find_match_other_order :
  let db := [(sig_hash Samples.signature_1, Samples.signature_1);
             (sig_hash Samples.signature_2, Samples.signature_2)] in
  fst (find_match Samples.sample_memory db ∅ Samples.query_equal)
  = (true, Samples.signature_1)
  /\ fuzzy_passes Samples.sample_memory Samples.query_equal Samples.signature_2 = true
  /\ Samples.signature_2 <> Samples.signature_1.
Proof.
  vm_compute. split; [reflexivity |]. split; [reflexivity |]. discriminate.
Qed.

(** C6, amended: when the memo and the exact fingerprint lookup both miss,
    [find_match] returns the first stored signature, in the table's
    iteration order, that has the query's byte length and a masked
    similarity at least its threshold, and reports no match when there is
    none; a similarity equal to the threshold passes, as four matching bytes
    of five against [0.8f] do. *)
Theorem find_match_first_similar :
  forall (memory : Z -> Z) (db : signature_table) (match_cache : gmap Z Z) (code : list Z),
    (forall stored, match_cache !! calculate_hash code = Some stored ->
                    db_find db stored = None) ->
    db_find db (calculate_hash code) = None ->
    (forall pre key sig post,
        db = pre ++ (key, sig) :: post ->
        Forall (fun p => fuzzy_passes memory code (snd p) = false) pre ->
        fuzzy_passes memory code sig = true ->
        fst (find_match memory db match_cache code) = (true, sig))
    /\ (Forall (fun p => fuzzy_passes memory code (snd p) = false) db ->
        fst (find_match memory db match_cache code) = (false, empty_signature))
    /\ (fst (fst (find_match memory db match_cache code)) = true
        <-> exists key sig, In (key, sig) db /\ fuzzy_passes memory code sig = true)
    /\ (forall sig,
           sig_size sig = Z.of_nat (length code) ->
           length (sig_mask sig) = length code ->
           fuzzy_passes memory code sig
           = float_ge (masked_similarity code (reference_bytes memory sig) (sig_mask sig))
                      (similarity_threshold sig))
    /\ float_div (float_of_size 4) (float_of_size 5) = Samples.float_0_8
    /\ float_ge (float_div (float_of_size 4) (float_of_size 5)) Samples.float_0_8 = true.
Proof.
  intros memory db match_cache code Hmemo Hexact.
  rewrite (find_match_fuzzy memory db match_cache code Hmemo Hexact).
  split; [| split; [| split; [| split; [| split]]]].
  - intros pre key sig post -> Hpre Hsig.
    rewrite (fuzzy_scan_first memory code pre key sig post Hpre Hsig). reflexivity.
  - intros Hall. rewrite (fuzzy_scan_none memory code db Hall). reflexivity.
  - destruct (first_passing_or_none memory code db)
      as [(pre & key & sig & post & -> & Hpre & Hsig) | Hall].
    + rewrite (fuzzy_scan_first memory code pre key sig post Hpre Hsig). simpl.
      split; [| reflexivity]. intros _. exists key, sig. split; [| exact Hsig].
      apply in_or_app. right. left. reflexivity.
    + rewrite (fuzzy_scan_none memory code db Hall). simpl.
      split; [discriminate |]. intros (key & sig & Hin & Hsig).
      rewrite List.Forall_forall in Hall. specialize (Hall _ Hin). simpl in Hall.
      congruence.
  - apply fuzzy_passes_similarity.
  - vm_compute. reflexivity.
  - vm_compute. reflexivity.
Qed.

(** The query with four of five significant bytes equal matches the stored
    prologue signature of threshold [0.8f]. *)
Lemma find_match_first_similar_witness :
  fst (find_match Samples.sample_memory Samples.one_signature ∅ Samples.query_four_of_five)
  = (true, Samples.signature_1).
Proof.
  refine (proj1 (find_match_first_similar Samples.sample_memory Samples.one_signature ∅
                   Samples.query_four_of_five _ _)
                [] (sig_hash Samples.signature_1) Samples.signature_1 [] _ _ _).
  - intros stored Hstored. rewrite lookup_empty in Hstored. discriminate Hstored.
  - vm_compute. reflexivity.
  - vm_compute. reflexivity.
  - constructor.
  - vm_compute. reflexivity.
Defined.

End SignatureFacts.

(** ** The persistence engine *)

Module PersistenceFacts.
Import Word Persistence.

Lemma client_step_keeps s s' :
  no_promise_kept s -> client_step s = Some s' -> no_promise_kept s'.
Proof.
  intros [Hf Hq Hw Hp]. unfold client_step.
  destruct (awaiting s) as [p |].
  - rewrite Hf. simpl. discriminate.
  - destruct (program s) as [| op rest]; [discriminate |].
    simpl in Hp. apply andb_true_iff in Hp as [Hop Hrest].
    destruct op as [file bytes off cb | | file].
    + intros [= <-]. constructor; simpl; try assumption.
      apply Forall_app. split; [exact Hq |]. constructor; [| constructor].
      unfold sentinel_ok. simpl. simpl in Hop. congruence.
    + unfold flush_enter. destruct (job_queue (manager s)) as [| j q] eqn:Hjq.
      * intros [= <-]. constructor; simpl; try assumption. rewrite Hjq. constructor.
      * intros [= <-]. constructor; simpl; try assumption.
        change (j :: q ++ [mkJob "" [] 0 (set_promise (next_promise s))])
          with ((j :: q) ++ [mkJob "" [] 0 (set_promise (next_promise s))]).
        apply Forall_app. split; [exact Hq |]. constructor; [| constructor].
        intros _. reflexivity.
    + intros [= <-]. constructor; simpl; assumption.
Qed.

Lemma worker_step_keeps s s' :
  no_promise_kept s -> worker_step s = Some s' -> no_promise_kept s'.
Proof.
  intros [Hf Hq Hw Hp]. unfold worker_step.
  destruct (worker (manager s)) as [| job |] eqn:Hworker; [| | discriminate].
  - unfold worker_take. destruct (should_terminate (manager s)).
    + intros [= <-]. constructor; simpl; try assumption; exact I.
    + destruct (job_queue (manager s)) as [| j q]; [discriminate |].
      intros [= <-]. inversion Hq; subst. constructor; simpl; assumption.
  - unfold worker_process. simpl in Hw.
    destruct (String.eqb (cache_file job) "") eqn:Hname.
    + intros [= <-]. constructor; simpl; try assumption; exact I.
    + apply String.eqb_neq in Hname.
      destruct (write_to_file (disk s) (cache_file job) (data job) (offset job))
        as [success d] eqn:Hwrite.
      intros [= <-].
      destruct (callback job) as [| p | id] eqn:Hcb.
      * constructor; simpl; try assumption; exact I.
      * exfalso. apply Hname. apply Hw. rewrite Hcb. reflexivity.
      * constructor; simpl; try assumption; exact I.
Qed.

Lemma run_keeps schedule : forall s s',
  no_promise_kept s -> run schedule s = Some s' -> no_promise_kept s'.
Proof.
  induction schedule as [| t schedule IH]; intros s s' Hs; simpl.
  - intros [= <-]. exact Hs.
  - destruct (step t s) as [s1 |] eqn:Hstep; [| discriminate].
    apply IH. destruct t; simpl in Hstep.
    + eapply client_step_keeps; eassumption.
    + eapply worker_step_keeps; eassumption.
Qed.

(** The callback of the job [flush] queues sits, like every callback, inside
    [if (!job.cache_file.empty())], and that job has no file name: in no
    execution is a promise ever fulfilled, so a [flush] that found the queue
    non-empty never comes back. *)
Lemma flush_waits_forever d prog schedule s p :
  forallb caller_op prog = true ->
  run schedule (start d prog) = Some s ->
  awaiting s = Some p ->
  client_step s = None.
Proof.
  intros Hprog Hrun Hwait.
  assert (Hinv : no_promise_kept s).
  { eapply run_keeps; [| exact Hrun]. constructor; simpl; try constructor. exact Hprog. }
  unfold client_step. rewrite Hwait. rewrite (npk_fulfilled s Hinv). reflexivity.
Qed.

(** C10 fails in the execution where the worker has popped B when [flush] is
    called: [flush] finds the queue empty and returns, the read that
    follows finds A's byte in the file, and B is still in the worker's
    hands. *)
Theorem flush_returns_before_last_write :
  exists s,
    run Samples.early_flush_schedule (start ∅ Samples.write_a_b_flush_read) = Some s
    /\ finished s = true
    /\ observed s = [Some [0x61]]
    /\ worker (manager s) = holding (mkJob Samples.flush_file [0x62] 0 no_callback)
    /\ disk s !! Samples.flush_file = Some [0x61].
Proof.
  eexists. split; [vm_compute; reflexivity |].
  vm_compute. repeat split.
Qed.

(** In the execution where [flush] is called while both jobs are queued, the
    worker writes A and B in order and takes the job of [flush] off the
    queue, and the foreground thread is still waiting. *)
Lemma flush_blocks_after_both_writes :
  exists s,
    run Samples.late_flush_schedule (start ∅ Samples.write_a_b_flush_read) = Some s
    /\ disk s !! Samples.flush_file = Some [0x62]
    /\ job_queue (manager s) = []
    /\ worker (manager s) = at_loop_head
    /\ awaiting s = Some 0%nat
    /\ step Client s = None /\ step Worker s = None.
Proof.
  eexists. split; [vm_compute; reflexivity |].
  vm_compute. repeat split.
Qed.

End PersistenceFacts.

(** * Further properties *)

(** ** The hasher: range of the fingerprint and of the streaming state *)

Module XXHashRangeFacts.
Import Word XXHash.

Lemma u64_range x : 0 <= u64 x < 2 ^ 64.
Proof. unfold u64. apply Z.mod_pos_bound. lia. Qed.

Lemma lxor_range a b n :
  0 <= n -> 0 <= a < 2 ^ n -> 0 <= b < 2 ^ n -> 0 <= Z.lxor a b < 2 ^ n.
Proof.
  intros Hn Ha Hb. split.
  - apply Z.lxor_nonneg. lia.
  - destruct (Z.eq_dec (Z.lxor a b) 0) as [-> | Hnz]; [lia |].
    assert (Hpos : 0 < Z.lxor a b).
    { pose proof (proj2 (Z.lxor_nonneg a b)) as H. lia. }
    assert (Hn' : 0 < n).
    { destruct (Z.eq_dec n 0) as [-> | ?]; [| lia].
      assert (a = 0) by lia. assert (b = 0) by lia. subst. discriminate Hpos. }
    apply (proj2 (Z.log2_lt_pow2 _ _ Hpos)).
    eapply Z.le_lt_trans; [apply Z.log2_lxor; lia |].
    apply Z.max_lub_lt.
    + destruct (Z.eq_dec a 0) as [-> | ?]; [simpl; lia |].
      apply (proj1 (Z.log2_lt_pow2 a n ltac:(lia))). lia.
    + destruct (Z.eq_dec b 0) as [-> | ?]; [simpl; lia |].
      apply (proj1 (Z.log2_lt_pow2 b n ltac:(lia))). lia.
Qed.

Lemma shiftr_range a k : 0 <= k -> 0 <= a < 2 ^ 64 -> 0 <= Z.shiftr a k < 2 ^ 64.
Proof.
  intros Hk Ha. rewrite Z.shiftr_div_pow2 by lia. split.
  - apply Z.div_pos; lia.
  - apply Z.div_lt_upper_bound; [lia |].
    assert (1 <= 2 ^ k) by lia. nia.
Qed.

Lemma avalanche_range h64 : 0 <= avalanche h64 < 2 ^ 64.
Proof.
  unfold avalanche. cbv zeta.
  apply lxor_range; [lia | apply u64_range |].
  apply shiftr_range; [lia | apply u64_range].
Qed.

Lemma finish_range h64 p : 0 <= finish h64 p < 2 ^ 64.
Proof.
  unfold finish. destruct (tail_words h64 p) as [h1 p1].
  destruct (tail_half h1 p1) as [h2 p2]. apply avalanche_range.
Qed.

(** X1: a fingerprint is a 64-bit number: [XXH64] of any input with any
    seed, and [XXH64_digest] of any streaming state, lie in [0, 2^64). *)
Theorem XXH64_is_64_bit :
  forall (input : list Z) (seed : Z),
    0 <= XXH64 input seed < 2 ^ 64
    /\ forall state, 0 <= XXH64_digest state < 2 ^ 64.
Proof.
  intros input seed. split.
  - unfold XXH64. cbv zeta.
    destruct (32 <=? Z.of_nat (length input)).
    + destruct (stripes_do_while _ _ _) as [v p]. apply finish_range.
    + apply finish_range.
  - intros state. unfold XXH64_digest. apply finish_range.
Qed.

(** X2: after any sequence of [XXH64_update] calls from [XXH64_reset], the
    number of buffered bytes is the number of bytes fed modulo 32 (so below
    32), the buffer keeps its 32 bytes, and [total_len] is the number of
    bytes fed modulo 2^64. *)
Theorem stream_state_bounded :
  forall (seed : Z) (chunks : list (list Z)),
    let state := XXH64_stream seed chunks in
    let fed := Z.of_nat (length (concat chunks)) in
    0 <= memsize state < 32
    /\ memsize state = fed mod 32
    /\ length (mem64 state) = 32%nat
    /\ total_len state = fed mod 2 ^ 64.
Proof.
  intros seed chunks state fed.
  destruct (XXHashFacts.represents_stream seed chunks) as [Htotal _ Hsize _ Hbuf].
  fold state in Htotal, Hsize, Hbuf.
  pose proof (Nat.mod_upper_bound (length (concat chunks)) 32 ltac:(lia)) as Hlt.
  split; [lia |]. split; [| split; [exact Hbuf | exact Htotal]].
  rewrite Hsize. subst fed. rewrite Nat2Z.inj_mod. reflexivity.
Qed.
End XXHashRangeFacts.

(** ** The block translator, the flat cache and the register file *)

Module TranslatorBlockFacts.
Import Word Translator TranslatorBlock.

Lemma firstn_exact {A : Type} (l r : list A) n :
  length l = n -> firstn n (l ++ r) = l.
Proof.
  intros <-. rewrite firstn_app, Nat.sub_diag, firstn_all. simpl. apply app_nil_r.
Qed.

Lemma firstn_firstn_app {A : Type} (l r : list A) n :
  firstn n (firstn n l ++ r) = firstn n (l ++ r).
Proof.
  destruct (Nat.le_gt_cases n (length l)) as [Hle | Hgt].
  - rewrite firstn_exact by (rewrite length_firstn; lia).
    rewrite firstn_app. replace (n - length l)%nat with 0%nat by lia.
    simpl. rewrite app_nil_r. reflexivity.
  - rewrite (firstn_all2 (n := n) l) by lia. reflexivity.
Qed.

Lemma copy_words_spec arm_instructions max_arm_inst : forall arm_code,
  Z.of_nat (length arm_code) <= max_arm_inst ->
  copy_words arm_instructions max_arm_inst arm_code
  = firstn (Z.to_nat max_arm_inst) (arm_code ++ arm_instructions).
Proof.
  induction arm_instructions as [| word rest IH]; intros arm_code Hlen; simpl.
  - rewrite app_nil_r, firstn_all2 by lia. reflexivity.
  - destruct (Z.of_nat (length arm_code) <? max_arm_inst) eqn:Hroom.
    + apply Z.ltb_lt in Hroom. rewrite IH by (rewrite length_app; simpl; lia).
      rewrite <- app_assoc. reflexivity.
    + apply Z.ltb_ge in Hroom. rewrite IH by exact Hlen.
      rewrite !firstn_exact by lia. reflexivity.
Qed.

Section BlockFacts.

Variable x86_defs : gmap Z X86InstructionDef.
Variable translation_rules : list TranslationRule.

Lemma translate_loop_spec x86_code x86_size max_arm_inst fuel :
  forall x86_offset arm_code,
    Z.of_nat (length arm_code) <= max_arm_inst ->
    translate_loop x86_defs translation_rules fuel x86_code x86_size max_arm_inst
                   x86_offset arm_code
    = firstn (Z.to_nat max_arm_inst)
             (arm_code
              ++ concat (map (translate_x86_instruction translation_rules)
                             (decode_from x86_defs fuel x86_code x86_size x86_offset))).
Proof.
  induction fuel as [| fuel IH]; intros x86_offset arm_code Hlen; simpl.
  - rewrite app_nil_r, firstn_all2 by lia. reflexivity.
  - destruct (x86_offset <? x86_size) eqn:Hin; simpl.
    + destruct (Z.of_nat (length arm_code) <? max_arm_inst) eqn:Hroom.
      * destruct (inst_length (decode_x86_instruction x86_defs x86_code x86_offset x86_size)
                  =? 0).
        -- simpl. rewrite app_nil_r, firstn_all2 by lia. reflexivity.
        -- rewrite IH.
           ++ rewrite copy_words_spec by exact Hlen. simpl.
              rewrite firstn_firstn_app, <- app_assoc. reflexivity.
           ++ rewrite copy_words_spec by exact Hlen. rewrite length_firstn. lia.
      * apply Z.ltb_ge in Hroom. rewrite firstn_exact by lia. reflexivity.
    + rewrite app_nil_r, firstn_all2 by lia. reflexivity.
Qed.

Lemma decode_from_covers x86_code x86_size fuel : forall offset,
  offset <= x86_size ->
  (Z.to_nat (x86_size - offset) <= fuel)%nat ->
  total_length (decode_from x86_defs fuel x86_code x86_size offset) = x86_size - offset.
Proof.
  induction fuel as [| fuel IH]; intros offset Hle Hfuel; simpl.
  - lia.
  - destruct (offset <? x86_size) eqn:Hin; [| apply Z.ltb_ge in Hin; simpl; lia].
    apply Z.ltb_lt in Hin.
    destruct (TranslatorFacts.decode_length_in_slice x86_defs x86_code offset x86_size Hin)
      as [H1 H2].
    destruct (inst_length (decode_x86_instruction x86_defs x86_code offset x86_size) =? 0)
      eqn:Hz; [apply Z.eqb_eq in Hz; lia |].
    simpl. rewrite IH by lia. lia.
Qed.

Lemma translate_loop_no_room x86_code x86_size max_arm_inst fuel x86_offset arm_code :
  max_arm_inst <= Z.of_nat (length arm_code) ->
  translate_loop x86_defs translation_rules fuel x86_code x86_size max_arm_inst
                 x86_offset arm_code = arm_code.
Proof.
  intros Hfull. destruct fuel as [| fuel]; simpl; [reflexivity |].
  replace (Z.of_nat (length arm_code) <? max_arm_inst) with false
    by (symmetry; apply Z.ltb_ge; exact Hfull).
  rewrite andb_false_r. reflexivity.
Qed.

Lemma translate_x86_block_spec x86_code x86_size max_arm_inst :
  translate_x86_block x86_defs translation_rules x86_code x86_size max_arm_inst
  = firstn (Z.to_nat max_arm_inst)
           (concat (map (translate_x86_instruction translation_rules)
                        (decoded_block x86_defs x86_code x86_size))).
Proof.
  unfold translate_x86_block, decoded_block.
  destruct (Z_le_gt_dec 0 max_arm_inst) as [Hpos | Hneg].
  - rewrite translate_loop_spec by (simpl; lia). reflexivity.
  - rewrite translate_loop_no_room by (simpl; lia).
    replace (Z.to_nat max_arm_inst) with 0%nat by lia. reflexivity.
Qed.

Lemma translate_x86_block_length x86_code x86_size max_arm_inst :
  Z.of_nat (length (translate_x86_block x86_defs translation_rules x86_code x86_size
                                        max_arm_inst)) <= Z.max 0 max_arm_inst.
Proof. rewrite translate_x86_block_spec, length_firstn. lia. Qed.

(** X3: [translate_x86_block] emits the translations of the instructions
    decoded from the block, one after the other, cut at [max_arm_inst]
    words; it never emits more than [max_arm_inst] words; and the decoded
    instructions cover the [x86_size] guest bytes exactly, so the loop
    cannot stall. *)
Theorem translate_block_is_concatenation :
  forall (x86_code : list Z) (x86_size max_arm_inst : Z),
    translate_x86_block x86_defs translation_rules x86_code x86_size max_arm_inst
    = firstn (Z.to_nat max_arm_inst)
             (concat (map (translate_x86_instruction translation_rules)
                          (decoded_block x86_defs x86_code x86_size)))
    /\ Z.of_nat (length (translate_x86_block x86_defs translation_rules x86_code x86_size
                                             max_arm_inst)) <= Z.max 0 max_arm_inst
    /\ total_length (decoded_block x86_defs x86_code x86_size) = Z.max 0 x86_size.
Proof.
  intros x86_code x86_size max_arm_inst.
  split; [apply translate_x86_block_spec |]. split; [apply translate_x86_block_length |].
  unfold decoded_block. destruct (Z_le_gt_dec 0 x86_size) as [Hpos | Hneg].
  - rewrite decode_from_covers by lia. lia.
  - replace (Z.to_nat x86_size) with 0%nat by lia. simpl. lia.
Qed.

End BlockFacts.

(** *** The flat cache *)

Lemma find_in_cache_app cache1 cache2 addr :
  find_in_cache (cache1 ++ cache2) addr
  = match find_in_cache cache1 addr with
    | Some entry => Some entry
    | None => find_in_cache cache2 addr
    end.
Proof.
  induction cache1 as [| e cache1 IH]; simpl; [reflexivity |].
  destruct (te_x86_addr e =? addr); [reflexivity | exact IH].
Qed.

Lemma find_in_cache_address cache addr entry :
  find_in_cache cache addr = Some entry -> te_x86_addr entry = addr.
Proof.
  induction cache as [| e cache IH]; simpl; [discriminate |].
  destruct (te_x86_addr e =? addr) eqn:He; [| exact IH].
  intros [= <-]. apply Z.eqb_eq. exact He.
Qed.



(** *** Registers *)

Lemma flag_bit_kept flags bit k :
  0 <= k < 64 -> bit = 2 ^ k -> 0 <= flags < 2 ^ 64 ->
  (if negb (Z.land flags bit =? 0) then Z.lor flags bit else clear_bits flags bit) = flags.
Proof.
  intros Hk -> Hrange.
  assert (Hbit : forall n, Z.testbit (2 ^ k) n = (n =? k)).
  { intros n. destruct (Z.eqb_spec n k) as [-> | Hne].
    - apply Z.pow2_bits_true. lia.
    - apply Z.pow2_bits_false. congruence. }
  assert (Htest : Z.testbit (Z.land flags (2 ^ k)) k = Z.testbit flags k).
  { rewrite Z.land_spec, Hbit, Z.eqb_refl, andb_true_r. reflexivity. }
  destruct (Z.land flags (2 ^ k) =? 0) eqn:Hz; simpl.
  - apply Z.eqb_eq in Hz. rewrite Hz, Z.bits_0 in Htest.
    unfold clear_bits, u64. apply Z.bits_inj'. intros n Hn.
    rewrite Z.land_spec.
    destruct (Z_lt_le_dec n 64) as [Hlow | Hhigh].
    + rewrite Z.mod_pow2_bits_low by lia. rewrite Z.lnot_spec by lia. rewrite Hbit.
      destruct (Z.eqb_spec n k) as [-> | _]; simpl.
      * rewrite <- Htest. reflexivity.
      * apply andb_true_r.
    + rewrite Z.mod_pow2_bits_high by lia. rewrite andb_false_r.
      destruct (Z.eq_dec flags 0) as [-> | Hnz]; [rewrite Z.bits_0; reflexivity |].
      symmetry. apply Z.bits_above_log2; [lia |].
      assert (Z.log2 flags < 64) by (apply Z.log2_lt_pow2; lia). lia.
  - apply Z.eqb_neq in Hz. apply Z.bits_inj'. intros n Hn.
    rewrite Z.lor_spec, Hbit.
    destruct (Z.eqb_spec n k) as [-> | _]; [| apply orb_false_r].
    rewrite orb_true_r. symmetry. rewrite <- Htest.
    destruct (Z.testbit (Z.land flags (2 ^ k)) k) eqn:Hb; [reflexivity |].
    exfalso. apply Hz. apply Z.bits_inj'. intros m Hm.
    rewrite Z.bits_0, Z.land_spec, Hbit.
    destruct (Z.eqb_spec m k) as [-> | _]; [| apply andb_false_r].
    rewrite Z.land_spec, Hbit, Z.eqb_refl in Hb. exact Hb.
Qed.

Lemma flag_bit_set flags k : 0 <= k -> Z.land (Z.lor flags (2 ^ k)) (2 ^ k) = 2 ^ k.
Proof.
  intros Hk. apply Z.bits_inj'. intros n Hn.
  rewrite Z.land_spec, Z.lor_spec.
  destruct (Z.testbit (2 ^ k) n); [rewrite orb_true_r; reflexivity | apply andb_false_r].
Qed.

Lemma flag_bit_cleared flags k :
  0 <= k < 64 -> Z.land (clear_bits flags (2 ^ k)) (2 ^ k) = 0.
Proof.
  intros Hk. unfold clear_bits, u64. apply Z.bits_inj'. intros n Hn.
  rewrite !Z.land_spec, Z.bits_0.
  destruct (Z.eqb_spec n k) as [-> | Hne].
  - rewrite Z.mod_pow2_bits_low, Z.lnot_spec, Z.pow2_bits_true by lia.
    simpl. rewrite andb_false_r. reflexivity.
  - rewrite (Z.pow2_bits_false k n) by congruence. apply andb_false_r.
Qed.

Ltac next_element l := destruct l as [| ? l]; [discriminate |].
Ltac no_more_elements l := destruct l; [| discriminate].

(** X5: with the register arrays at their declared sizes and the flag words
    64-bit, mapping back after a mapping changes nothing: [map_arm_to_x86]
    after [map_x86_to_arm] leaves the state as [map_x86_to_arm] made it, and
    [map_x86_to_arm] after [map_arm_to_x86] leaves it as [map_arm_to_x86]
    made it. *)
Theorem register_mapping_round_trip :
  forall s : CPUState,
    cpu_state_ok s ->
    map_arm_to_x86 (map_x86_to_arm s) = map_x86_to_arm s
    /\ map_x86_to_arm (map_arm_to_x86 s) = map_arm_to_x86 s.
Proof.
  intros [rax rbx rcx rdx rsi rdi rbp rsp r8 r9 r10 r11 r12 r13 r14 r15 rip rflags
          x sp pc cpsr xmm neon] [Hx Hxmm Hneon Hrflags Hcpsr].
  simpl in *.
  do 31 next_element x. no_more_elements x.
  do 16 next_element xmm. no_more_elements xmm.
  do 32 next_element neon. no_more_elements neon.
  change 0x40 with (2 ^ 6) in *. change 0x40000000 with (2 ^ 30) in *.
  pose proof (flag_bit_kept rflags (2 ^ 6) 6 ltac:(lia) eq_refl Hrflags) as Hzf.
  pose proof (flag_bit_kept cpsr (2 ^ 30) 30 ltac:(lia) eq_refl Hcpsr) as Hz.
  split.
  - unfold map_arm_to_x86, map_x86_to_arm. cbn -[Z.land Z.lor clear_bits Z.eqb].
    f_equal. change 0x40 with (2 ^ 6). change 0x40000000 with (2 ^ 30).
    destruct (Z.land rflags (2 ^ 6) =? 0); cbn [negb] in *.
    + rewrite flag_bit_cleared by lia. exact Hzf.
    + rewrite flag_bit_set by lia. exact Hzf.
  - unfold map_arm_to_x86, map_x86_to_arm. cbn -[Z.land Z.lor clear_bits Z.eqb].
    f_equal. change 0x40 with (2 ^ 6). change 0x40000000 with (2 ^ 30).
    destruct (Z.land cpsr (2 ^ 30) =? 0); cbn [negb] in *.
    + rewrite flag_bit_cleared by lia. exact Hz.
    + rewrite flag_bit_set by lia. exact Hz.
Qed.

Lemma register_mapping_round_trip_witness :
  cpu_state_ok MoreSamples.cpu_zf_set
  /\ map_arm_to_x86 (map_x86_to_arm MoreSamples.cpu_zf_set)
     = map_x86_to_arm MoreSamples.cpu_zf_set
  /\ map_x86_to_arm (map_arm_to_x86 MoreSamples.cpu_zf_set)
     = map_arm_to_x86 MoreSamples.cpu_zf_set.
Proof.
  assert (H : cpu_state_ok MoreSamples.cpu_zf_set)
    by (constructor; vm_compute; try reflexivity; split; (discriminate || reflexivity)).
  split; [exact H |].
  apply (register_mapping_round_trip MoreSamples.cpu_zf_set H).
Defined.

End TranslatorBlockFacts.

(** ** Similarity, masks, the signature table and the static analyser *)

Module SignatureToolsFacts.
Import Word Signatures SignatureTools.

(** *** Similarity *)

Lemma mask_scan_symmetric (block1 : list Z) : forall (block2 mask : list Z) matches total,
  mask_scan block1 block2 mask matches total = mask_scan block2 block1 mask matches total.
Proof.
  induction block1 as [| b1 r1 IH]; intros [| b2 r2] [| m rm] matches total;
    try reflexivity.
  cbn [mask_scan]. rewrite (Z.eqb_sym b1 b2). destruct (m =? 1); apply IH.
Qed.

(** X6: [compare_blocks_with_mask] is symmetric in its two blocks. *)
Theorem similarity_symmetric :
  forall block1 block2 mask : list Z,
    compare_blocks_with_mask block1 block2 mask
    = compare_blocks_with_mask block2 block1 mask.
Proof.
  intros block1 block2 mask. unfold compare_blocks_with_mask.
  rewrite (mask_scan_symmetric block1 block2).
  destruct (Nat.eqb_spec (length block1) (length block2)) as [Heq | Hne].
  - rewrite Heq, Nat.eqb_refl. reflexivity.
  - rewrite (proj2 (Nat.eqb_neq (length block2) (length block1))) by congruence.
    reflexivity.
Qed.

Lemma counts_bounded (block1 : list Z) : forall (block2 mask : list Z),
  0 <= matching_count block1 block2 mask <= significant_count mask
  /\ significant_count mask <= Z.of_nat (length mask).
Proof.
  unfold matching_count, significant_count.
  induction block1 as [| b1 r1 IH]; intros block2 mask.
  - cbn. split; [lia |]. pose proof (List.filter_length_le (fun m => m =? 1) mask). lia.
  - destruct block2 as [| b2 r2].
    + cbn. split; [lia |]. pose proof (List.filter_length_le (fun m => m =? 1) mask). lia.
    + destruct mask as [| m rm]; [cbn; lia |].
      specialize (IH r2 rm). cbn [combine List.filter fst snd length].
      destruct (m =? 1), (b1 =? b2); cbn [andb length]; lia.
Qed.

Lemma counts_agree (block1 : list Z) : forall (block2 mask : list Z),
  length block1 = length block2 -> length block1 = length mask ->
  (forall j, nth j mask 0 = 1 -> nth j block1 0 = nth j block2 0) ->
  matching_count block1 block2 mask = significant_count mask.
Proof.
  unfold matching_count, significant_count.
  induction block1 as [| b1 r1 IH]; intros [| b2 r2] [| m rm] H2 Hm Hagree;
    try discriminate; [reflexivity |].
  injection H2 as H2. injection Hm as Hm.
  cbn [combine List.filter fst snd].
  assert (Htail : Z.of_nat (length (List.filter
              (fun t => (snd t =? 1) && (fst (fst t) =? snd (fst t)))
              (combine (combine r1 r2) rm)))
          = Z.of_nat (length (List.filter (fun m => m =? 1) rm))).
  { apply IH; try assumption. intros j Hj. apply (Hagree (S j)). exact Hj. }
  destruct (m =? 1) eqn:Hm1.
  - apply Z.eqb_eq in Hm1. specialize (Hagree 0%nat Hm1). simpl in Hagree.
    subst b2. rewrite Z.eqb_refl. cbn [andb length]. lia.
  - cbn [andb]. exact Htail.
Qed.


(** *** [generate_mask] *)

Lemma mark_differences_length (reference : list Z) : forall variant mask : list Z,
  length (mark_differences reference variant mask) = length mask.
Proof.
  induction reference as [| r rs IH]; intros [| v vs] [| m ms]; try reflexivity.
  cbn [mark_differences length]. rewrite IH. reflexivity.
Qed.

Lemma mark_differences_nth (reference : list Z) : forall (variant mask : list Z) j,
  length variant = length reference -> length mask = length reference ->
  nth j (mark_differences reference variant mask) 0
  = if nth j reference 0 =? nth j variant 0 then nth j mask 0 else 0.
Proof.
  induction reference as [| r rs IH]; intros [| v vs] [| m ms] j Hv Hm;
    try discriminate.
  - destruct j; reflexivity.
  - injection Hv as Hv. injection Hm as Hm. cbn [mark_differences].
    destruct j as [| j]; cbn [nth].
    + destruct (r =? v); reflexivity.
    + apply IH; assumption.
Qed.

Lemma mask_variants_length reference variants : forall mask : list Z,
  length mask = length reference ->
  length (mask_variants reference variants mask) = length reference.
Proof.
  induction variants as [| variant rest IH]; intros mask Hm; cbn [mask_variants];
    [exact Hm |].
  destruct (negb (length variant =? length reference)%nat).
  - apply repeat_length.
  - apply IH. rewrite mark_differences_length. exact Hm.
Qed.

Lemma mask_variants_nth reference variants : forall (mask : list Z) j,
  Forall (fun variant => length variant = length reference) variants ->
  length mask = length reference ->
  nth j (mask_variants reference variants mask) 0
  = if forallb (fun variant => nth j reference 0 =? nth j variant 0) variants
    then nth j mask 0 else 0.
Proof.
  induction variants as [| variant rest IH]; intros mask j Hall Hm; cbn [mask_variants forallb];
    [reflexivity |].
  inversion Hall as [| ? ? Hv Hrest]; subst.
  rewrite Hv, Nat.eqb_refl. cbn [negb].
  rewrite IH by (try assumption; rewrite mark_differences_length; exact Hm).
  rewrite mark_differences_nth by assumption.
  destruct (nth j reference 0 =? nth j variant 0); cbn [andb]; [reflexivity |].
  destruct (forallb _ rest); reflexivity.
Qed.

Lemma mask_variants_mismatch reference variants : forall mask : list Z,
  Exists (fun variant => length variant <> length reference) variants ->
  mask_variants reference variants mask = repeat 0 (length reference).
Proof.
  induction variants as [| variant rest IH]; intros mask Hex; [inversion Hex |].
  cbn [mask_variants].
  destruct (Nat.eqb_spec (length variant) (length reference)) as [Heq | Hne];
    [| reflexivity].
  cbn [negb]. apply IH. inversion Hex; subst; [contradiction | assumption].
Qed.

Lemma mark_differences_bits (reference : list Z) : forall variant mask : list Z,
  Forall (fun m => m = 0 \/ m = 1) mask ->
  Forall (fun m => m = 0 \/ m = 1) (mark_differences reference variant mask).
Proof.
  induction reference as [| r rs IH]; intros [| v vs] [| m ms] Hm; try exact Hm.
  cbn [mark_differences]. inversion Hm; subst. constructor.
  - destruct (negb (r =? v)); [left; reflexivity | assumption].
  - apply IH. assumption.
Qed.

Lemma repeat_bits (b : Z) n : b = 0 \/ b = 1 -> Forall (fun m => m = 0 \/ m = 1) (repeat b n).
Proof. intros Hb. induction n; simpl; constructor; assumption. Qed.

Lemma mask_variants_bits reference variants : forall mask : list Z,
  Forall (fun m => m = 0 \/ m = 1) mask ->
  Forall (fun m => m = 0 \/ m = 1) (mask_variants reference variants mask).
Proof.
  induction variants as [| variant rest IH]; intros mask Hm; cbn [mask_variants];
    [exact Hm |].
  destruct (negb (length variant =? length reference)%nat).
  - apply repeat_bits. left. reflexivity.
  - apply IH. apply mark_differences_bits. exact Hm.
Qed.

Lemma nth_repeat_1 n j : (j < n)%nat -> nth j (repeat 1 n) 0 = 1.
Proof.
  revert j. induction n as [| n IH]; intros j Hj; [lia |].
  destruct j; simpl; [reflexivity | apply IH; lia].
Qed.

(** X8: the mask [generate_mask] builds has the reference's length and holds
    only 0 and 1; it is all zero as soon as one variant has another length;
    with all lengths equal, a position holds 1 exactly when every variant
    agrees with the reference there. *)
Theorem generate_mask_marks_agreement :
  forall (reference : list Z) (variants : list (list Z)),
    let mask := generate_mask (reference :: variants) in
    length mask = length reference
    /\ Forall (fun m => m = 0 \/ m = 1) mask
    /\ (Exists (fun variant => length variant <> length reference) variants ->
        mask = repeat 0 (length reference))
    /\ (Forall (fun variant => length variant = length reference) variants ->
        forall j, (j < length reference)%nat ->
          (nth j mask 0 = 1
           <-> forall variant, In variant variants ->
                               nth j variant 0 = nth j reference 0)).
Proof.
  intros reference variants mask. subst mask. cbn [generate_mask].
  split; [apply mask_variants_length, repeat_length |].
  split; [apply mask_variants_bits, repeat_bits; right; reflexivity |].
  split; [apply mask_variants_mismatch |].
  intros Hall j Hj.
  rewrite mask_variants_nth by (try assumption; apply repeat_length).
  rewrite nth_repeat_1 by exact Hj.
  destruct (forallb (fun variant => nth j reference 0 =? nth j variant 0) variants) eqn:Hf.
  - split; [| reflexivity]. intros _ variant Hin.
    rewrite List.forallb_forall in Hf. specialize (Hf variant Hin).
    apply Z.eqb_eq in Hf. congruence.
  - split; [discriminate |]. intros Hagree. exfalso.
    assert (Ht : forallb (fun variant => nth j reference 0 =? nth j variant 0) variants
                 = true).
    { apply List.forallb_forall. intros variant Hin. apply Z.eqb_eq.
      symmetry. apply Hagree. exact Hin. }
    congruence.
Qed.

(** Under the generated mask every variant matches the reference on every
    significant byte. *)
(** X9: under the mask generated from a reference and variants of its
    length, every variant matches the reference in all significant bytes,
    so it compares to the reference exactly as the reference compares to
    itself. *)
Theorem generated_mask_accepts_variants :
  forall (reference : list Z) (variants : list (list Z)) (variant : list Z),
    Forall (fun v => length v = length reference) variants ->
    In variant variants ->
    let mask := generate_mask (reference :: variants) in
    matching_count variant reference mask = significant_count mask
    /\ compare_blocks_with_mask variant reference mask
       = compare_blocks_with_mask reference reference mask.
Proof.
  intros reference variants variant Hall Hin mask.
  destruct (generate_mask_marks_agreement reference variants) as (Hlen & _ & _ & Hnth).
  fold mask in Hlen, Hnth. specialize (Hnth Hall).
  assert (Hv : length variant = length reference).
  { rewrite List.Forall_forall in Hall. apply Hall. exact Hin. }
  assert (Hcount : matching_count variant reference mask = significant_count mask).
  { apply counts_agree; [exact Hv | congruence |].
    intros j Hj. destruct (Nat.lt_ge_cases j (length reference)) as [Hlt | Hge].
    - apply (proj1 (Hnth j Hlt) Hj). exact Hin.
    - rewrite !nth_overflow by lia. reflexivity. }
  split; [exact Hcount |].
  rewrite !SignatureFacts.compare_is_masked_similarity by congruence.
  unfold masked_similarity. rewrite Hcount.
  rewrite (counts_agree reference reference mask) by (auto; congruence).
  reflexivity.
Qed.

Lemma generated_mask_accepts_variants_witness :
  generate_mask [Samples.reference_1; Samples.reference_2] = Samples.prologue_mask
  /\ matching_count Samples.reference_2 Samples.reference_1
                    (generate_mask [Samples.reference_1; Samples.reference_2])
     = significant_count (generate_mask [Samples.reference_1; Samples.reference_2]).
Proof.
  split; [reflexivity |].
  apply (generated_mask_accepts_variants Samples.reference_1 [Samples.reference_2]
           Samples.reference_2).
  - repeat constructor.
  - left. reflexivity.
Defined.

(** *** The table *)

Lemma db_assign_spec (db : signature_table) key sig :
  match db_assign db key sig with
  | Some db' =>
      db_find db key <> None
      /\ map fst db' = map fst db
      /\ db_find db' key = Some sig
      /\ (forall other, other <> key -> db_find db' other = db_find db other)
      /\ (forall p, In p db' -> p = (key, sig) \/ In p db)
  | None => db_find db key = None
  end.
Proof.
  induction db as [| [k s0] db IH]; cbn [db_assign db_find]; [reflexivity |].
  destruct (Z.eqb_spec k key) as [-> | Hne].
  - split; [discriminate |]. split; [reflexivity |].
    cbn [db_find]. rewrite Z.eqb_refl. split; [reflexivity |]. split.
    + intros other Hother. rewrite (proj2 (Z.eqb_neq key other)) by congruence. reflexivity.
    + intros p [<- | Hin]; [left; reflexivity | right; right; exact Hin].
  - destruct (db_assign db key sig) as [db' |].
    + destruct IH as (Hsome & Hkeys & Hfind & Hother & Hin).
      split; [exact Hsome |]. split; [cbn [map]; rewrite Hkeys; reflexivity |].
      cbn [db_find]. rewrite (proj2 (Z.eqb_neq k key) Hne).
      split; [exact Hfind |]. split.
      * intros other Ho. destruct (k =? other); [reflexivity | apply Hother; exact Ho].
      * intros p [<- | Hp]; [right; left; reflexivity |].
        destruct (Hin p Hp) as [-> | Hq]; [left; reflexivity | right; right; exact Hq].
    + exact IH.
Qed.

Lemma db_find_none_keys (db : signature_table) key :
  db_find db key = None -> ~ In key (map fst db).
Proof.
  induction db as [| [k s] db IH]; cbn [db_find map fst]; [intros _ [] |].
  destruct (Z.eqb_spec k key) as [-> | Hne]; [discriminate |].
  intros Hnone [Heq | Hin]; [congruence | exact (IH Hnone Hin)].
Qed.

(** X10: after [add_signature] the table maps the signature's hash to that
    signature and every other hash as before; a table with one pair per key,
    each signature under its own hash, stays so; and the table grows by one
    exactly when the hash was not yet a key. *)
Theorem add_signature_then_find :
  forall (db : signature_table) (signature : BlockSignature),
    let db' := add_signature db signature in
    db_find db' (sig_hash signature) = Some signature
    /\ (forall other, other <> sig_hash signature -> db_find db' other = db_find db other)
    /\ (table_ok db -> table_ok db')
    /\ length db' = match db_find db (sig_hash signature) with
                    | Some _ => length db
                    | None => S (length db)
                    end.
Proof.
  intros db signature db'. subst db'. unfold add_signature.
  pose proof (db_assign_spec db (sig_hash signature) signature) as Hspec.
  destruct (db_assign db (sig_hash signature) signature) as [db' |].
  - destruct Hspec as (Hsome & Hkeys & Hfind & Hother & Hin).
    split; [exact Hfind |]. split; [exact Hother |]. split.
    + intros [Hnd Hkeyed]. split; [rewrite Hkeys; exact Hnd |].
      apply List.Forall_forall. intros p Hp.
      destruct (Hin p Hp) as [-> | Hq]; [reflexivity |].
      rewrite List.Forall_forall in Hkeyed. apply Hkeyed. exact Hq.
    + destruct (db_find db (sig_hash signature)); [| congruence].
      rewrite <- (length_map fst db'), Hkeys, length_map. reflexivity.
  - cbn [db_find]. rewrite Z.eqb_refl. split; [reflexivity |]. split.
    + intros other Ho. rewrite (proj2 (Z.eqb_neq (sig_hash signature) other)) by congruence.
      reflexivity.
    + split.
      * intros [Hnd Hkeyed]. split.
        -- cbn [map fst]. apply NoDup_cons. split; [| exact Hnd].
           intros Hin. apply list_elem_of_In in Hin.
           exact (db_find_none_keys db _ Hspec Hin).
        -- constructor; [reflexivity | exact Hkeyed].
      * rewrite Hspec. reflexivity.
Qed.

Lemma db_find_member (db : signature_table) key sig :
  NoDup (map fst db) -> In (key, sig) db -> db_find db key = Some sig.
Proof.
  induction db as [| [k s] db IH]; cbn [db_find map fst]; [intros _ [] |].
  intros Hnd Hin. apply NoDup_cons in Hnd as [Hk Hnd].
  destruct Hin as [[= -> ->] | Hin].
  - rewrite Z.eqb_refl. reflexivity.
  - destruct (Z.eqb_spec k key) as [-> | Hne].
    + exfalso. apply Hk. apply list_elem_of_In.
      apply (List.in_map fst) in Hin. exact Hin.
    + apply IH; assumption.
Qed.

Section FindMore.

Variable memory : Z -> Z.

Lemma fuzzy_scan_member (db : signature_table) code sig :
  fuzzy_scan memory db code = Some sig -> exists key, In (key, sig) db.
Proof.
  induction db as [| [k s] db IH]; cbn [fuzzy_scan]; [discriminate |].
  destruct (negb (sig_size s =? Z.of_nat (length code))).
  - intros H. destruct (IH H) as [key Hin]. exists key. right. exact Hin.
  - cbv zeta.
    destruct (float_ge (compare_blocks_with_mask code (reference_bytes memory s) (sig_mask s))
                       (similarity_threshold s)).
    + intros [= <-]. exists k. left. reflexivity.
    + intros H. destruct (IH H) as [key Hin]. exists key. right. exact Hin.
Qed.

(** X11: a signature made by [create_signature] from some code records the
    code's size and hash, and once added to any table, [find_match] on that
    code with an empty match cache returns it by the exact-hash path and
    leaves the match cache empty. *)
Theorem created_signature_is_found :
  forall (db : signature_table) (code : list Z) (type : BlockType) (address : Z)
         (mask : list Z) (threshold : spec_float),
    let signature := create_signature code type address mask threshold in
    find_match memory (add_signature db signature) ∅ code = ((true, signature), ∅)
    /\ sig_size signature = Z.of_nat (length code)
    /\ sig_hash signature = calculate_hash code.
Proof.
  intros db code type address mask threshold signature.
  split; [| split; reflexivity].
  unfold find_match. rewrite lookup_empty.
  destruct (add_signature_then_find db signature) as (Hfind & _).
  change (calculate_hash code) with (sig_hash signature). rewrite Hfind. reflexivity.
Qed.

(** X12: on a table with one pair per key, each signature under its own
    hash, asking [find_match] the same question again, with the match cache
    the first call left, gives the same answer and the same match cache. *)
Theorem find_match_memo_stable :
  forall (db : signature_table) (match_cache : gmap Z Z) (code : list Z),
    table_ok db ->
    let result := find_match memory db match_cache code in
    find_match memory db (snd result) code = result.
Proof.
  intros db match_cache code [Hnd Hkeyed] result. subst result. unfold find_match.
  destruct (match_cache !! calculate_hash code) as [stored |] eqn:Hmemo.
  - destruct (db_find db stored) as [sig |] eqn:Hstored.
    + cbn [snd]. rewrite ?Hmemo, ?Hstored. reflexivity.
    + destruct (db_find db (calculate_hash code)) as [sig |] eqn:Hexact.
      * cbn [snd]. rewrite ?Hmemo, ?Hstored, ?Hexact. reflexivity.
      * destruct (fuzzy_scan memory db code) as [sig |] eqn:Hfuzzy.
        -- cbn [snd]. rewrite lookup_insert_eq.
           destruct (fuzzy_scan_member db code sig Hfuzzy) as [key Hin].
           assert (Hkey : key = sig_hash sig).
           { rewrite List.Forall_forall in Hkeyed. apply (Hkeyed _ Hin). }
           subst key. rewrite (db_find_member db _ sig Hnd Hin).
           reflexivity.
        -- cbn [snd]. rewrite ?Hmemo, ?Hstored, ?Hexact, ?Hfuzzy. reflexivity.
  - destruct (db_find db (calculate_hash code)) as [sig |] eqn:Hexact.
    + cbn [snd]. rewrite ?Hmemo, ?Hexact. reflexivity.
    + destruct (fuzzy_scan memory db code) as [sig |] eqn:Hfuzzy.
      * cbn [snd]. rewrite lookup_insert_eq.
        destruct (fuzzy_scan_member db code sig Hfuzzy) as [key Hin].
        assert (Hkey : key = sig_hash sig).
        { rewrite List.Forall_forall in Hkeyed. apply (Hkeyed _ Hin). }
        subst key. rewrite (db_find_member db _ sig Hnd Hin).
        reflexivity.
      * cbn [snd]. rewrite ?Hmemo, ?Hexact, ?Hfuzzy. reflexivity.
Qed.

End FindMore.

Lemma find_match_memo_stable_witness :
  table_ok Samples.one_signature
  /\ find_match Samples.sample_memory Samples.one_signature
                (snd (find_match Samples.sample_memory Samples.one_signature ∅
                                 Samples.query_equal))
                Samples.query_equal
     = find_match Samples.sample_memory Samples.one_signature ∅ Samples.query_equal.
Proof.
  assert (H : table_ok Samples.one_signature).
  { split.
    - apply NoDup_singleton.
    - repeat constructor. }
  split; [exact H |].
  apply (find_match_memo_stable Samples.sample_memory Samples.one_signature ∅
           Samples.query_equal H).
Defined.

(** *** Pattern mining *)

Lemma slice_length (v : list Z) start len :
  (start + len <= length v)%nat -> length (slice v start len) = len.
Proof. intros H. unfold slice. rewrite length_firstn, length_skipn. lia. Qed.

Lemma bytes_match_equal (pattern : list Z) : forall other : list Z,
  length other = length pattern -> bytes_match pattern other = true -> other = pattern.
Proof.
  induction pattern as [| p ps IH]; intros [| o os] Hlen Hm; try discriminate;
    [reflexivity |].
  cbn [bytes_match] in Hm. destruct (Z.eqb_spec p o) as [-> | Hne]; [| discriminate].
  cbn [negb] in Hm. injection Hlen as Hlen. f_equal. apply IH; assumption.
Qed.

Lemma occurrences_in_equal pattern pattern_len other_block occurrence :
  length pattern = pattern_len ->
  In occurrence (occurrences_in pattern pattern_len other_block) ->
  occurrence = pattern.
Proof.
  intros Hlen Hin. unfold occurrences_in in Hin.
  apply List.filter_In in Hin as [Hin Hmatch].
  apply List.in_map_iff in Hin as (start & <- & Hstart).
  apply List.in_seq in Hstart.
  apply bytes_match_equal; [| exact Hmatch].
  rewrite slice_length by lia. congruence.
Qed.

Lemma other_occurrences_equal code_blocks i pattern pattern_len occurrence :
  length pattern = pattern_len ->
  In occurrence (other_occurrences code_blocks i pattern pattern_len) ->
  occurrence = pattern.
Proof.
  intros Hlen Hin. unfold other_occurrences in Hin.
  apply List.in_concat in Hin as (group & Hgroup & Hin).
  apply List.in_map_iff in Hgroup as ([j other] & <- & _). cbn [fst snd] in Hin.
  destruct (i =? j)%nat; [destruct Hin |].
  eapply occurrences_in_equal; eassumption.
Qed.

Lemma mark_differences_same (reference : list Z) : forall mask : list Z,
  mark_differences reference reference mask = mask.
Proof.
  induction reference as [| r rs IH]; intros [| m ms]; try reflexivity.
  cbn [mark_differences]. rewrite Z.eqb_refl, IH. reflexivity.
Qed.

Lemma mask_variants_same reference variants (mask : list Z) :
  Forall (fun variant => variant = reference) variants ->
  mask_variants reference variants mask = mask.
Proof.
  intros Hall. induction Hall as [| variant rest -> _ IH]; cbn [mask_variants];
    [reflexivity |].
  rewrite Nat.eqb_refl. cbn [negb]. rewrite mark_differences_same. exact IH.
Qed.


(** *** Function signatures *)

Lemma slice_four (data : list Z) : forall i : nat,
  (i + 4 <= length data)%nat ->
  slice data i 4 = [nth i data 0; nth (i + 1) data 0; nth (i + 2) data 0; nth (i + 3) data 0].
Proof.
  unfold slice. induction data as [| b data IH]; intros i Hlen.
  - cbn [length] in Hlen. lia.
  - destruct i as [| i].
    + destruct data as [| b1 [| b2 [| b3 data]]]; cbn [length] in Hlen; try lia.
      reflexivity.
    + cbn [skipn Nat.add nth]. apply IH. cbn [length] in Hlen. lia.
Qed.

Lemma scan_for_ret_spec (rest : list Z) : forall end_ : nat,
  let found := scan_for_ret rest end_ in
  (end_ <= found <= end_ + length rest)%nat
  /\ Forall (fun b => b <> 0xC3) (firstn (found - end_ - 1) rest)
  /\ ((end_ < found)%nat /\ nth (found - end_ - 1) rest 0 = 0xC3
      \/ found = (end_ + length rest)%nat).
Proof.
  induction rest as [| b rest IH]; intros end_; cbn zeta.
  - cbn [scan_for_ret length]. replace (end_ - end_ - 1)%nat with 0%nat by lia.
    split; [lia |]. split; [constructor | right; lia].
  - cbn [scan_for_ret length]. destruct (Z.eqb_spec b 0xC3) as [Hb | Hb].
    + replace (S end_ - end_ - 1)%nat with 0%nat by lia.
      split; [lia |]. split; [constructor | left; split; [lia | exact Hb]].
    + specialize (IH (S end_)). cbn zeta in IH. destruct IH as (Hbounds & Hnone & Hlast).
      split; [lia |].
      destruct Hlast as [[Hlt Hlast] | Hlast].
      * replace (scan_for_ret rest (S end_) - end_ - 1)%nat
          with (S (scan_for_ret rest (S end_) - S end_ - 1)) by lia.
        cbn [firstn nth]. split; [constructor; assumption |].
        left. split; [lia | exact Hlast].
      * split; [| right; lia].
        destruct (scan_for_ret rest (S end_) - end_ - 1)%nat as [| k] eqn:Hk;
          [constructor |].
        replace k with (scan_for_ret rest (S end_) - S end_ - 1)%nat by lia.
        cbn [firstn]. constructor; assumption.
Qed.

Lemma mask_offsets_shape offset_size : forall first size (mask : list Z),
  Forall (fun m => m = 0 \/ m = 1) mask ->
  length (mask_offsets offset_size first size mask) = length mask
  /\ Forall (fun m => m = 0 \/ m = 1) (mask_offsets offset_size first size mask).
Proof.
  induction offset_size as [| n IH]; intros first size mask Hbits; cbn [mask_offsets].
  - split; [reflexivity | exact Hbits].
  - destruct (first <? size)%nat; [| split; [reflexivity | exact Hbits]].
    destruct (IH (S first) size (<[first := 0]> mask)) as [Hlen Hall].
    + apply Forall_insert; [exact Hbits | left; reflexivity].
    + rewrite Hlen, length_insert. split; [reflexivity | exact Hall].
Qed.

Lemma mask_jumps_shape code todo : forall mask : list Z,
  Forall (fun m => m = 0 \/ m = 1) mask ->
  length (mask_jumps code todo mask) = length mask
  /\ Forall (fun m => m = 0 \/ m = 1) (mask_jumps code todo mask).
Proof.
  induction todo as [| i todo IH]; intros mask Hbits; cbn [mask_jumps].
  - split; [reflexivity | exact Hbits].
  - cbv zeta.
    destruct ((0x70 <=? byte_at code (Z.of_nat i)) && (byte_at code (Z.of_nat i) <=? 0x7F)
              || (byte_at code (Z.of_nat i) =? 0xE8)
              || (byte_at code (Z.of_nat i) =? 0xE9)); [| apply IH; exact Hbits].
    match goal with
    | |- context [mask_offsets ?n ?f ?s mask] =>
        destruct (mask_offsets_shape n f s mask Hbits) as [Hlen Hall]
    end.
    destruct (IH _ Hall) as [Hlen' Hall']. rewrite Hlen', Hlen.
    split; [reflexivity | exact Hall'].
Qed.

(** A masked byte always follows a jump or call opcode: the first byte of
    the code is never masked. *)
Lemma mask_offsets_first offset_size : forall first size (mask : list Z),
  (0 < first)%nat ->
  nth 0 (mask_offsets offset_size first size mask) 1 = nth 0 mask 1.
Proof.
  induction offset_size as [| n IH]; intros first size mask Hpos; cbn [mask_offsets];
    [reflexivity |].
  destruct (first <? size)%nat; [| reflexivity].
  rewrite IH by lia. destruct mask as [| m mask]; [reflexivity |].
  destruct first as [| first]; [lia | reflexivity].
Qed.

Lemma mask_jumps_first code todo : forall mask : list Z,
  nth 0 (mask_jumps code todo mask) 1 = nth 0 mask 1.
Proof.
  induction todo as [| i todo IH]; intros mask; cbn [mask_jumps]; [reflexivity |].
  cbv zeta.
  destruct ((0x70 <=? byte_at code (Z.of_nat i)) && (byte_at code (Z.of_nat i) <=? 0x7F)
            || (byte_at code (Z.of_nat i) =? 0xE8)
            || (byte_at code (Z.of_nat i) =? 0xE9)); [| apply IH].
  rewrite IH. apply mask_offsets_first. lia.
Qed.

Lemma function_offset_recovered base (i : nat) :
  Z.of_nat i < 2 ^ 64 -> Z.to_nat (u64 (u64 (base + Z.of_nat i) - base)) = i.
Proof.
  intros Hi. unfold u64. rewrite Zminus_mod_idemp_l.
  replace (base + Z.of_nat i - base) with (Z.of_nat i) by lia.
  rewrite Z.mod_small by lia. apply Nat2Z.id.
Qed.

(** X14: for data of at least three and fewer than 2^64 bytes, every
    signature [analyze_and_generate_signatures] builds for a function starts
    at the prologue 55 48 89 E5, spans at least 4 and fewer than 10000 bytes
    inside the data, has no RET before its last byte and ends with RET or
    with the data, carries the hash of those bytes, type FUNCTION and
    threshold 0.85f, and a mask of zeros and ones of the same length whose
    first byte is significant. *)
Theorem function_signatures_shape :
  forall (binary_data : list Z) (base_address : Z),
    (3 <= length binary_data)%nat ->
    Z.of_nat (length binary_data) < 2 ^ 64 ->
    Forall (fun sig =>
      exists i size : nat,
        sig_address sig = u64 (base_address + Z.of_nat i)
        /\ sig_size sig = Z.of_nat size
        /\ (4 <= size)%nat
        /\ Z.of_nat size < 10000
        /\ (i + size <= length binary_data)%nat
        /\ slice binary_data i 4 = [0x55; 0x48; 0x89; 0xE5]
        /\ Forall (fun b => b <> 0xC3) (slice binary_data (i + 4) (size - 5))
        /\ (nth (i + size - 1) binary_data 0 = 0xC3
            \/ (i + size)%nat = length binary_data)
        /\ sig_hash sig = XXHash.XXH64 (slice binary_data i size) 0
        /\ sig_type sig = FUNCTION
        /\ similarity_threshold sig = float_0_85
        /\ length (sig_mask sig) = size
        /\ Forall (fun m => m = 0 \/ m = 1) (sig_mask sig)
        /\ nth 0 (sig_mask sig) 1 = 1)
      (function_signatures binary_data base_address).
Proof.
  intros binary_data base_address Hmin Hmax. apply List.Forall_forall. intros sig Hin.
  unfold function_signatures in Hin.
  apply List.in_map_iff in Hin as ([address size] & <- & Hin).
  unfold find_functions in Hin.
  apply List.in_concat in Hin as (found & Hfound & Hin).
  apply List.in_map_iff in Hfound as (i & <- & Hi). apply List.in_seq in Hi.
  unfold function_at in Hin.
  destruct ((byte_at binary_data (Z.of_nat i) =? 0x55)
            && (byte_at binary_data (Z.of_nat i + 1) =? 0x48)
            && (byte_at binary_data (Z.of_nat i + 2) =? 0x89)
            && (byte_at binary_data (Z.of_nat i + 3) =? 0xE5)) eqn:Hprologue;
    [| destruct Hin].
  apply andb_prop in Hprologue as [Hprologue H3].
  apply andb_prop in Hprologue as [Hprologue H2].
  apply andb_prop in Hprologue as [H0 H1].
  apply Z.eqb_eq in H0, H1, H2, H3. unfold byte_at in H0, H1, H2, H3.
  rewrite Nat2Z.id in H0.
  replace (Z.to_nat (Z.of_nat i + 1)) with (i + 1)%nat in H1 by lia.
  replace (Z.to_nat (Z.of_nat i + 2)) with (i + 2)%nat in H2 by lia.
  replace (Z.to_nat (Z.of_nat i + 3)) with (i + 3)%nat in H3 by lia.
  cbv zeta in Hin.
  pose proof (scan_for_ret_spec (skipn (i + 4) binary_data) (i + 4)) as Hscan.
  cbn zeta in Hscan. rewrite length_skipn in Hscan.
  set (end_ := scan_for_ret (skipn (i + 4) binary_data) (i + 4)) in *.
  destruct Hscan as (Hbounds & Hnone & Hlast).
  destruct ((i <? end_)%nat && (Z.of_nat (end_ - i) <? 10000)) eqn:Hsize; [| destruct Hin].
  apply andb_prop in Hsize as [_ Hsize]. apply Z.ltb_lt in Hsize.
  destruct Hin as [Hin | []]. injection Hin as <- <-.
  assert (Hroom : (i + (end_ - i) <= length binary_data)%nat) by lia.
  exists i, (end_ - i)%nat.
  unfold function_signature.
  cbn [fst snd sig_address sig_size sig_hash sig_type similarity_threshold sig_mask].
  rewrite function_offset_recovered by lia.
  rewrite (slice_length binary_data i (end_ - i)) by exact Hroom.
  split; [reflexivity |]. split; [reflexivity |]. split; [lia |]. split; [exact Hsize |].
  split; [exact Hroom |].
  split; [rewrite slice_four by lia; congruence |].
  split.
  { unfold slice. replace (end_ - i - 5)%nat with (end_ - (i + 4) - 1)%nat by lia.
    exact Hnone. }
  split.
  { destruct Hlast as [[Hlt Hlast] | Hlast]; [left | right; lia].
    rewrite nth_skipn in Hlast.
    replace (i + (end_ - i) - 1)%nat with (i + 4 + (end_ - (i + 4) - 1))%nat by lia.
    exact Hlast. }
  split; [reflexivity |]. split; [reflexivity |]. split; [reflexivity |].
  assert (Hones : Forall (fun m => m = 0 \/ m = 1) (repeat 1 (end_ - i))).
  { apply List.Forall_forall. intros m Hm. apply repeat_spec in Hm. right. exact Hm. }
  destruct (mask_jumps_shape (slice binary_data i (end_ - i)) (seq 0 (end_ - i - 1))
              (repeat 1 (end_ - i)) Hones) as [Hlen Hall].
  rewrite Hlen, repeat_length. split; [reflexivity |]. split; [exact Hall |].
  rewrite mask_jumps_first. destruct (end_ - i)%nat eqn:Hn; [lia | reflexivity].
Qed.

Lemma function_signatures_shape_witness :
  (3 <= length MoreSamples.binary_with_function)%nat
  /\ Z.of_nat (length MoreSamples.binary_with_function) < 2 ^ 64
  /\ Forall (fun sig => 4 <= sig_size sig < 10000
                        /\ Z.of_nat (length (sig_mask sig)) = sig_size sig)
            (function_signatures MoreSamples.binary_with_function 0x400000).
Proof.
  assert (H1 : (3 <= length MoreSamples.binary_with_function)%nat) by (vm_compute; lia).
  assert (H2 : Z.of_nat (length MoreSamples.binary_with_function) < 2 ^ 64)
    by (vm_compute; reflexivity).
  split; [exact H1 |]. split; [exact H2 |].
  eapply List.Forall_impl;
    [| exact (function_signatures_shape MoreSamples.binary_with_function 0x400000 H1 H2)].
  intros sig (i & size & _ & -> & Hmin & Hmax & _ & _ & _ & _ & _ & _ & _ & -> & _).
  lia.
Defined.

End SignatureToolsFacts.

(** ** Tier 1: the invariant, store and lookup *)

Module CacheTierFacts.
Import Word Cache CacheInvariants.
Import CacheFacts.

Lemma same_block_key addr hash e :
  same_block addr hash e = true <-> entry_key e = (addr, hash).
Proof.
  unfold same_block, entry_key. rewrite andb_true_iff, !Z.eqb_eq.
  split; [intros [-> ->]; reflexivity | intros [= -> ->]; split; reflexivity].
Qed.

Lemma key_not_in_tier1 addr hash l1 :
  Forall (fun e => same_block addr hash e = false) l1 ->
  ~ In (addr, hash) (map entry_key l1).
Proof.
  intros Hall Hin. apply List.in_map_iff in Hin as (e & Hkey & Hin).
  rewrite List.Forall_forall in Hall. specialize (Hall e Hin).
  apply same_block_key in Hkey. congruence.
Qed.

Lemma split_last_inv {A : Type} (p : A -> bool) (l pre : list A) (x : A) (post : list A) :
  split_last p l = Some (pre, x, post) -> l = pre ++ x :: post.
Proof.
  unfold split_last.
  destruct (split_first p (rev l)) as [[[pre' x'] post'] |] eqn:Hs; [| discriminate].
  intros [= <- <- <-]. apply split_first_inv in Hs as (Hrev & _ & _).
  rewrite <- (rev_involutive l), Hrev, rev_app_distr. cbn [rev].
  rewrite <- app_assoc. reflexivity.
Qed.

(** Eviction erases exactly one element of a non-empty vector. *)
Lemma evict_erases_one l1 :
  l1 <> [] -> exists pre victim post, l1 = pre ++ victim :: post /\ evict l1 = pre ++ post.
Proof.
  intros Hne. unfold evict.
  destruct (split_last (fun e => negb (is_hot e)) l1) as [[[pre victim] post] |] eqn:Hs.
  - exists pre, victim, post. split; [eapply split_last_inv; exact Hs | reflexivity].
  - exists (removelast l1), (List.last l1 (mkEntry 0 0 0 0 0 0 0 false 0)), [].
    rewrite app_nil_r. split; [apply app_removelast_last; exact Hne | reflexivity].
Qed.

Lemma moved_to_front_ok pre it post head :
  entry_key head = entry_key it ->
  l1_ok (pre ++ it :: post) -> l1_ok (head :: pre ++ post).
Proof.
  intros Hkey [Hnodup Hsize]. split.
  - rewrite map_app in Hnodup. cbn [map] in Hnodup.
    rewrite <- Permutation_middle in Hnodup.
    cbn [map]. rewrite Hkey, map_app. exact Hnodup.
  - rewrite length_app in Hsize. cbn [length] in *. rewrite length_app. lia.
Qed.

Lemma save_to_l1_cache_ok now l1 entry :
  l1_ok l1 -> l1_ok (save_to_l1_cache now l1 entry).
Proof.
  intros Hok. unfold save_to_l1_cache.
  destruct (split_first (same_block (x86_addr entry) (x86_hash entry)) l1)
    as [[[pre it] post] |] eqn:Hs.
  - apply split_first_inv in Hs as (-> & _ & _).
    eapply moved_to_front_ok; [| exact Hok]. reflexivity.
  - apply split_first_none_inv in Hs. pose proof (key_not_in_tier1 _ _ _ Hs) as Hfresh.
    destruct Hok as [Hnodup Hsize]. unfold MAX_L1_CACHE_ENTRIES in *.
    destruct (1024 <=? Z.of_nat (length l1)) eqn:Hfull.
    + apply Z.leb_le in Hfull.
      destruct (evict_erases_one l1) as (pre & victim & post & Hl1 & ->).
      { intros ->. cbn [length] in Hfull. lia. }
      subst l1. rewrite map_app in Hnodup, Hfresh. cbn [map] in Hnodup, Hfresh.
      rewrite <- Permutation_middle in Hnodup.
      apply NoDup_cons in Hnodup as [_ Hrest]. split.
      * cbn [map]. rewrite map_app. apply NoDup_cons. split; [| exact Hrest].
        unfold entry_key at 1. cbn [x86_addr x86_hash].
        rewrite list_elem_of_In. intros Hin. apply Hfresh.
        apply in_app_iff in Hin as [Hin | Hin];
          apply in_app_iff; [left | right; right]; exact Hin.
      * unfold MAX_L1_CACHE_ENTRIES. rewrite length_app in Hsize. cbn [length] in *.
        rewrite length_app. lia.
    + apply Z.leb_gt in Hfull. split.
      * cbn [map]. apply NoDup_cons. split; [| exact Hnodup].
        rewrite list_elem_of_In. exact Hfresh.
      * unfold MAX_L1_CACHE_ENTRIES. cbn [length]. lia.
Qed.

(** The entry [save_to_l1_cache] leaves at the most-recently-used end. *)
Lemma save_to_l1_cache_head now l1 entry :
  exists head rest,
    save_to_l1_cache now l1 entry = head :: rest
    /\ x86_addr head = x86_addr entry /\ x86_hash head = x86_hash entry
    /\ arm_addr head = arm_addr entry /\ arm_size head = arm_size entry
    /\ last_access head = now.
Proof.
  unfold save_to_l1_cache.
  destruct (split_first (same_block (x86_addr entry) (x86_hash entry)) l1)
    as [[[pre it] post] |] eqn:Hs.
  - apply split_first_inv in Hs as (_ & _ & Hit).
    apply andb_prop in Hit as [Haddr Hhash]. apply Z.eqb_eq in Haddr, Hhash.
    eexists _, _. split; [reflexivity |]. cbn. auto.
  - eexists _, _. split; [reflexivity |]. cbn. auto.
Qed.

(** What [lookup_l2_cache] does to the cache object and, on a miss, to the
    disk. *)
Lemma lookup_l2_cache_effect now c disk cache_file addr block_hash :
  match lookup_l2_cache now c disk cache_file addr block_hash with
  | (Some _, c', _) =>
      c' = mkCache (cache_directory c) (l1_cache c) (binary_cache_map c)
                   (l1_hits c) (l2_hits c + 1) (misses c)
  | (None, c', disk') => c' = c /\ disk' = disk
  end.
Proof.
  unfold lookup_l2_cache.
  destruct (open_in disk cache_file) as [file |]; [| split; reflexivity].
  destruct (read 64 file) as [header file1].
  destruct (header_invalid header); [split; reflexivity |].
  destruct (read (Z.to_nat (hdr_entry_count header) * 64) file1) as [raw file2].
  destruct (split_first _ _) as [[[pre it] post] |]; [| split; reflexivity].
  destruct (read (Z.to_nat (fe_arm_size it)) _) as [code file3].
  reflexivity.
Qed.

(** The sample cache of two blocks is within the limits of tier 1. *)
Lemma cache_ab_l1_ok : l1_ok (l1_cache Samples.cache_ab).
Proof.
  split; [| vm_compute; discriminate].
  vm_compute. apply NoDup_cons. split; [| apply NoDup_singleton].
  rewrite list_elem_of_In. intros [Heq | []]. discriminate Heq.
Qed.

(** X15: [store] and [lookup] keep tier 1 within [MAX_L1_CACHE_ENTRIES]
    entries and with at most one entry per (address, hash) key. *)
Theorem tier1_invariant_kept :
  forall (now : Z) (c : TranslationCache),
    l1_ok (l1_cache c) ->
    (forall binary_id addr x86_code arm_addr arm_code,
        l1_ok (l1_cache (store now c binary_id addr x86_code arm_addr arm_code)))
    /\ (forall disk binary_id addr x86_code,
           l1_ok (l1_cache (snd (fst (lookup now c disk binary_id addr x86_code))))).
Proof.
  intros now c Hok. split.
  - intros. unfold store, with_l1. cbn [l1_cache]. apply save_to_l1_cache_ok. exact Hok.
  - intros disk binary_id addr x86_code. unfold lookup, lookup_l1_cache.
    destruct (split_first (same_block addr (hash_block x86_code)) (l1_cache c))
      as [[[pre it] post] |] eqn:Hs.
    + cbn [fst snd l1_cache]. apply split_first_inv in Hs as (Hl1 & _ & _).
      rewrite Hl1 in Hok. eapply moved_to_front_ok; [| exact Hok]. reflexivity.
    + destruct (binary_cache_map c !! binary_id) as [cache_file |];
        [| cbn [fst snd l1_cache]; exact Hok].
      destruct (lookup_l2_cache now c disk cache_file addr (hash_block x86_code))
        as [[[[e arm_code] |] c'] disk'] eqn:Hl2; [| cbn [fst snd l1_cache]; exact Hok].
      cbn [fst snd]. unfold with_l1. cbn [l1_cache].
      apply save_to_l1_cache_ok.
      pose proof (lookup_l2_cache_effect now c disk cache_file addr (hash_block x86_code))
        as Heffect.
      rewrite Hl2 in Heffect. subst c'. exact Hok.
Qed.

Lemma tier1_invariant_kept_witness :
  l1_ok (l1_cache Samples.cache_ab)
  /\ l1_ok (l1_cache (store 1003 Samples.cache_ab Samples.binary_id 0x1020 [0x90] 20
                            Samples.nop_bytes)).
Proof.
  split; [exact cache_ab_l1_ok |].
  apply (tier1_invariant_kept 1003 Samples.cache_ab cache_ab_l1_ok).
Defined.

(** X16: a block just stored is at the most-recently-used end of tier 1,
    with the host address and size given to [store], and a [lookup] of it
    under any binary id is a tier-1 hit that returns that entry, hands back
    no host code, leaves the disk alone and counts one tier-1 hit. *)
Theorem store_then_lookup_hits_tier1 :
  forall (now later : Z) (c : TranslationCache) (disk : gmap string (list Z))
         (binary_id other_id : string) (addr : Z) (x86_code : list Z) (host_addr : Z)
         (arm_code : list Z),
    let stored := store now c binary_id addr x86_code host_addr arm_code in
    exists e rest,
      l1_cache stored = e :: rest
      /\ x86_addr e = addr /\ x86_hash e = hash_block x86_code
      /\ arm_addr e = host_addr /\ arm_size e = Z.of_nat (length arm_code)
      /\ last_access e = now
      /\ lookup later stored disk other_id addr x86_code
         = (mkResult L1_MEMORY (Some e) true, [],
            mkCache (cache_directory c) (touch later e :: rest) (binary_cache_map c)
                    (l1_hits c + 1) (l2_hits c) (misses c),
            disk).
Proof.
  intros now later c disk binary_id other_id addr x86_code arm_addr0 arm_code stored.
  subst stored. unfold store, with_l1.
  destruct (save_to_l1_cache_head now (l1_cache c)
              (mkEntry addr arm_addr0 (Z.of_nat (length x86_code))
                       (Z.of_nat (length arm_code)) (hash_block x86_code) now 1 false 0))
    as (head & rest & Hsave & Haddr & Hhash & Harm & Hsize & Hlast).
  cbn [x86_addr x86_hash arm_addr arm_size] in Haddr, Hhash, Harm, Hsize.
  exists head, rest. cbn [l1_cache]. rewrite Hsave.
  repeat (split; [assumption || reflexivity |]).
  unfold lookup, lookup_l1_cache. cbn [l1_cache split_first].
  replace (same_block addr (hash_block x86_code) head) with true; [reflexivity |].
  symmetry. apply same_block_key. unfold entry_key. congruence.
Qed.

(** X17: every [lookup] adds one to exactly one of the three counters, the
    one of the level it reports, and leaves the directory and the binary map
    alone; a tier-1 hit and a miss leave the disk alone and hand back no
    host code; a miss also leaves tier 1 alone. *)
Theorem lookup_counts_one_outcome :
  forall (now : Z) (c : TranslationCache) (disk : gmap string (list Z))
         (binary_id : string) (addr : Z) (x86_code : list Z),
    let '(result, arm_code, c', disk') := lookup now c disk binary_id addr x86_code in
    cache_directory c' = cache_directory c
    /\ binary_cache_map c' = binary_cache_map c
    /\ match level result with
       | L1_MEMORY =>
           found result = true /\ arm_code = [] /\ disk' = disk
           /\ l1_hits c' = l1_hits c + 1 /\ l2_hits c' = l2_hits c /\ misses c' = misses c
       | L2_PERSISTENT =>
           found result = true
           /\ l1_hits c' = l1_hits c /\ l2_hits c' = l2_hits c + 1 /\ misses c' = misses c
       | NOT_FOUND =>
           found result = false /\ entry result = None /\ arm_code = [] /\ disk' = disk
           /\ l1_cache c' = l1_cache c
           /\ l1_hits c' = l1_hits c /\ l2_hits c' = l2_hits c /\ misses c' = misses c + 1
       end.
Proof.
  intros now c disk binary_id addr x86_code. unfold lookup, lookup_l1_cache.
  destruct (split_first (same_block addr (hash_block x86_code)) (l1_cache c))
    as [[[pre it] post] |] eqn:Hs.
  - cbn. repeat split.
  - destruct (binary_cache_map c !! binary_id) as [cache_file |]; [| cbn; repeat split].
    destruct (lookup_l2_cache now c disk cache_file addr (hash_block x86_code))
      as [[[[e arm_code] |] c'] disk'] eqn:Hl2; [| cbn; repeat split].
    pose proof (lookup_l2_cache_effect now c disk cache_file addr (hash_block x86_code))
      as Heffect.
    rewrite Hl2 in Heffect. subst c'. cbn. repeat split.
Qed.

End CacheTierFacts.

(** ** Tier 2: the cache file and its read-back *)

Module CacheFileFacts.
Import Word Cache CacheInvariants.
Import CacheFacts CacheTierFacts.
Import TranslatorBlockFacts.

(** *** Little-endian fields *)

Lemma length_le_bytes n : forall x, length (le_bytes n x) = n.
Proof. induction n as [| n IH]; intros x; cbn [le_bytes length]; [| rewrite IH]; reflexivity. Qed.

Lemma le_value_le_bytes n : forall x, le_value (le_bytes n x) = x mod 256 ^ Z.of_nat n.
Proof.
  induction n as [| n IH]; intros x.
  - cbn [le_bytes le_value]. rewrite Z.pow_0_r, Z.mod_1_r. reflexivity.
  - cbn [le_bytes le_value]. rewrite IH, Nat2Z.inj_succ, Z.pow_succ_r by lia.
    rewrite Z.rem_mul_r by lia. reflexivity.
Qed.

Lemma get_field_skip (a rest : list Z) off n :
  (length a <= off)%nat -> get_field (a ++ rest) off n = get_field rest (off - length a) n.
Proof.
  intros Hle. unfold get_field. rewrite skipn_app, skipn_all2 by exact Hle. reflexivity.
Qed.

Lemma get_field_here n v rest : get_field (le_bytes n v ++ rest) 0 n = v mod 256 ^ Z.of_nat n.
Proof.
  unfold get_field. change (skipn 0 (le_bytes n v ++ rest)) with (le_bytes n v ++ rest).
  rewrite firstn_exact by apply length_le_bytes.
  apply le_value_le_bytes.
Qed.

Ltac skip_fields :=
  repeat (rewrite get_field_skip by (rewrite ?length_le_bytes, ?repeat_length; cbn; lia);
          rewrite ?length_le_bytes, ?repeat_length; cbn [Nat.sub]).

Lemma length_make_header a b c d e f g : length (make_header a b c d e f g) = 64%nat.
Proof. unfold make_header. rewrite !length_app, !length_le_bytes, !repeat_length. reflexivity. Qed.

Lemma length_make_file_entry a b c d e f g h :
  length (make_file_entry a b c d e f g h) = 64%nat.
Proof.
  unfold make_file_entry. rewrite !length_app, !length_le_bytes, !repeat_length. reflexivity.
Qed.

Lemma header_fields a b c d e f g :
  let header := make_header a b c d e f g in
  hdr_magic header = a mod 2 ^ 64
  /\ hdr_version header = b mod 2 ^ 32
  /\ hdr_entry_count header = c mod 2 ^ 32
  /\ hdr_x86_hash header = d mod 2 ^ 64.
Proof.
  cbv zeta. unfold hdr_magic, hdr_version, hdr_entry_count, hdr_x86_hash, make_header.
  repeat split; skip_fields; apply get_field_here.
Qed.

Lemma file_entry_fields a b c d e f g h :
  let it := make_file_entry a b c d e f g h in
  fe_x86_addr it = a mod 2 ^ 64
  /\ fe_x86_size it = b mod 2 ^ 32
  /\ fe_x86_hash it = c mod 2 ^ 64
  /\ fe_arm_offset it = d mod 2 ^ 64
  /\ fe_arm_size it = e mod 2 ^ 32
  /\ fe_execution_count it = f mod 2 ^ 32
  /\ fe_last_execution it = g mod 2 ^ 64
  /\ fe_flags it = h mod 2 ^ 32.
Proof.
  cbv zeta.
  unfold fe_x86_addr, fe_x86_size, fe_x86_hash, fe_arm_offset, fe_arm_size,
    fe_execution_count, fe_last_execution, fe_flags, make_file_entry.
  repeat split; skip_fields; apply get_field_here.
Qed.

(** *** The file [save_l2_cache] writes *)

Lemma write_entries_records now entries : forall off,
  write_entries now entries off = concat (records now entries off).
Proof.
  induction entries as [| e rest IH]; intros off; cbn [write_entries records concat];
    [| rewrite IH]; reflexivity.
Qed.

Lemma records_shape now entries : forall off,
  length (records now entries off) = length entries
  /\ Forall (fun r => length r = 64%nat) (records now entries off).
Proof.
  induction entries as [| e rest IH]; intros off; cbn [records length].
  - split; [reflexivity | constructor].
  - destruct (IH (u64 (off + arm_size e))) as [Hlen Hall]. split; [rewrite Hlen; reflexivity |].
    constructor; [apply length_make_file_entry | exact Hall].
Qed.

Lemma length_concat_records (rs : list (list Z)) :
  Forall (fun r => length r = 64%nat) rs -> length (concat rs) = (length rs * 64)%nat.
Proof.
  intros Hall. induction Hall as [| r rs Hr _ IH]; cbn [concat length]; [reflexivity |].
  rewrite length_app, Hr, IH. lia.
Qed.

Lemma skipn_exact {A : Type} (l r : list A) n : length l = n -> skipn n (l ++ r) = r.
Proof.
  intros <-. rewrite skipn_app, skipn_all, Nat.sub_diag. reflexivity.
Qed.

Lemma file_entries_concat (rs : list (list Z)) :
  Forall (fun r => length r = 64%nat) rs -> file_entries (length rs) (concat rs) = rs.
Proof.
  unfold file_entries. intros Hall.
  induction Hall as [| r rs Hr _ IH]; [reflexivity |].
  cbn [length seq map concat]. f_equal.
  - change (64 * 0)%nat with 0%nat. change (skipn 0 (r ++ concat rs)) with (r ++ concat rs).
    apply firstn_exact. exact Hr.
  - rewrite <- seq_shift, map_map. rewrite <- IH at 2. apply map_ext. intros i.
    replace (64 * S i)%nat with (64 * i + 64)%nat by lia.
    rewrite <- skipn_skipn. rewrite skipn_exact by exact Hr. reflexivity.
Qed.

(** *** Reads *)

Lemma read_exact (before wanted after : list Z) :
  read (length wanted) (mkIn (before ++ wanted ++ after) (length before) false)
  = (wanted, mkIn (before ++ wanted ++ after) (length before + length wanted) false).
Proof.
  unfold read. cbn [failbit gpos content].
  rewrite skipn_exact by reflexivity. rewrite firstn_exact by reflexivity.
  rewrite Nat.ltb_irrefl. reflexivity.
Qed.

Lemma read_bytes_at n (s : ifstream) :
  failbit s = false -> fst (read n s) = bytes_at (content s) (gpos s) n.
Proof.
  intros Hgood. unfold read, bytes_at. rewrite Hgood. cbv zeta.
  destruct (length (firstn n (skipn (gpos s) (content s))) <? n)%nat eqn:Hshort;
    cbn [fst]; [reflexivity |].
  apply Nat.ltb_ge in Hshort.
  replace (n - length (firstn n (skipn (gpos s) (content s))))%nat with 0%nat by lia.
  cbn [repeat]. rewrite app_nil_r. reflexivity.
Qed.

Lemma bytes_at_skip (before bytes : list Z) off n :
  bytes_at (before ++ bytes) (length before + off) n = bytes_at bytes off n.
Proof.
  unfold bytes_at. rewrite (Nat.add_comm (length before) off).
  rewrite <- skipn_skipn, skipn_exact by reflexivity. reflexivity.
Qed.

(** *** Finding a record *)

Lemma arm_bytes_nonneg entries : Forall entry_fits entries -> 0 <= arm_bytes entries.
Proof.
  intros Hall. induction Hall as [| e rest He _ IH]; cbn [arm_bytes fold_right]; [lia |].
  destruct He. fold (arm_bytes rest). lia.
Qed.

Lemma split_first_records now addr block_hash entries : forall off,
  Forall entry_fits entries -> 0 <= off -> off + arm_bytes entries < 2 ^ 64 ->
  split_first (fun e => (fe_x86_addr e =? addr) && (fe_x86_hash e =? block_hash))
              (records now entries off)
  = match split_first (same_block addr block_hash) entries with
    | Some (pre, it, post) =>
        Some (records now pre off,
              make_file_entry (x86_addr it) (u32 (x86_size it)) (x86_hash it)
                              (off + arm_bytes pre) (u32 (arm_size it)) (access_count it)
                              now (flags it),
              records now post (off + arm_bytes pre + arm_size it))
    | None => None
    end.
Proof.
  induction entries as [| e rest IH]; intros off Hfits Hoff Hroom; [reflexivity |].
  inversion Hfits as [| ? ? He Hrest]; subst.
  pose proof (arm_bytes_nonneg rest Hrest) as Hnonneg.
  change (arm_bytes (e :: rest)) with (arm_size e + arm_bytes rest) in Hroom.
  assert (Hsize : 0 <= arm_size e < 2 ^ 32) by (destruct He; assumption).
  assert (Hnext : u64 (off + arm_size e) = off + arm_size e)
    by (unfold u64; apply Z.mod_small; lia).
  cbn [records split_first]. rewrite Hnext.
  destruct (file_entry_fields (x86_addr e) (u32 (x86_size e)) (x86_hash e) off
              (u32 (arm_size e)) (access_count e) now (flags e))
    as (Haddr & _ & Hhash & _).
  rewrite Haddr, Hhash.
  rewrite (Z.mod_small (x86_addr e)) by (destruct He; assumption).
  rewrite (Z.mod_small (x86_hash e)) by (destruct He; assumption).
  fold (same_block addr block_hash e).
  destruct (same_block addr block_hash e).
  - change (arm_bytes []) with 0. rewrite Z.add_0_r. reflexivity.
  - rewrite IH by (assumption || lia).
    destruct (split_first (same_block addr block_hash) rest) as [[[pre it] post] |];
      [| reflexivity].
    cbn [records]. rewrite Hnext.
    change (arm_bytes (e :: pre)) with (arm_size e + arm_bytes pre).
    rewrite !Z.add_assoc. reflexivity.
Qed.

(** *** Reading a checkpoint back *)

Lemma arm_bytes_app pre post : arm_bytes (pre ++ post) = arm_bytes pre + arm_bytes post.
Proof.
  induction pre as [| e pre IH]; [reflexivity |].
  cbn [app]. change (arm_bytes (e :: pre ++ post)) with (arm_size e + arm_bytes (pre ++ post)).
  change (arm_bytes (e :: pre)) with (arm_size e + arm_bytes pre). rewrite IH. lia.
Qed.

Lemma arm_bytes_bound entries :
  Forall entry_fits entries -> arm_bytes entries <= Z.of_nat (length entries) * 2 ^ 32.
Proof.
  intros Hall. induction Hall as [| e rest He _ IH]; [cbn; lia |].
  change (arm_bytes (e :: rest)) with (arm_size e + arm_bytes rest).
  cbn [length]. destruct He. lia.
Qed.

Lemma reloaded_record now it off :
  entry_fits it -> 0 <= now < 2 ^ 64 ->
  entry_of_file_entry
    (make_file_entry (x86_addr it) (u32 (x86_size it)) (x86_hash it) off
                     (u32 (arm_size it)) (access_count it) now (flags it))
  = reloaded now it.
Proof.
  intros [Haddr Hhash Hx86 Harm Hcount Hflags] Hnow.
  destruct (file_entry_fields (x86_addr it) (u32 (x86_size it)) (x86_hash it) off
              (u32 (arm_size it)) (access_count it) now (flags it))
    as (H1 & H2 & H3 & _ & H5 & H6 & H7 & H8).
  unfold entry_of_file_entry, reloaded. rewrite H1, H2, H3, H5, H6, H7, H8.
  unfold u32. rewrite !Z.mod_mod by lia.
  rewrite !Z.mod_small by assumption. reflexivity.
Qed.

Section Checkpoint.

Variables (now : Z) (entries : list EnhancedTranslationEntry) (arm_code : list Z)
          (binary_hash : Z).

Let header : list Z :=
  make_header CACHE_MAGIC CACHE_VERSION (u32 (Z.of_nat (length entries))) binary_hash
              now now 0.
Let file : list Z := header ++ concat (records now entries 0) ++ arm_code.

Hypothesis Hcount : Z.of_nat (length entries) <= MAX_L1_CACHE_ENTRIES.
Hypothesis Hfits : Forall entry_fits entries.
Hypothesis Hnow : 0 <= now < 2 ^ 64.

Lemma checkpoint_header_read :
  read 64 (mkIn file 0 false) = (header, mkIn file 64 false)
  /\ header_invalid header = false
  /\ hdr_entry_count header = Z.of_nat (length entries).
Proof.
  unfold MAX_L1_CACHE_ENTRIES in Hcount. split; [| split].
  - pose proof (read_exact [] header (concat (records now entries 0) ++ arm_code)) as H.
    unfold header in H at 1. rewrite length_make_header in H. exact H.
  - unfold header_invalid, header.
    destruct (header_fields CACHE_MAGIC CACHE_VERSION (u32 (Z.of_nat (length entries)))
                            binary_hash now now 0) as (-> & -> & _).
    reflexivity.
  - unfold header.
    destruct (header_fields CACHE_MAGIC CACHE_VERSION (u32 (Z.of_nat (length entries)))
                            binary_hash now now 0) as (_ & _ & -> & _).
    unfold u32. rewrite Z.mod_mod by lia. apply Z.mod_small. lia.
Qed.

Lemma checkpoint_table_read :
  read (length entries * 64) (mkIn file 64 false)
  = (concat (records now entries 0), mkIn file (64 + length entries * 64) false)
  /\ file_entries (length entries) (concat (records now entries 0)) = records now entries 0.
Proof.
  destruct (records_shape now entries 0) as [Hlen Hall]. split.
  - pose proof (read_exact header (concat (records now entries 0)) arm_code) as H.
    rewrite length_concat_records, Hlen in H by exact Hall.
    unfold header in H at 2 4. rewrite length_make_header in H. exact H.
  - rewrite <- Hlen at 1. apply file_entries_concat. exact Hall.
Qed.

Lemma lookup_l2_cache_reads_checkpoint later c disk cache_file addr block_hash :
  disk !! cache_file = Some file ->
  match split_first (same_block addr block_hash) entries with
  | Some (pre, it, post) =>
      exists disk',
        lookup_l2_cache later c disk cache_file addr block_hash
        = (Some (reloaded now it,
                 bytes_at arm_code (Z.to_nat (arm_bytes pre)) (Z.to_nat (arm_size it))),
           mkCache (cache_directory c) (l1_cache c) (binary_cache_map c)
                   (l1_hits c) (l2_hits c + 1) (misses c),
           disk')
  | None => lookup_l2_cache later c disk cache_file addr block_hash = (None, c, disk)
  end.
Proof.
  intros Hfile.
  destruct checkpoint_header_read as (Hread1 & Hvalid & Hentries).
  destruct checkpoint_table_read as (Hread2 & Htable).
  pose proof (arm_bytes_bound entries Hfits) as Hbound.
  pose proof (arm_bytes_nonneg entries Hfits) as Hnonneg.
  unfold MAX_L1_CACHE_ENTRIES in Hcount.
  pose proof (split_first_records now addr block_hash entries 0 Hfits ltac:(lia) ltac:(lia))
    as Hfind.
  unfold lookup_l2_cache, open_in. rewrite Hfile, Hread1, Hvalid, Hentries, Nat2Z.id.
  rewrite Hread2, Htable, Hfind.
  destruct (split_first (same_block addr block_hash) entries) as [[[pre it] post] |] eqn:Hs;
    [| reflexivity].
  apply split_first_inv in Hs as (Hsplit & _ & _).
  assert (Hit : entry_fits it).
  { rewrite Hsplit in Hfits. apply Forall_app in Hfits as [_ Hfits'].
    inversion Hfits'; assumption. }
  assert (Hpre : 0 <= arm_bytes pre <= arm_bytes entries).
  { rewrite Hsplit in Hfits |- *. apply Forall_app in Hfits as [Hfpre Hfrest].
    rewrite arm_bytes_app. pose proof (arm_bytes_nonneg _ Hfpre).
    pose proof (arm_bytes_nonneg _ Hfrest). lia. }
  cbv zeta.
  destruct (file_entry_fields (x86_addr it) (u32 (x86_size it)) (x86_hash it)
              (0 + arm_bytes pre) (u32 (arm_size it)) (access_count it) now (flags it))
    as (_ & _ & _ & Hoff & Hsize & _).
  rewrite Hoff, Hsize. rewrite Z.add_0_l.
  rewrite (Z.mod_small (arm_bytes pre)) by lia.
  unfold u32 at 1. rewrite Z.mod_mod by lia.
  rewrite (Z.mod_small (arm_size it)) by (destruct Hit; assumption).
  assert (Hstart : u64 (64 + Z.of_nat (length entries) * 64 + arm_bytes pre)
                   = 64 + Z.of_nat (length entries) * 64 + arm_bytes pre)
    by (unfold u64; apply Z.mod_small; lia).
  rewrite Hstart. unfold seekg. cbn [failbit content].
  match goal with
  | |- context [read ?n ?s] =>
      pose proof (read_bytes_at n s eq_refl) as Hread3; destruct (read n s) as [code file3]
  end.
  cbn [fst content gpos] in Hread3. subst code.
  replace (Z.to_nat (64 + Z.of_nat (length entries) * 64 + arm_bytes pre))
    with (length (header ++ concat (records now entries 0)) + Z.to_nat (arm_bytes pre))%nat.
  2:{ destruct (records_shape now entries 0) as [Hlen Hall].
      rewrite length_app, length_concat_records, Hlen by exact Hall.
      unfold header. rewrite length_make_header. lia. }
  unfold file at 1. rewrite app_assoc, bytes_at_skip.
  rewrite reloaded_record by assumption.
  eexists. reflexivity.
Qed.

Lemma records_reloaded : forall es off,
  Forall entry_fits es -> 0 <= off -> off + arm_bytes es < 2 ^ 64 ->
  map entry_of_file_entry (records now es off) = map (reloaded now) es
  /\ fold_left (fun total e => Z.max total (u64 (fe_arm_offset e + fe_arm_size e)))
               (records now es off) off
     = off + arm_bytes es.
Proof.
  induction es as [| e rest IH]; intros off Hall Hoff Hroom.
  - split; [reflexivity |]. cbn. lia.
  - inversion Hall as [| ? ? He Hrest]; subst.
    pose proof (arm_bytes_nonneg rest Hrest) as Hnonneg.
    change (arm_bytes (e :: rest)) with (arm_size e + arm_bytes rest) in Hroom |- *.
    assert (Hsize : 0 <= arm_size e < 2 ^ 32) by (destruct He; assumption).
    assert (Hnext : u64 (off + arm_size e) = off + arm_size e)
      by (unfold u64; apply Z.mod_small; lia).
    cbn [records map fold_left]. rewrite Hnext.
    destruct (IH (off + arm_size e) Hrest ltac:(lia) ltac:(lia)) as [Hmap Hfold].
    rewrite Hmap, reloaded_record by assumption. split; [reflexivity |].
    destruct (file_entry_fields (x86_addr e) (u32 (x86_size e)) (x86_hash e) off
                (u32 (arm_size e)) (access_count e) now (flags e))
      as (_ & _ & _ & Hfo & Hfs & _).
    rewrite Hfo, Hfs. unfold u32. rewrite Z.mod_mod by lia.
    rewrite (Z.mod_small off), (Z.mod_small (arm_size e)) by lia.
    rewrite Hnext, Z.max_r by lia. rewrite Hfold. lia.
Qed.

Lemma load_l2_cache_reads_checkpoint later disk cache_file expected_hash :
  disk !! cache_file = Some file ->
  0 <= binary_hash < 2 ^ 64 ->
  expected_hash = 0 \/ expected_hash = binary_hash ->
  fst (load_l2_cache later disk cache_file expected_hash)
  = Some (map (reloaded now) entries, bytes_at arm_code 0 (Z.to_nat (arm_bytes entries))).
Proof.
  intros Hfile Hhash Hexpected.
  destruct checkpoint_header_read as (Hread1 & Hvalid & Hentries).
  destruct checkpoint_table_read as (Hread2 & Htable).
  pose proof (arm_bytes_bound entries Hfits) as Hbound.
  unfold MAX_L1_CACHE_ENTRIES in Hcount.
  destruct (records_reloaded entries 0 Hfits ltac:(lia) ltac:(lia)) as [Hmap Htotal].
  unfold load_l2_cache, open_in. rewrite Hfile, Hread1, Hvalid.
  replace (negb (expected_hash =? 0) && negb (hdr_x86_hash header =? expected_hash))
    with false.
  2:{ destruct Hexpected as [-> | ->]; [reflexivity |].
      unfold header.
      destruct (header_fields CACHE_MAGIC CACHE_VERSION (u32 (Z.of_nat (length entries)))
                              binary_hash now now 0) as (_ & _ & _ & ->).
      rewrite Z.mod_small, Z.eqb_refl by exact Hhash. cbn [negb]. rewrite andb_false_r.
      reflexivity. }
  rewrite Hentries, Nat2Z.id, Hread2, Htable. unfold total_arm_size. rewrite Htotal, Hmap.
  rewrite Z.add_0_l.
  match goal with
  | |- context [read ?n ?s] =>
      pose proof (read_bytes_at n s eq_refl) as Hread3; destruct (read n s) as [code file3]
  end.
  cbn [fst content gpos] in Hread3. subst code. cbn [fst].
  replace (64 + length entries * 64)%nat
    with (length (header ++ concat (records now entries 0)) + 0)%nat.
  2:{ destruct (records_shape now entries 0) as [Hlen Hall].
      rewrite length_app, length_concat_records, Hlen by exact Hall.
      unfold header. rewrite length_make_header. lia. }
  unfold file at 1. rewrite app_assoc, bytes_at_skip. reflexivity.
Qed.

End Checkpoint.

(** The sample cache of two blocks: its binary is registered, and its
    entries fit the on-disk record. *)
Lemma cache_ab_registered :
  binary_cache_map Samples.cache_ab !! Samples.binary_id = Some Samples.path_ab.
Proof. vm_compute. reflexivity. Qed.

Lemma cache_ab_fits : Forall entry_fits (l1_cache Samples.cache_ab).
Proof.
  assert (Hl1 : l1_cache Samples.cache_ab = [Samples.stored_entry_b; Samples.stored_entry_a])
    by (vm_compute; reflexivity).
  rewrite Hl1.
  repeat constructor; vm_compute; (discriminate || reflexivity).
Qed.

Lemma cache_ab_finds_a :
  split_first (same_block 0x1000 (hash_block Samples.block_a)) (l1_cache Samples.cache_ab)
  = Some ([Samples.stored_entry_b], Samples.stored_entry_a, []).
Proof. vm_compute. reflexivity. Qed.

(** X18: [checkpoint] for an unknown binary id changes nothing; otherwise it
    replaces that binary's cache file and no other: the file is 64 bytes of
    header, 64 bytes per tier-1 entry and then the host code given, its
    header passes the magic and version check, counts the entries and holds
    the hash of the empty input. *)
Theorem checkpoint_file_layout :
  forall (now : Z) (c : TranslationCache) (disk : gmap string (list Z))
         (binary_id : string) (full_arm_code : list Z),
    let disk' := checkpoint now c disk binary_id full_arm_code in
    match binary_cache_map c !! binary_id with
    | None => disk' = disk
    | Some cache_file =>
        (forall other, other <> cache_file -> disk' !! other = disk !! other)
        /\ exists file,
             disk' !! cache_file = Some file
             /\ length file
                = (64 + 64 * length (l1_cache c) + length full_arm_code)%nat
             /\ header_invalid (header_of file) = false
             /\ hdr_entry_count (header_of file) = u32 (Z.of_nat (length (l1_cache c)))
             /\ hdr_x86_hash (header_of file) = XXHash.XXH64 [] 0
             /\ skipn (64 + 64 * length (l1_cache c)) file = full_arm_code
    end.
Proof.
  intros now c disk binary_id full_arm_code disk'. subst disk'. unfold checkpoint.
  destruct (binary_cache_map c !! binary_id) as [cache_file |]; [| reflexivity].
  unfold save_l2_cache. cbn [snd]. rewrite write_entries_records.
  destruct (records_shape now (l1_cache c) 0) as [Hlen Hall].
  set (header := make_header CACHE_MAGIC CACHE_VERSION
                             (u32 (Z.of_nat (length (l1_cache c)))) (XXHash.XXH64 [] 0)
                             now now 0).
  split; [intros other Hother; apply lookup_insert_ne; congruence |].
  eexists. split; [apply lookup_insert_eq |].
  assert (Hheader : header_of (header ++ concat (records now (l1_cache c) 0) ++ full_arm_code)
                    = header).
  { unfold header_of.
    pose proof (read_exact [] header (concat (records now (l1_cache c) 0) ++ full_arm_code))
      as H.
    unfold header in H at 1. rewrite length_make_header in H. cbn [app length] in H.
    rewrite H. reflexivity. }
  rewrite Hheader.
  destruct (header_fields CACHE_MAGIC CACHE_VERSION (u32 (Z.of_nat (length (l1_cache c))))
                          (XXHash.XXH64 [] 0) now now 0) as (Hmagic & Hversion & Hn & Hhash).
  fold header in Hmagic, Hversion, Hn, Hhash.
  split; [| split; [| split; [| split]]].
  - rewrite !length_app, length_concat_records, Hlen by exact Hall.
    unfold header. rewrite length_make_header. lia.
  - unfold header_invalid. rewrite Hmagic, Hversion. reflexivity.
  - rewrite Hn. unfold u32. apply Z.mod_mod. lia.
  - rewrite Hhash. vm_compute. reflexivity.
  - rewrite app_assoc. apply skipn_exact.
    rewrite length_app, length_concat_records, Hlen by exact Hall.
    unfold header. rewrite length_make_header. lia.
Qed.







End CacheFileFacts.

(** ** The persistence engine: the order of writes *)

Module PersistenceOrderFacts.
Import Word Persistence PersistenceOrder.
Import TranslatorBlockFacts CacheFileFacts.

Lemma writes_app a b : writes (a ++ b) = writes a ++ writes b.
Proof. unfold writes. apply List.filter_app. Qed.

Lemma submitted_app a b : submitted (a ++ b) = submitted a ++ submitted b.
Proof. unfold submitted. apply flat_map_app. Qed.

Lemma apply_writes_app d a b : apply_writes d (a ++ b) = apply_writes (apply_writes d a) b.
Proof. unfold apply_writes. apply fold_left_app. Qed.

Lemma callbacks_of_app a b : callbacks_of (a ++ b) = callbacks_of a ++ callbacks_of b.
Proof. unfold callbacks_of. apply flat_map_app. Qed.

Ltac fifo_with done executed :=
  exists done, executed; constructor;
  cbn [program manager disk queue_write job_queue worker completed_jobs failed_jobs
       called_back];
  try assumption.

Lemma client_step_fifo d0 prog done executed s s' :
  fifo d0 prog done executed s -> client_step s = Some s' ->
  exists done' executed', fifo d0 prog done' executed' s'.
Proof.
  intros [Hprog Horder Hdisk Hcompleted Hfailed Hcalled]. unfold client_step.
  destruct (awaiting s) as [p |].
  - destruct (existsb (Nat.eqb p) (fulfilled (manager s))); [| discriminate].
    intros [= <-]. fifo_with done executed.
  - destruct (program s) as [| op rest] eqn:Hrest; [discriminate |].
    assert (Hprog' : prog = (executed ++ [op]) ++ rest)
      by (rewrite <- app_assoc; exact Hprog).
    destruct op as [file bytes off cb | | file].
    + intros [= <-].
      fifo_with done (executed ++ [do_queue_write file bytes off cb]).
      rewrite submitted_app, !writes_app, <- Horder, <- !app_assoc. reflexivity.
    + unfold flush_enter. destruct (job_queue (manager s)) as [| j q] eqn:Hqueue.
      * intros [= <-].
        fifo_with done (executed ++ [do_flush]).
        rewrite Hqueue, submitted_app, writes_app, <- Horder.
        change (writes (submitted [do_flush])) with (@nil WriteCacheJob).
        repeat rewrite app_nil_r. reflexivity.
      * intros [= <-].
        fifo_with done (executed ++ [do_flush]).
        rewrite submitted_app, writes_app, <- Horder.
        change (writes (submitted [do_flush])) with (@nil WriteCacheJob).
        change (j :: q ++ [mkJob "" [] 0 (set_promise (next_promise s))])
          with ((j :: q) ++ [mkJob "" [] 0 (set_promise (next_promise s))]).
        rewrite (writes_app (j :: q)).
        change (writes [mkJob "" [] 0 (set_promise (next_promise s))])
          with (@nil WriteCacheJob).
        repeat rewrite app_nil_r. reflexivity.
    + intros [= <-].
      fifo_with done (executed ++ [do_read file]).
      rewrite submitted_app, writes_app, <- Horder.
      change (writes (submitted [do_read file])) with (@nil WriteCacheJob).
      repeat rewrite app_nil_r. reflexivity.
Qed.

Lemma worker_step_fifo d0 prog done executed s s' :
  fifo d0 prog done executed s -> worker_step s = Some s' ->
  exists done' executed', fifo d0 prog done' executed' s'.
Proof.
  intros [Hprog Horder Hdisk Hcompleted Hfailed Hcalled]. unfold worker_step.
  destruct (worker (manager s)) as [| job |] eqn:Hworker; [| | discriminate].
  - unfold worker_take. destruct (should_terminate (manager s)).
    + intros [= <-].
      fifo_with done executed.
    + destruct (job_queue (manager s)) as [| j q] eqn:Hqueue; [discriminate |].
      intros [= <-].
      fifo_with done executed.
      rewrite <- Horder. change (in_flight (holding j)) with [j].
      change (writes (in_flight at_loop_head)) with (@nil WriteCacheJob).
      change (j :: q) with ([j] ++ q). rewrite (writes_app [j] q). reflexivity.
  - unfold worker_process. cbn [in_flight] in Horder.
    destruct (String.eqb (cache_file job) "") eqn:Hname.
    + intros [= <-].
      fifo_with done executed.
      rewrite <- Horder. cbn [in_flight writes List.filter]. unfold named. rewrite Hname.
      reflexivity.
    + unfold write_to_file at 1. cbv zeta. intros [= <-].
      assert (Hcb : callbacks_of [job]
                    = match callback job with
                      | user_callback id => [(id, true)]
                      | _ => []
                      end)
        by (cbn [callbacks_of flat_map]; apply app_nil_r).
      destruct (callback job); cbn [fire]; fifo_with (done ++ [job]) executed.
      all: try (rewrite <- Horder; cbn [writes List.filter]; unfold named; rewrite Hname;
                cbn [negb]; rewrite <- app_assoc; reflexivity).
      all: try (rewrite apply_writes_app, <- Hdisk; reflexivity).
      all: try (rewrite length_app, Hcompleted; cbn [length]; lia).
      all: rewrite callbacks_of_app, rev_app_distr, Hcb, Hcalled; reflexivity.
Qed.

Lemma run_fifo d0 prog schedule : forall done executed s s',
  fifo d0 prog done executed s -> run schedule s = Some s' ->
  exists done' executed', fifo d0 prog done' executed' s'.
Proof.
  induction schedule as [| t schedule IH]; intros done executed s s' Hs; cbn [run].
  - intros [= <-]. exists done, executed. exact Hs.
  - destruct (step t s) as [s1 |] eqn:Hstep; [| discriminate].
    intros Hrun.
    assert (Hnext : exists done' executed', fifo d0 prog done' executed' s1).
    { destruct t; cbn [step] in Hstep.
      - eapply client_step_fifo; eassumption.
      - eapply worker_step_fifo; eassumption. }
    destruct Hnext as (done' & executed' & Hnext). eapply IH; eassumption.
Qed.



(** *** [write_to_file] *)


End PersistenceOrderFacts.

(** ** Hits in a row, and promotion from tier 2 *)

Module CacheHitFacts.
Import Word Cache CacheInvariants.
Import CacheFacts CacheTierFacts.

(** A tier-1 hit on the entry at the most-recently-used end. *)
Lemma lookup_head_hit now c disk binary_id addr x86_code e rest :
  l1_cache c = e :: rest ->
  x86_addr e = addr -> x86_hash e = hash_block x86_code ->
  lookup now c disk binary_id addr x86_code
  = (mkResult L1_MEMORY (Some e) true, [],
     mkCache (cache_directory c) (touch now e :: rest) (binary_cache_map c)
             (l1_hits c + 1) (l2_hits c) (misses c),
     disk).
Proof.
  intros Hl1 Haddr Hhash. unfold lookup, lookup_l1_cache. rewrite Hl1. cbn [split_first].
  replace (same_block addr (hash_block x86_code) e) with true; [reflexivity |].
  symmetry. apply same_block_key. unfold entry_key. congruence.
Qed.

Lemma lookup_each_head nows : forall c disk binary_id addr x86_code e rest,
  l1_cache c = e :: rest ->
  x86_addr e = addr -> x86_hash e = hash_block x86_code ->
  0 <= access_count e -> access_count e + Z.of_nat (length nows) < 2 ^ 32 ->
  exists e',
    lookup_each nows c disk binary_id addr x86_code
    = (mkCache (cache_directory c) (e' :: rest) (binary_cache_map c)
               (l1_hits c + Z.of_nat (length nows)) (l2_hits c) (misses c),
       disk)
    /\ x86_addr e' = addr /\ x86_hash e' = hash_block x86_code
    /\ arm_addr e' = arm_addr e /\ arm_size e' = arm_size e
    /\ access_count e' = access_count e + Z.of_nat (length nows)
    /\ (nows <> [] -> is_hot e' = (10 <? access_count e')).
Proof.
  induction nows as [| now nows IH]; intros c disk binary_id addr x86_code e rest
                                            Hl1 Haddr Hhash Hcount Hroom.
  - exists e. cbn [lookup_each length]. rewrite Z.add_0_r, <- Hl1.
    destruct c. repeat split; try assumption; try reflexivity; try (cbn; lia).
    intros Hne. contradiction.
  - cbn [lookup_each]. rewrite (lookup_head_hit now c disk binary_id addr x86_code e rest)
      by assumption.
    cbn [length] in Hroom.
    assert (Htouched : access_count (touch now e) = access_count e + 1).
    { cbn [touch access_count]. unfold u32. apply Z.mod_small. lia. }
    destruct (IH (mkCache (cache_directory c) (touch now e :: rest) (binary_cache_map c)
                          (l1_hits c + 1) (l2_hits c) (misses c))
                 disk binary_id addr x86_code (touch now e) rest eq_refl Haddr Hhash
                 ltac:(lia) ltac:(lia))
      as (e' & Hrun & Haddr' & Hhash' & Harm & Hsize & Haccess & Hhot).
    exists e'. rewrite Hrun. cbn [cache_directory binary_cache_map l1_hits l2_hits misses length].
    split; [do 2 f_equal; lia |].
    repeat split; try assumption; try lia.
    intros _. destruct nows as [| now' nows'].
    + cbn [lookup_each] in Hrun. injection Hrun as <-. reflexivity.
    + apply Hhot. discriminate.
Qed.

(** X26: a block stored for the first time and then looked up [k] times in
    a row (with [k + 1] below 2^32) stays at the most-recently-used end of
    tier 1 with the host address given to [store]; its access count is
    [k + 1], it is hot exactly when [k] is at least 10, every lookup was a
    tier-1 hit, and the disk and the other entries are as [store] left
    them. *)
Theorem hits_in_a_row_make_hot :
  forall (now : Z) (nows : list Z) (c : TranslationCache) (disk : gmap string (list Z))
         (binary_id : string) (addr : Z) (x86_code : list Z) (host_addr : Z)
         (arm_code : list Z),
    split_first (same_block addr (hash_block x86_code)) (l1_cache c) = None ->
    Z.of_nat (length nows) + 1 < 2 ^ 32 ->
    let stored := store now c binary_id addr x86_code host_addr arm_code in
    exists e rest,
      lookup_each nows stored disk binary_id addr x86_code
      = (mkCache (cache_directory c) (e :: rest) (binary_cache_map c)
                 (l1_hits c + Z.of_nat (length nows)) (l2_hits c) (misses c),
         disk)
      /\ tl (l1_cache stored) = rest
      /\ x86_addr e = addr /\ x86_hash e = hash_block x86_code
      /\ arm_addr e = host_addr
      /\ access_count e = 1 + Z.of_nat (length nows)
      /\ is_hot e = (10 <=? Z.of_nat (length nows)).
Proof.
  intros now nows c disk binary_id addr x86_code host_addr arm_code Hnew Hroom stored.
  subst stored. unfold store, with_l1.
  unfold save_to_l1_cache at 1 2. cbn [x86_addr x86_hash]. rewrite Hnew. cbv zeta.
  set (rest := if MAX_L1_CACHE_ENTRIES <=? Z.of_nat (length (l1_cache c))
               then evict (l1_cache c) else l1_cache c).
  set (e0 := mkEntry _ _ _ _ _ _ _ _ _).
  destruct (lookup_each_head nows
              (mkCache (cache_directory c) (e0 :: rest) (binary_cache_map c) (l1_hits c)
                       (l2_hits c) (misses c))
              disk binary_id addr x86_code e0 rest eq_refl eq_refl eq_refl
              ltac:(cbn; lia) ltac:(cbn; lia))
    as (e & Hrun & Haddr & Hhash & Harm & _ & Haccess & Hhot).
  exists e, rest. cbn [cache_directory binary_cache_map l1_hits l2_hits misses] in Hrun.
  split; [exact Hrun |]. cbn [l1_cache tl].
  change (access_count e0) with 1 in Haccess. change (arm_addr e0) with host_addr in Harm.
  repeat split; try assumption.
  destruct nows as [| now' nows'].
  - cbn [lookup_each] in Hrun. injection Hrun as <-. reflexivity.
  - rewrite Hhot by discriminate. rewrite Haccess.
    destruct (Z.ltb_spec 10 (1 + Z.of_nat (length (now' :: nows'))));
      destruct (Z.leb_spec 10 (Z.of_nat (length (now' :: nows')))); reflexivity || lia.
Qed.

Lemma hits_in_a_row_make_hot_witness :
  exists e rest,
    lookup_each [1002; 1003; 1004; 1005; 1006; 1007; 1008; 1009; 1010; 1011]
                (store 1001 Samples.cache_0 Samples.binary_id 0x1000 Samples.block_a 0
                       Samples.host_a)
                ∅ Samples.binary_id 0x1000 Samples.block_a
    = (mkCache (cache_directory Samples.cache_0) (e :: rest)
               (binary_cache_map Samples.cache_0) (l1_hits Samples.cache_0 + 10)
               (l2_hits Samples.cache_0) (misses Samples.cache_0),
       ∅)
    /\ access_count e = 11
    /\ is_hot e = true.
Proof.
  destruct (hits_in_a_row_make_hot 1001
              [1002; 1003; 1004; 1005; 1006; 1007; 1008; 1009; 1010; 1011]
              Samples.cache_0 ∅ Samples.binary_id 0x1000 Samples.block_a 0 Samples.host_a)
    as (e & rest & Hrun & _ & _ & _ & _ & Hcount & Hhot).
  - vm_compute. reflexivity.
  - vm_compute. reflexivity.
  - exists e, rest. split; [exact Hrun |]. split; [exact Hcount | exact Hhot].
Defined.

(** What [lookup_l2_cache] hands back on a hit is an entry for the block
    asked for, with no host address. *)
Lemma lookup_l2_cache_hit_key now c disk cache_file addr block_hash e arm_code c' disk' :
  lookup_l2_cache now c disk cache_file addr block_hash = (Some (e, arm_code), c', disk') ->
  x86_addr e = addr /\ x86_hash e = block_hash /\ arm_addr e = 0.
Proof.
  unfold lookup_l2_cache.
  destruct (open_in disk cache_file) as [file |]; [| discriminate].
  destruct (read 64 file) as [header file1].
  destruct (header_invalid header); [discriminate |].
  destruct (read (Z.to_nat (hdr_entry_count header) * 64) file1) as [raw file2].
  destruct (split_first _ _) as [[[pre it] post] |] eqn:Hfind; [| discriminate].
  destruct (read (Z.to_nat (fe_arm_size it)) _) as [code file3].
  intros [= <- _ _ _]. apply split_first_inv in Hfind as (_ & _ & Hit).
  apply andb_prop in Hit as [Haddr Hhash]. apply Z.eqb_eq in Haddr, Hhash.
  cbn [entry_of_file_entry x86_addr x86_hash arm_addr]. auto.
Qed.

(** X27: when a [lookup] is a tier-2 hit, the block is then at the
    most-recently-used end of tier 1 with access count 1 and host address 0,
    and the next [lookup] of it, under any binary id, is a tier-1 hit that
    returns that entry, host address 0 included, without touching the
    disk. *)
Theorem tier2_hit_then_tier1_hit :
  forall (now later : Z) (c : TranslationCache) (disk : gmap string (list Z))
         (binary_id other_id : string) (addr : Z) (x86_code : list Z)
         (result : CacheLookupResult) (arm_code : list Z) (c1 : TranslationCache)
         (disk1 : gmap string (list Z)),
    lookup now c disk binary_id addr x86_code = (result, arm_code, c1, disk1) ->
    level result = L2_PERSISTENT ->
    exists e rest,
      l1_cache c1 = e :: rest
      /\ x86_addr e = addr /\ x86_hash e = hash_block x86_code
      /\ arm_addr e = 0 /\ access_count e = 1
      /\ lookup later c1 disk1 other_id addr x86_code
         = (mkResult L1_MEMORY (Some e) true, [],
            mkCache (cache_directory c1) (touch later e :: rest) (binary_cache_map c1)
                    (l1_hits c1 + 1) (l2_hits c1) (misses c1),
            disk1).
Proof.
  intros now later c disk binary_id other_id addr x86_code result arm_code c1 disk1
         Hlookup Hlevel.
  unfold lookup, lookup_l1_cache in Hlookup.
  destruct (split_first (same_block addr (hash_block x86_code)) (l1_cache c))
    as [[[pre it] post] |] eqn:Hl1.
  { injection Hlookup as <- _ _ _. discriminate Hlevel. }
  destruct (binary_cache_map c !! binary_id) as [cache_file |];
    [| injection Hlookup as <- _ _ _; discriminate Hlevel].
  destruct (lookup_l2_cache now c disk cache_file addr (hash_block x86_code))
    as [[[[e code] |] c'] disk'] eqn:Hl2;
    [| injection Hlookup as <- _ _ _; discriminate Hlevel].
  pose proof (lookup_l2_cache_effect now c disk cache_file addr (hash_block x86_code))
    as Heffect.
  rewrite Hl2 in Heffect. subst c'.
  apply lookup_l2_cache_hit_key in Hl2 as (Haddr & Hhash & Harm).
  injection Hlookup as _ _ <- <-. unfold with_l1. cbn [l1_cache].
  unfold save_to_l1_cache. rewrite Haddr, Hhash, Hl1. cbv zeta.
  eexists _, _. split; [reflexivity |].
  cbn [x86_addr x86_hash arm_addr access_count]. repeat split; try assumption.
  apply lookup_head_hit; reflexivity.
Qed.

Lemma tier2_hit_then_tier1_hit_witness :
  exists result arm_code c1 disk1 e rest,
    lookup 1030 (clear Samples.cache_ab) Samples.disk_ab Samples.binary_id 0x1000
           Samples.block_a
    = (result, arm_code, c1, disk1)
    /\ level result = L2_PERSISTENT
    /\ l1_cache c1 = e :: rest
    /\ arm_addr e = 0
    /\ fst (fst (fst (lookup 1031 c1 disk1 Samples.binary_id 0x1000 Samples.block_a)))
       = mkResult L1_MEMORY (Some e) true.
Proof.
  assert (Hlevel : level (fst (fst (fst (lookup 1030 (clear Samples.cache_ab) Samples.disk_ab
                                                Samples.binary_id 0x1000 Samples.block_a))))
                   = L2_PERSISTENT) by (vm_compute; reflexivity).
  destruct (lookup 1030 (clear Samples.cache_ab) Samples.disk_ab Samples.binary_id 0x1000
                   Samples.block_a) as [[[result arm_code] c1] disk1] eqn:Hlookup.
  cbn [fst] in Hlevel.
  destruct (tier2_hit_then_tier1_hit 1030 1031 (clear Samples.cache_ab) Samples.disk_ab
              Samples.binary_id Samples.binary_id 0x1000 Samples.block_a result arm_code c1
              disk1 Hlookup Hlevel)
    as (e & rest & Hl1 & _ & _ & Harm & _ & Hnext).
  exists result, arm_code, c1, disk1, e, rest. rewrite Hnext. auto.
Defined.

End CacheHitFacts.

(** ** The main loop *)

Module DriverFacts.
Import Word Translator TranslatorBlock Driver.

Lemma add_to_cache_addresses cache addr arm len :
  map te_x86_addr (add_to_cache cache addr arm len)
  = (if MAX_CACHE_ENTRIES <=? Z.of_nat (length cache)
     then tl (map te_x86_addr cache) else map te_x86_addr cache) ++ [addr].
Proof.
  unfold add_to_cache. destruct (MAX_CACHE_ENTRIES <=? Z.of_nat (length cache)).
  - rewrite map_app. destruct cache; reflexivity.
  - rewrite map_app. reflexivity.
Qed.

Lemma cached_addresses_length entry_point n :
  length (cached_addresses entry_point n) = Nat.min n (Z.to_nat MAX_CACHE_ENTRIES).
Proof. unfold cached_addresses. rewrite length_map, length_seq. reflexivity. Qed.

Lemma window_slides {A : Type} (f : nat -> A) a c :
  tl (map f (seq a (S c))) ++ [f (a + S c)%nat] = map f (seq (S a) (S c)).
Proof.
  rewrite (seq_S c (S a)), map_app. cbn [seq map tl].
  replace (S a + c)%nat with (a + S c)%nat by lia. reflexivity.
Qed.

Lemma cached_addresses_next entry_point n :
  (if MAX_CACHE_ENTRIES <=? Z.of_nat (length (cached_addresses entry_point n))
   then tl (cached_addresses entry_point n) else cached_addresses entry_point n)
  ++ [block_address entry_point n]
  = cached_addresses entry_point (S n).
Proof.
  rewrite cached_addresses_length. unfold cached_addresses, MAX_CACHE_ENTRIES.
  assert (Hcap : Z.to_nat 1024 = S (Z.to_nat 1023)) by lia.
  rewrite Hcap. set (c := Z.to_nat 1023) in *.
  assert (Hc : Z.of_nat (S c) = 1024) by lia. clearbody c.
  destruct (Nat.le_gt_cases (S c) n) as [Hfull | Hroom].
  - replace (1024 <=? Z.of_nat (Nat.min n (S c))) with true by (symmetry; apply Z.leb_le; lia).
    replace (Nat.min n (S c)) with (S c) by lia.
    replace (Nat.min (S n) (S c)) with (S c) by lia.
    replace (S n - S c)%nat with (S (n - S c)) by lia.
    rewrite <- window_slides. repeat f_equal. lia.
  - replace (1024 <=? Z.of_nat (Nat.min n (S c))) with false
      by (symmetry; apply Z.leb_gt; lia).
    replace (Nat.min n (S c)) with n by lia.
    replace (Nat.min (S n) (S c)) with (S n) by lia.
    replace (n - n)%nat with 0%nat by lia. replace (S n - S n)%nat with 0%nat by lia.
    rewrite seq_S, map_app. reflexivity.
Qed.

Lemma find_in_cache_none cache addr :
  Forall (fun a => a <> addr) (map te_x86_addr cache) -> find_in_cache cache addr = None.
Proof.
  induction cache as [| e cache IH]; intros Hall; [reflexivity |].
  cbn [map] in Hall. inversion Hall as [| ? ? Hne Hrest]; subst.
  cbn [find_in_cache]. destruct (Z.eqb_spec (te_x86_addr e) addr); [contradiction |].
  apply IH. exact Hrest.
Qed.

Lemma cached_addresses_older entry_point n :
  Forall (fun a => a <> block_address entry_point n) (cached_addresses entry_point n).
Proof.
  unfold cached_addresses. apply List.Forall_forall. intros a Hin.
  apply List.in_map_iff in Hin as (j & <- & Hj). apply List.in_seq in Hj.
  unfold block_address. lia.
Qed.

Section RunFacts.

Variable x86_defs : gmap Z X86InstructionDef.
Variable translation_rules : list TranslationRule.
Variable arm_base : Z.
Variables (entry_point size : Z) (memory : list Z) (arm_size : nat).

Hypothesis Hentry : 0 <= entry_point.
Hypothesis Hsize : 0 <= size.
Hypothesis Hend : entry_point + size + 16 < 2 ^ 64.

Let at_pass := Driver.at_pass entry_point size memory arm_size.
Let run_result := Driver.run_result entry_point size memory arm_size.

Lemma translated_words_bounded x86_block block_size :
  Z.of_nat (length (translate_x86_block x86_defs translation_rules x86_block block_size
                                        (TRANSLATION_BLOCK_SIZE / 4))) <= 1024.
Proof.
  pose proof (TranslatorBlockFacts.translate_x86_block_length x86_defs translation_rules
                x86_block block_size (TRANSLATION_BLOCK_SIZE / 4)) as H.
  change (TRANSLATION_BLOCK_SIZE / 4) with 1024 in H |- *. lia.
Qed.

Lemma length_bytes_of_words words : length (bytes_of_words words) = (4 * length words)%nat.
Proof.
  unfold bytes_of_words. induction words as [| w words IH]; [reflexivity |].
  cbn [map concat length]. rewrite length_app, IH. cbn [le_bytes length]. lia.
Qed.

Lemma iteration_spec k t :
  at_pass k t ->
  match iteration x86_defs translation_rules arm_base entry_point size t with
  | inl (why, final) => exists n, (n <= S k)%nat /\ run_result why final n
  | inr t' => at_pass (S k) t'
  end.
Proof.
  intros [Hrip Hcache Hx86 Harm Hoffset Hinside]. unfold iteration.
  rewrite find_in_cache_none
    by (rewrite Hcache, Hrip; apply cached_addresses_older).
  unfold translate_next_block. cbv zeta.
  set (words := translate_x86_block x86_defs translation_rules _ _ _).
  pose proof (translated_words_bounded
                (skipn (Z.to_nat (u64 (cpu_rip t - entry_point))) (x86_memory t))
                (analyze_x86_block x86_defs
                   (skipn (Z.to_nat (u64 (cpu_rip t - entry_point))) (x86_memory t)) 1024))
    as Hwords.
  fold words in Hwords.
  assert (Hadded : map te_x86_addr
                     (add_to_cache (translation_cache t) (cpu_rip t)
                                   (u64 (arm_base + next_arm_offset t))
                                   (Z.of_nat (length words) * 4))
                   = cached_addresses entry_point (S k)).
  { rewrite add_to_cache_addresses, <- cached_addresses_next, <- Hcache, Hrip, length_map.
    reflexivity. }
  destruct (Z.of_nat (length (arm_memory t)) <? next_arm_offset t + Z.of_nat (length words) * 4)
    eqn:Hfit.
  { exists k. split; [lia |]. unfold run_result, Driver.run_result.
    repeat split; try assumption; lia. }
  apply Z.ltb_ge in Hfit. cbn [arm_memory next_arm_offset cpu_rip x86_memory translation_cache].
  assert (Hlen : length (memcpy_at (arm_memory t) (Z.to_nat (next_arm_offset t))
                                   (bytes_of_words words)) = arm_size).
  { rewrite XXHashFacts.memcpy_at_length; [exact Harm |]. rewrite length_bytes_of_words. lia. }
  rewrite Hlen.
  destruct (Z.of_nat arm_size <=? next_arm_offset t + Z.of_nat (length words) * 4) eqn:Hfull.
  { apply Z.leb_le in Hfull. exists (S k). split; [lia |]. unfold run_result, Driver.run_result.
    cbn [arm_memory next_arm_offset cpu_rip x86_memory translation_cache].
    replace (S k - 1)%nat with k by lia. repeat split; try assumption; lia. }
  apply Z.leb_gt in Hfull.
  assert (Hnext : u64 (cpu_rip t + 16) = block_address entry_point (S k)).
  { rewrite Hrip. unfold u64, block_address. rewrite Z.mod_small by lia. lia. }
  assert (Hlimit : u64 (entry_point + size) = entry_point + size)
    by (unfold u64; apply Z.mod_small; lia).
  cbn [arm_memory next_arm_offset cpu_rip x86_memory translation_cache].
  rewrite Hnext, Hlimit.
  destruct (entry_point + size <=? block_address entry_point (S k)) eqn:Hdone.
  - apply Z.leb_le in Hdone. unfold block_address in Hdone.
    exists (S k). split; [lia |]. unfold run_result, Driver.run_result.
    cbn [arm_memory next_arm_offset cpu_rip x86_memory translation_cache].
    repeat split; try assumption; try lia.
    pose proof (Z.div_mod (size + 15) 16 ltac:(lia)) as Hdiv.
    pose proof (Z.mod_pos_bound (size + 15) 16 ltac:(lia)) as Hmod. lia.
  - apply Z.leb_gt in Hdone. unfold block_address in Hdone.
    constructor; cbn [arm_memory next_arm_offset cpu_rip x86_memory translation_cache];
      try assumption; try lia.
Qed.

Lemma main_loop_spec fuel : forall k t,
  at_pass k t ->
  size / 16 + 1 <= Z.of_nat (k + fuel) ->
  exists why final n,
    main_loop x86_defs translation_rules arm_base fuel entry_point size t
    = Some (why, final)
    /\ (n <= k + fuel)%nat /\ run_result why final n.
Proof.
  induction fuel as [| fuel IH]; intros k t Hpass Hfuel.
  - exfalso. destruct Hpass as [_ _ _ _ _ Hinside].
    pose proof (Z.div_mod size 16 ltac:(lia)) as Hdiv.
    pose proof (Z.mod_pos_bound size 16 ltac:(lia)) as Hmod. lia.
  - cbn [main_loop]. pose proof (iteration_spec k t Hpass) as Hstep.
    destruct (iteration x86_defs translation_rules arm_base entry_point size t)
      as [[why final] | t'].
    + destruct Hstep as (n & Hn & Hresult). exists why, final, n.
      split; [reflexivity |]. split; [lia | exact Hresult].
    + destruct (IH (S k) t' Hstep ltac:(lia)) as (why & final & n & Hrun & Hn & Hresult).
      exists why, final, n. split; [exact Hrun |]. split; [lia | exact Hresult].
Qed.

End RunFacts.



End DriverFacts.

(** ** The saved state *)

Module SavedStateFacts.
Import Word Cache SavedState.
Import TranslatorBlockFacts CacheFileFacts.

Lemma bytes_string_string_bytes s : bytes_string (string_bytes s) = s.
Proof.
  unfold bytes_string, string_bytes. rewrite map_map.
  rewrite (map_ext _ (fun a => a)), map_id; [apply String.string_of_list_ascii_of_string |].
  intros a. rewrite Nat2Z.id. apply Ascii.ascii_nat_embedding.
Qed.

Lemma length_string_bytes s : length (string_bytes s) = String.length s.
Proof.
  unfold string_bytes. rewrite length_map.
  induction s as [| a s IH]; [reflexivity |]. cbn [String.list_ascii_of_string length String.length].
  rewrite IH. reflexivity.
Qed.

Lemma read_all_at content (before wanted after : list Z) :
  content = before ++ wanted ++ after ->
  read_all (length wanted) (mkIn content (length before) false)
  = Some (wanted, mkIn content (length before + length wanted) false).
Proof.
  intros ->. unfold read_all. rewrite read_exact. reflexivity.
Qed.

(** *** The table *)

Lemma hot_assign_fresh hot addr count :
  ~ In addr (map fst hot) -> hot_assign hot addr count = None.
Proof.
  induction hot as [| [k v] hot IH]; intros Hfresh; [reflexivity |].
  cbn [hot_assign]. cbn [map fst In] in Hfresh.
  destruct (Z.eqb_spec k addr) as [-> | _]; [exfalso; apply Hfresh; left; reflexivity |].
  rewrite IH; [reflexivity |]. intros Hin. apply Hfresh. right. exact Hin.
Qed.

Lemma hot_find_in hot addr count :
  NoDup (map fst hot) -> (hot_find hot addr = Some count <-> In (addr, count) hot).
Proof.
  induction hot as [| [k v] hot IH]; intros Hkeys.
  - split; [discriminate | intros []].
  - cbn [map fst] in Hkeys. apply NoDup_cons in Hkeys as [Hfresh Hkeys].
    rewrite list_elem_of_In in Hfresh. cbn [hot_find In].
    destruct (Z.eqb_spec k addr) as [-> | Hne].
    + split.
      * intros [= ->]. left. reflexivity.
      * intros [[= ->] | Hin]; [reflexivity |].
        exfalso. apply Hfresh. apply List.in_map_iff. exists (addr, count). auto.
    + rewrite IH by exact Hkeys. split; [auto |].
      intros [[= -> ->] | Hin]; [contradiction | exact Hin].
Qed.

Lemma hot_find_rev hot addr :
  NoDup (map fst hot) -> hot_find (rev hot) addr = hot_find hot addr.
Proof.
  intros Hkeys.
  assert (Hrev : NoDup (map fst (rev hot))) by (rewrite map_rev, <- Permutation_rev; exact Hkeys).
  destruct (hot_find hot addr) as [count |] eqn:Hfind.
  - apply hot_find_in; [exact Hrev |]. apply List.in_rev. rewrite rev_involutive.
    apply hot_find_in; assumption.
  - destruct (hot_find (rev hot) addr) as [count |] eqn:Hfound; [| reflexivity].
    apply hot_find_in in Hfound; [| exact Hrev]. apply List.in_rev in Hfound.
    apply hot_find_in in Hfound; [| exact Hkeys]. congruence.
Qed.

Lemma read_hot_blocks_spec (pairs : list (Z * Z)) : forall content before after acc,
  content = before ++ concat (map hot_block_bytes pairs) ++ after ->
  Forall (fun p => 0 <= fst p < 2 ^ 64 /\ 0 <= snd p < 2 ^ 64) pairs ->
  NoDup (map fst pairs) ->
  (forall k, In k (map fst pairs) -> ~ In k (map fst acc)) ->
  read_hot_blocks (length pairs) (mkIn content (length before) false) acc
  = Some (rev pairs ++ acc).
Proof.
  induction pairs as [| [k v] pairs IH]; intros content before after acc Hcontent Hfits Hkeys
                                              Hfresh; [reflexivity |].
  inversion Hfits as [| ? ? [Hk Hv] Hrest]; subst. cbn [fst snd] in Hk, Hv.
  cbn [map fst] in Hkeys. apply NoDup_cons in Hkeys as [Hnew Hkeys].
  rewrite list_elem_of_In in Hnew.
  cbn [length read_hot_blocks map concat]. unfold hot_block_bytes at 1. cbn [fst snd].
  rewrite <- !app_assoc.
  rewrite (read_all_at _ before (le_bytes 8 k)
             (le_bytes 8 v ++ concat (map hot_block_bytes pairs) ++ after))
    by reflexivity.
  rewrite <- length_app.
  rewrite (read_all_at _ (before ++ le_bytes 8 k) (le_bytes 8 v)
             (concat (map hot_block_bytes pairs) ++ after))
    by (rewrite <- !app_assoc; reflexivity).
  rewrite <- length_app, !le_value_le_bytes.
  change (256 ^ Z.of_nat 8) with (2 ^ 64). rewrite !Z.mod_small by assumption.
  unfold hot_set. rewrite hot_assign_fresh by (apply Hfresh; left; reflexivity).
  rewrite (IH _ ((before ++ le_bytes 8 k) ++ le_bytes 8 v) after ((k, v) :: acc)).
  - cbn [rev]. rewrite <- app_assoc. reflexivity.
  - rewrite <- !app_assoc. reflexivity.
  - exact Hrest.
  - exact Hkeys.
  - intros k' Hin [<- | Hacc]; [contradiction |].
    apply (Hfresh k'); [right; exact Hin | exact Hacc].
Qed.

(** X25: [load_state] of the file [save_state] wrote restores the binary
    id and the hot-block table (the same count for every address, the same
    number of pairs), whatever the loading translator held before, and
    leaves its cache and host memory alone; the state saved has an id and a
    table shorter than 2^32, one pair per address, and 64-bit numbers. *)
Theorem save_state_then_load_state :
  forall (now : Z) (t other : EnhancedTranslator) (disk : gmap string (list Z))
         (filename : string),
    state_fits t ->
    exists hot,
      load_state other (save_state now t disk filename) filename
      = loaded (mkEnhanced (translation_cache other) (current_binary_id t)
                           (arm_memory other) hot)
      /\ (forall addr, hot_find hot addr = hot_find (hot_blocks t) addr)
      /\ length hot = length (hot_blocks t).
Proof.
  intros now t other disk filename [Hid Hcount Hkeys Hpairs].
  exists (rev (hot_blocks t)).
  split; [| split; [intros addr; apply hot_find_rev; exact Hkeys | apply length_rev]].
  unfold load_state, save_state, open_in. rewrite lookup_insert_eq. unfold state_bytes.
  cbv zeta. unfold u32. rewrite !Z.mod_small by lia.
  rewrite Nat2Z.id, <- length_string_bytes, firstn_all.
  set (id := string_bytes (current_binary_id t)).
  set (pairs := concat (map hot_block_bytes (hot_blocks t))).
  pose proof (read_all_at _ [] (le_bytes 4 (Z.of_nat (length id)))
                (id ++ le_bytes 4 (Z.of_nat (length (hot_blocks t))) ++ pairs) eq_refl)
    as Hread1.
  rewrite length_le_bytes in Hread1. cbn [app length Nat.add] in Hread1. rewrite Hread1.
  rewrite le_value_le_bytes. change (256 ^ Z.of_nat 4) with (2 ^ 32).
  rewrite Z.mod_small by (subst id; rewrite length_string_bytes; lia).
  rewrite Nat2Z.id.
  pose proof (read_all_at (le_bytes 4 (Z.of_nat (length id)) ++ id
                           ++ le_bytes 4 (Z.of_nat (length (hot_blocks t))) ++ pairs)
                (le_bytes 4 (Z.of_nat (length id))) id
                (le_bytes 4 (Z.of_nat (length (hot_blocks t))) ++ pairs) eq_refl) as Hread2.
  rewrite length_le_bytes in Hread2. rewrite Hread2.
  pose proof (read_all_at (le_bytes 4 (Z.of_nat (length id)) ++ id
                           ++ le_bytes 4 (Z.of_nat (length (hot_blocks t))) ++ pairs)
                (le_bytes 4 (Z.of_nat (length id)) ++ id)
                (le_bytes 4 (Z.of_nat (length (hot_blocks t)))) pairs
                ltac:(rewrite <- app_assoc; reflexivity)) as Hread3.
  rewrite length_app, !length_le_bytes in Hread3. rewrite Hread3.
  rewrite le_value_le_bytes. change (256 ^ Z.of_nat 4) with (2 ^ 32).
  rewrite Z.mod_small by lia. rewrite Nat2Z.id.
  pose proof (read_hot_blocks_spec (hot_blocks t)
                (le_bytes 4 (Z.of_nat (length id)) ++ id
                 ++ le_bytes 4 (Z.of_nat (length (hot_blocks t))) ++ pairs)
                ((le_bytes 4 (Z.of_nat (length id)) ++ id)
                 ++ le_bytes 4 (Z.of_nat (length (hot_blocks t)))) [] []) as Hread4.
  rewrite !length_app, !length_le_bytes in Hread4.
  rewrite Hread4; try assumption.
  - rewrite app_nil_r. subst id. rewrite bytes_string_string_bytes. reflexivity.
  - rewrite app_nil_r, <- !app_assoc. reflexivity.
  - intros k _ [].
Qed.

Lemma save_state_then_load_state_witness :
  let t := mkEnhanced Samples.cache_ab Samples.binary_id Samples.arena
                      [(0x1000, 11); (0x1010, 3)] in
  let other := mkEnhanced (new_cache "./cache") "" [] [(0x2000, 1)] in
  state_fits t
  /\ exists hot,
      load_state other (save_state 1003 t ∅ "state.bin") "state.bin"
      = loaded (mkEnhanced (new_cache "./cache") Samples.binary_id [] hot)
      /\ (forall addr, hot_find hot addr = hot_find [(0x1000, 11); (0x1010, 3)] addr)
      /\ length hot = 2%nat.
Proof.
  intros t other.
  assert (H : state_fits t).
  { constructor.
    - vm_compute. reflexivity.
    - vm_compute. reflexivity.
    - apply NoDup_cons. split; [| apply NoDup_singleton].
      rewrite list_elem_of_In. intros [Heq | []]. discriminate Heq.
    - repeat constructor; cbn [fst snd]; lia. }
  split; [exact H |].
  apply (save_state_then_load_state 1003 t other ∅ "state.bin" H).
Defined.

End SavedStateFacts.
